(** * notedown: task lines, their index and line-addressed edits

    A shallow embedding of the task provider of notedown
    ([pkg/providers/tasks], the [ast] task entity) together with the
    parser-combinator library it is written against, followed by the
    properties of the specification that were checked against it.

    Layout:
    - [parse]    the combinators of github.com/a-h/parse that the code calls;
    - [parsers]  the shared token parsers of [pkg/parsers];
    - [rrule]    the options of github.com/teambition/rrule-go;
    - [ast]      [Task], [Every], the functional options and [Task.String];
    - [tasks]    [parse.go], [filters.go], [fetchers.go], [client.go];
    - [writer]   the line-addressed mutation layer. *)

From Stdlib Require Import ZArith String Ascii List Lia Bool Arith Permutation.
From Stdlib Require Import DecimalString.
From stdpp Require Import base gmap strings list fin_maps.

Local Open Scope string_scope.

(** ** Bytes and strings

    Go strings are byte sequences and a-h/parse indexes them by byte, so a
    line is a [string] of 8-bit [ascii] and every index is a byte offset. *)

Definition TAB : ascii := ascii_of_nat 9.
Definition LF  : ascii := ascii_of_nat 10.
Definition VT  : ascii := ascii_of_nat 11.
Definition FF  : ascii := ascii_of_nat 12.
Definition CR  : ascii := ascii_of_nat 13.

Definition str1 (c : ascii) : string := String c "".

Fixpoint inb (c : ascii) (cs : string) : bool :=
  match cs with
  | "" => false
  | String d cs' => Ascii.eqb c d || inb c cs'
  end.

Definition isDigit (c : ascii) : bool := inb c "0123456789".

(** [unicode.IsSpace] on the ASCII range: '\t', '\n', '\v', '\f', '\r', ' '. *)
Definition isSpace (c : ascii) : bool :=
  inb c (String TAB (String LF (String VT (String FF (String CR " "))))).

(** [unicode.IsSpace] past the ASCII range, on the UTF-8 bytes of a rune:
    U+0085 and U+00A0 (bytes 194 133 and 194 160) in Latin-1, and the
    [White_Space] runes beyond it, U+1680 (225 154 128), U+2000..U+200A
    (226 128 128..138), U+2028, U+2029, U+202F (226 128 168, 169, 175),
    U+205F (226 129 159) and U+3000 (227 128 128).  These are the encodings [utf8.DecodeRuneInString] and
    [utf8.DecodeLastRuneInString] accept for the runes; any other byte from
    0x80 up belongs to another rune or decodes to [RuneError], neither of
    them white space. *)
Definition isSpace2 (a b : ascii) : bool :=
  let '(a, b) := (nat_of_ascii a, nat_of_ascii b) in
  ((a =? 194) && ((b =? 133) || (b =? 160)))%nat.

Definition isSpace3 (a b c : ascii) : bool :=
  let '(a, b, c) := (nat_of_ascii a, nat_of_ascii b, nat_of_ascii c) in
  ((a =? 225) && (b =? 154) && (c =? 128)
   || (a =? 226) && (b =? 128)
      && ((128 <=? c) && (c <=? 138) || (c =? 168) || (c =? 169) || (c =? 175))
   || (a =? 226) && (b =? 129) && (c =? 159)
   || (a =? 227) && (b =? 128) && (c =? 128))%nat.

(** The loop of [strings.TrimLeftFunc(s, unicode.IsSpace)]: drop the rune
    the text starts with as long as it is white space.  [two] and [three]
    tell the white space of two and three bytes, in the order the bytes are
    met. *)
Fixpoint trimWith (two : ascii -> ascii -> bool)
    (three : ascii -> ascii -> ascii -> bool) (s : string) : string :=
  match s with
  | String a s1 =>
      if isSpace a then trimWith two three s1
      else
        match s1 with
        | String b s2 =>
            if two a b then trimWith two three s2
            else
              match s2 with
              | String c s3 => if three a b c then trimWith two three s3 else s
              | "" => s
              end
        | "" => s
        end
  | "" => ""
  end.

Definition trimLeft (s : string) : string := trimWith isSpace2 isSpace3 s.

Fixpoint revApp (s acc : string) : string :=
  match s with
  | "" => acc
  | String c s' => revApp s' (String c acc)
  end.

Definition reverse (s : string) : string := revApp s "".

(** The loop of [strings.TrimRightFunc(s, unicode.IsSpace)]: drop the last
    rune as long as it is white space; the same loop over the bytes from
    the end backwards. *)
Definition trimRight (s : string) : string :=
  reverse (trimWith (fun b a => isSpace2 a b) (fun c b a => isSpace3 a b c)
                    (reverse s)).

(** [strings.TrimSpace]: "all leading and trailing white space removed, as
    defined by Unicode". *)
Definition TrimSpace (s : string) : string := trimRight (trimLeft s).

(** Value of a run of decimal digits, most significant first. *)
Fixpoint digitsValue (acc : Z) (s : string) : Z :=
  match s with
  | "" => acc
  | String c s' => digitsValue (10 * acc + (Z.of_nat (nat_of_ascii c) - 48)) s'
  end.

Definition maxInt : Z := 2 ^ 63 - 1.

(** [strconv.Atoi] on a string of decimal digits: the value, and whether it
    fits Go's 64-bit [int]; out of range, Go hands back the nearest bound
    together with the error. *)
Definition Atoi (s : string) : Z * bool :=
  let v := digitsValue 0 s in
  if (v <=? maxInt)%Z then (v, true) else (maxInt, false).

(** ** github.com/a-h/parse *)

Module parse.

Inductive error : Set :=
| InvalidPriority   (* fmt.Errorf("invalid priority: %w", err) *)
| InvalidRRule      (* rrule.NewRRule refused the options *)
| TextNotStored     (* "failed to store original every text" *)
| OutOfFuel.        (* a loop of the model used up its budget *)

(** The triple [(item, ok, err)] every parser returns. *)
Inductive result (T : Type) : Type :=
| Match (x : T)
| NoMatch
| Error (e : error).
Arguments Match {T} x.
Arguments NoMatch {T}.
Arguments Error {T} e.

Record Input := { str : string; charIndex : nat }.

Definition NewInput (s : string) : Input := {| str := s; charIndex := 0 |}.

Definition at_ (i : nat) (inp : Input) : Input :=
  {| str := str inp; charIndex := i |}.

Definition Index (inp : Input) : nat := charIndex inp.

Definition Peek (n : nat) (inp : Input) : string * bool :=
  if (String.length (str inp) <? charIndex inp + n)%nat then ("", false)
  else (substring (charIndex inp) n (str inp), true).

Definition Take (n : nat) (inp : Input) : (string * bool) * Input :=
  if (String.length (str inp) <? charIndex inp + n)%nat then (("", false), inp)
  else ((substring (charIndex inp) n (str inp), true),
        at_ (charIndex inp + n) inp).

Definition Seek (index : Z) (inp : Input) : bool * Input :=
  if ((index <? 0) || (Z.of_nat (String.length (str inp)) <? index))%Z
  then (false, inp)
  else (true, at_ (Z.to_nat index) inp).

(** [Position().Line]: the number of line feeds before the cursor. *)
Fixpoint countLF (s : string) : nat :=
  match s with
  | "" => 0
  | String c s' => (if Ascii.eqb c LF then 1 else 0) + countLF s'
  end.

Definition PositionLine (inp : Input) : nat :=
  countLF (substring 0 (charIndex inp) (str inp)).

Definition Parser (T : Type) : Type := Input -> result T * Input.

(** Number of bytes left, plus one: the budget of every loop over the
    input.  A loop whose body consumes input whenever it goes round
    again never exhausts it. *)
Definition budget (inp : Input) : nat :=
  S (String.length (str inp) - charIndex inp).

Definition RuneWhere (f : ascii -> bool) : Parser string := fun inp =>
  match Peek 1 inp with
  | (String c _ as m, true) =>
      if f c then (Match m, snd (Take 1 inp)) else (NoMatch, inp)
  | _ => (NoMatch, inp)
  end.

Definition Rune (c : ascii) : Parser string := RuneWhere (Ascii.eqb c).
Definition RuneIn (cs : string) : Parser string := RuneWhere (fun c => inb c cs).
Definition ZeroToNine : Parser string := RuneIn "0123456789".

Definition String_ (m : string) : Parser string := fun inp =>
  match Peek (String.length m) inp with
  | (got, true) =>
      if String.eqb m got then (Match got, snd (Take (String.length m) inp))
      else (NoMatch, inp)
  | _ => (NoMatch, inp)
  end.

Definition EOF {T} (zero : T) : Parser T := fun inp =>
  if snd (Peek 1 inp) then (NoMatch, inp) else (Match zero, inp).

Fixpoint Any {T} (ps : list (Parser T)) : Parser T := fun inp =>
  match ps with
  | [] => (NoMatch, inp)
  | p :: ps' =>
      match p inp with
      | (NoMatch, inp') => Any ps' inp'
      | r => r
      end
  end.

Definition NewLine : Parser string :=
  Any [String_ (String CR (String LF "")); String_ (str1 LF)].

Definition Optional {T} (p : Parser T) : Parser (option T) := fun inp =>
  match p inp with
  | (Match x, inp') => (Match (Some x), inp')
  | (NoMatch, inp') => (Match None, inp')
  | (Error e, inp') => (Error e, inp')
  end.

(** The loop of [Times(min, max = nil, p)]. *)
Fixpoint timesLoop {T} (fuel : nat) (p : Parser T) (acc : list T)
    (inp : Input) : result (list T) * Input :=
  match fuel with
  | 0 => (Error OutOfFuel, inp)
  | S fuel' =>
      match p inp with
      | (Error e, inp') => (Error e, inp')
      | (NoMatch, inp') => (Match acc, inp')
      | (Match m, inp') => timesLoop fuel' p (acc ++ [m]) inp'
      end
  end.

Definition AtLeast {T} (min : nat) (p : Parser T) : Parser (list T) := fun inp =>
  let start := Index inp in
  match timesLoop (budget inp) p [] inp with
  | (Match ms, inp') =>
      if (min <=? length ms)%nat then (Match ms, inp')
      else (NoMatch, snd (Seek (Z.of_nat start) inp'))
  | r => r
  end.

Definition ZeroOrMore {T} (p : Parser T) : Parser (list T) := AtLeast 0 p.

(** [StringFrom(p)]: the text [p] went over. *)
Definition StringFrom {T} (p : Parser T) : Parser string := fun inp =>
  let start := Index inp in
  match p inp with
  | (Match _, inp') =>
      let end_ := Index inp' in
      match Take (end_ - start) (snd (Seek (Z.of_nat start) inp')) with
      | ((m, true), inp'') => (Match m, inp'')
      | (_, inp'') => (NoMatch, inp'')
      end
  | (NoMatch, inp') => (NoMatch, snd (Seek (Z.of_nat start) inp'))
  | (Error e, inp') => (Error e, inp')
  end.

(** The loop of [StringUntil(delimiter)]: try the delimiter, else chomp one
    byte and go round again; stop in front of the delimiter. *)
Fixpoint untilLoop {T} (fuel : nat) (delimiter : Parser T) (start : nat)
    (inp : Input) : result nat * Input :=
  match fuel with
  | 0 => (Error OutOfFuel, inp)
  | S fuel' =>
      let beforeDelimiter := Index inp in
      match delimiter inp with
      | (Error e, inp') => (Error e, inp')
      | (Match _, inp') => (Match beforeDelimiter, at_ beforeDelimiter inp')
      | (NoMatch, inp') =>
          match Take 1 inp' with
          | ((_, true), inp'') => untilLoop fuel' delimiter start inp''
          | (_, inp'') => (NoMatch, at_ start inp'')
          end
      end
  end.

Definition StringUntil {T} (delimiter : Parser T) : Parser string := fun inp =>
  let start := Index inp in
  match untilLoop (budget inp) delimiter start inp with
  | (Match end_, inp') =>
      match Take (end_ - start) (at_ start inp') with
      | ((m, true), inp'') => (Match m, inp'')
      | (_, inp'') => (NoMatch, inp'')
      end
  | (NoMatch, inp') => (NoMatch, inp')
  | (Error e, inp') => (Error e, inp')
  end.

(** [SequenceOf3(a, b, c)]: all three in a row, or nothing consumed. *)
Definition SequenceOf3 {A B C} (a : Parser A) (b : Parser B) (c : Parser C)
  : Parser (A * B * C) := fun inp =>
  let start := Index inp in
  match a inp with
  | (Match x, inp1) =>
      match b inp1 with
      | (Match y, inp2) =>
          match c inp2 with
          | (Match z, inp3) => (Match (x, y, z), inp3)
          | (NoMatch, inp3) => (NoMatch, at_ start inp3)
          | (Error e, inp3) => (Error e, inp3)
          end
      | (NoMatch, inp2) => (NoMatch, at_ start inp2)
      | (Error e, inp2) => (Error e, inp2)
      end
  | (NoMatch, inp1) => (NoMatch, at_ start inp1)
  | (Error e, inp1) => (Error e, inp1)
  end.

End parse.

Import parse.

(** Sequencing in the style of the Go code.  [let! x := p in k] is
    [x, ok, err := p.Parse(in); if err != nil || !ok { return zero, false, err }];
    [let? o := p in k] is the same call followed by [if err != nil { return err }]
    only, the [ok] flag surviving as the option [o]. *)
Definition ret {T} (x : T) : Parser T := fun inp => (Match x, inp).
Definition noMatch {T} : Parser T := fun inp => (NoMatch, inp).
Definition fail {T} (e : error) : Parser T := fun inp => (Error e, inp).

Definition bind {A B} (p : Parser A) (k : A -> Parser B) : Parser B := fun inp =>
  match p inp with
  | (Match x, inp') => k x inp'
  | (NoMatch, inp') => (NoMatch, inp')
  | (Error e, inp') => (Error e, inp')
  end.

Definition attempt {A B} (p : Parser A) (k : option A -> Parser B) : Parser B :=
  fun inp =>
  match p inp with
  | (Match x, inp') => k (Some x) inp'
  | (NoMatch, inp') => k None inp'
  | (Error e, inp') => (Error e, inp')
  end.

(** A call whose three results are all dropped, as in
    [InlineWhitespaceRunes.Parse(in)] on a line of its own. *)
Definition dump {A B} (p : Parser A) (k : Parser B) : Parser B := fun inp =>
  k (snd (p inp)).

(** The [ok] flag a [let?] kept. *)
Definition isOk {A} (o : option A) : bool :=
  match o with Some _ => true | None => false end.

Notation "'let!' x ':=' p 'in' k" := (bind p (fun x => k))
  (at level 10, x pattern, p at level 100, k at level 200).
Notation "'let?' x ':=' p 'in' k" := (attempt p (fun x => k))
  (at level 10, x pattern, p at level 100, k at level 200).
Notation "'dump!' p 'in' k" := (dump p k)
  (at level 10, p at level 100, k at level 200).

(** ** time

    [time.Time] as the provider uses it: a civil date in UTC and the
    nanoseconds since midnight.  Dates read from a task line have a zero
    clock. *)
Module time.

Record Time := { year : nat; month : nat; day : nat; clock : nat }.

Definition Date (y m d : nat) : Time :=
  {| year := y; month := m; day := d; clock := 0 |}.

Definition key (t : Time) : list nat := [year t; month t; day t; clock t].

Fixpoint lexLt (a b : list nat) : bool :=
  match a, b with
  | x :: a', y :: b' => (x <? y)%nat || ((x =? y)%nat && lexLt a' b')
  | _, _ => false
  end.

Definition Before (t u : Time) : bool := lexLt (key t) (key u).
Definition After (t u : Time) : bool := lexLt (key u) (key t).

Definition isLeap (y : nat) : bool :=
  ((y mod 4 =? 0) && negb (y mod 100 =? 0) || (y mod 400 =? 0))%nat.

Definition daysIn (y m : nat) : nat :=
  match m with
  | 2 => if isLeap y then 29 else 28
  | 4 | 6 | 9 | 11 => 30
  | _ => 31
  end.

Definition validDate (y m d : nat) : bool :=
  ((1 <=? m) && (m <=? 12) && (1 <=? d) && (d <=? daysIn y m))%nat.

(** Decimal digits of [n], zero-padded on the left to [width]. *)
Fixpoint zeros (k : nat) : string :=
  match k with 0 => "" | S k' => String "0" (zeros k') end.

Definition pad (width n : nat) : string :=
  let digits := NilZero.string_of_uint (Nat.to_uint n) in
  zeros (width - String.length digits) ++ digits.

(** [t.Format("2006-01-02")]. *)
Definition Format (t : Time) : string :=
  pad 4 (year t) ++ "-" ++ pad 2 (month t) ++ "-" ++ pad 2 (day t).

Inductive Weekday :=
| Sunday | Monday | Tuesday | Wednesday | Thursday | Friday | Saturday.

End time.

(** ** github.com/teambition/rrule-go

    The options the provider sets; every other field of [ROption] keeps its
    zero value throughout.  An [RRule] is a function of the options it was
    built from (rrule-go keeps them as [OrigOptions]), so a rule is
    represented by those options once [NewRRule] has accepted them. *)
Module rrule.

(** [YEARLY] is the zero value, so options whose [Freq] is never assigned
    are yearly. *)
Inductive Frequency := YEARLY | MONTHLY | WEEKLY | DAILY.

Inductive Weekday := MO | TU | WE | TH | FR | SA | SU.

Record ROption := {
  Freq : Frequency;
  Dtstart : time.Time;
  Interval : Z;
  Byweekday : list Weekday;
  Bymonthday : list Z;
  Bymonth : list Z
}.

Definition RRule := ROption.

Definition inBounds (lo hi : Z) (plusMinus : bool) (v : Z) : bool :=
  ((lo <=? v) && (v <=? hi) || plusMinus && (v <=? - lo) && (- hi <=? v))%Z.

(** [validateBounds]: month days within 1..31 or -31..-1, months within
    1..12, no negative interval. *)
Definition validateBounds (arg : ROption) : bool :=
  forallb (inBounds 1 31 true) (Bymonthday arg)
  && forallb (inBounds 1 12 false) (Bymonth arg)
  && negb (Interval arg <? 0)%Z.

Definition NewRRule (arg : ROption) : option RRule :=
  if validateBounds arg then Some arg else None.

End rrule.

(** ** pkg/parsers *)
Module parsers.

Definition inlineWhitespace : string := String " " (String TAB "").

(** Modelled from the spec: [InlineWhitespaceRunes] of pkg/parsers is not
    among the sources; it goes over the spaces and tabs in front of a field
    key ("dump any leading whitespace"). *)
Definition InlineWhitespaceRunes : Parser (list string) :=
  ZeroOrMore (RuneIn inlineWhitespace).

(** Modelled from the spec: [RemainingInlineWhitespace] of pkg/parsers is
    not among the sources; it is the "inline whitespace" around the list
    marker of the task-line grammar. *)
Definition RemainingInlineWhitespace : Parser string :=
  StringFrom (ZeroOrMore (RuneIn inlineWhitespace)).

(** Modelled from the spec: [NewLineOrEOF] of pkg/parsers is not among the
    sources; "the line terminator (or end of input)". *)
Definition NewLineOrEOF : Parser string := Any [NewLine; EOF ""].

Definition digits (n : nat) : Parser string :=
  fun inp =>
  match Peek n inp with
  | (m, true) =>
      if forallb isDigit (list_ascii_of_string m)
      then (Match m, snd (Take n inp)) else (NoMatch, inp)
  | _ => (NoMatch, inp)
  end.

Definition nat_of (s : string) : nat := Z.to_nat (digitsValue 0 s).

(** Modelled from the spec: [YearMonthDay] of pkg/parsers is not among the
    sources; "strict YYYY-MM-DD", and a value that is not a date leaves the
    field absent rather than failing the line. *)
Definition YearMonthDay : Parser time.Time := fun inp =>
  match (let! y := digits 4 in
         let! _ := Rune "-" in
         let! m := digits 2 in
         let! _ := Rune "-" in
         let! d := digits 2 in
         if time.validDate (nat_of y) (nat_of m) (nat_of d)
         then ret (time.Date (nat_of y) (nat_of m) (nat_of d))
         else noMatch) inp with
  | (Match t, inp') => (Match t, inp')
  | (r, inp') => (r, at_ (Index inp) inp')
  end.

(** Modelled from the spec: the unit words of pkg/parsers are not among
    the sources; "unit ∈ {day(s), week(s), month(s), year(s)}", the word
    read being returned as it stands. *)
Definition Day : Parser string := Any [String_ "days"; String_ "day"].
(** Modelled from the spec: see [Day]. *)
Definition Week : Parser string := Any [String_ "weeks"; String_ "week"].
(** Modelled from the spec: see [Day]. *)
Definition Month : Parser string := Any [String_ "months"; String_ "month"].
(** Modelled from the spec: see [Day]. *)
Definition Year : Parser string := Any [String_ "years"; String_ "year"].

Definition weekdayNames : list (string * time.Weekday) :=
  [("sunday", time.Sunday); ("monday", time.Monday);
   ("tuesday", time.Tuesday); ("wednesday", time.Wednesday);
   ("thursday", time.Thursday); ("friday", time.Friday);
   ("saturday", time.Saturday);
   ("sun", time.Sunday); ("mon", time.Monday); ("tue", time.Tuesday);
   ("wed", time.Wednesday); ("thu", time.Thursday); ("fri", time.Friday);
   ("sat", time.Saturday)].

(** The first word of the table found at the cursor, with its value. *)
Fixpoint word {T} (table : list (string * T)) : Parser T := fun inp =>
  match table with
  | [] => (NoMatch, inp)
  | (w, v) :: table' =>
      match String_ w inp with
      | (Match _, inp') => (Match v, inp')
      | _ => word table' inp
      end
  end.

(** Modelled from the spec: the weekday parser of pkg/parsers is not among
    the sources; "weekday names/short forms". *)
Definition DayOfWeek : Parser time.Weekday := word weekdayNames.

Definition listDelimiter : Parser string :=
  Any [String_ ", "; String_ ","; String_ " "].

(** Further weekdays, each behind a delimiter; a delimiter that no weekday
    follows is given back. *)
Fixpoint moreDays (fuel : nat) (acc : list time.Weekday) (inp : Input)
  : result (list time.Weekday) * Input :=
  match fuel with
  | 0 => (Error OutOfFuel, inp)
  | S fuel' =>
      match (let! _ := listDelimiter in DayOfWeek) inp with
      | (Match d, inp') => moreDays fuel' (acc ++ [d]) inp'
      | (_, _) => (Match acc, inp)
      end
  end.

(** Modelled from the spec: [DaysOfWeek] of pkg/parsers is not among the
    sources; "one or more weekday names/short forms", as in
    "monday, wednesday". *)
Definition DaysOfWeek : Parser (list time.Weekday) :=
  let! d := DayOfWeek in
  fun inp => moreDays (budget inp) [d] inp.

(** Modelled from the spec: [MonthDay] of pkg/parsers is not among the
    sources; "month-day numbers (1–31)": two digits, or one where there are
    no two, whose value is a day of some month. *)
Definition MonthDay : Parser Z := fun inp =>
  match Any [digits 2; digits 1] inp with
  | (Match m, inp') =>
      let v := digitsValue 0 m in
      if ((1 <=? v) && (v <=? 31))%Z then (Match v, inp') else (NoMatch, inp)
  | (_, _) => (NoMatch, inp)
  end.

Definition monthNames : list (string * Z) :=
  [("january", 1); ("february", 2); ("march", 3); ("april", 4); ("may", 5);
   ("june", 6); ("july", 7); ("august", 8); ("september", 9);
   ("october", 10); ("november", 11); ("december", 12)]%Z.

(** Modelled from the spec: [MonthOfYear] of pkg/parsers is not among the
    sources; "month names", valued 1 to 12 like [time.Month]. *)
Definition MonthOfYear : Parser Z := word monthNames.

End parsers.

(** ** pkg/ast: the task entity *)
Module ast.

Inductive Status := Todo | Blocked | Doing | Done | Abandoned.

(** The string each [Status] constant stands for. *)
Definition statusText (s : Status) : string :=
  match s with
  | Todo => " " | Blocked => "b" | Doing => "/" | Done => "x" | Abandoned => "a"
  end.

(** Modelled from the spec: the [Identifier] struct is not among the
    sources; "{path: string, line: integer, version: string}". *)
Record Identifier := { path : string; version : string; line : Z }.

Definition NewIdentifier (path version : string) (line : Z) : Identifier :=
  {| path := path; version := version; line := line |}.

Record Every := {
  RRule : rrule.RRule;
  Text : string   (* maintain the original text for every so we can write it back out *)
}.

Record Task := {
  identifier : Identifier;
  name : string;
  status : Status;
  due : option time.Time;
  scheduled : option time.Time;
  completed : option time.Time;
  priority : option Z;
  every : option Every
}.

(** [TaskOption]: the closures over a task pointer that the package hands
    out, one constructor per [With...] function. *)
Inductive TaskOption :=
| WithLine (line : Z)
| WithName (name : string)
| WithStatus (status : Status)
| WithDue (due : time.Time)
| WithScheduled (scheduled : time.Time)
| WithCompleted (completed : time.Time)
| WithPriority (priority : Z)
| WithEvery (every : Every).

(** [option(&task)]. *)
Definition apply (o : TaskOption) (t : Task) : Task :=
  match o with
  | WithLine l =>
      {| identifier := {| path := path (identifier t);
                          version := version (identifier t); line := l |};
         name := name t; status := status t; due := due t;
         scheduled := scheduled t; completed := completed t;
         priority := priority t; every := every t |}
  | WithName n =>
      {| identifier := identifier t; name := n; status := status t;
         due := due t; scheduled := scheduled t; completed := completed t;
         priority := priority t; every := every t |}
  | WithStatus s =>
      {| identifier := identifier t; name := name t; status := s;
         due := due t; scheduled := scheduled t; completed := completed t;
         priority := priority t; every := every t |}
  | WithDue d =>
      {| identifier := identifier t; name := name t; status := status t;
         due := Some d; scheduled := scheduled t; completed := completed t;
         priority := priority t; every := every t |}
  | WithScheduled d =>
      {| identifier := identifier t; name := name t; status := status t;
         due := due t; scheduled := Some d; completed := completed t;
         priority := priority t; every := every t |}
  | WithCompleted d =>
      {| identifier := identifier t; name := name t; status := status t;
         due := due t; scheduled := scheduled t; completed := Some d;
         priority := priority t; every := every t |}
  | WithPriority p =>
      {| identifier := identifier t; name := name t; status := status t;
         due := due t; scheduled := scheduled t; completed := completed t;
         priority := Some p; every := every t |}
  | WithEvery e =>
      {| identifier := identifier t; name := name t; status := status t;
         due := due t; scheduled := scheduled t; completed := completed t;
         priority := priority t; every := Some e |}
  end.

Definition NewTask (identifier : Identifier) (name : string) (status : Status)
    (options : list TaskOption) : Task :=
  let task := {| identifier := identifier; name := name; status := status;
                 due := None; scheduled := None; completed := None;
                 priority := None; every := None |} in
  fold_left (fun task option => apply option task) options task.

(** Used if you want to mutate/update a task. *)
Definition NewTaskFromTask (t : Task) (options : list TaskOption) : Task :=
  let task := {| identifier := identifier t; name := name t; status := status t;
                 due := due t; scheduled := scheduled t;
                 completed := completed t; priority := priority t;
                 every := every t |} in
  fold_left (fun task option => apply option task) options task.

(** The accessors copy what they return; on values that is the field. *)
Definition Line (t : Task) : Z := line (identifier t).
Definition Path (t : Task) : string := path (identifier t).
Definition Version (t : Task) : string := version (identifier t).
Definition Due (t : Task) : option time.Time := due t.
Definition Scheduled (t : Task) : option time.Time := scheduled t.
Definition Completed (t : Task) : option time.Time := completed t.
Definition Priority (t : Task) : option Z := priority t.

(** [%v] of an [int]. *)
Definition formatInt (z : Z) : string := NilZero.string_of_int (Z.to_int z).

(** [Task.String]. *)
Definition Task_String (t : Task) : string :=
  let res := "- [" ++ statusText (status t) ++ "] " ++ name t in
  let res := match due t with
             | Some d => res ++ " due:" ++ time.Format d
             | None => res
             end in
  let res := match scheduled t with
             | Some d => res ++ " scheduled:" ++ time.Format d
             | None => res
             end in
  let res := match priority t with
             | Some p => res ++ " priority:" ++ formatInt p
             | None => res
             end in
  let res := match every t with
             | Some e => res ++ " every:" ++ Text e
             | None => res
             end in
  let res := match completed t with
             | Some d => res ++ " completed:" ++ time.Format d
             | None => res
             end in
  res.

End ast.

(** ** pkg/providers/tasks: parse.go

    [parse.go] builds its tasks with [NewTask], [NewIdentifier] and the
    [With...] options; the task entity it builds is the one of [ast]. *)
Module tasks.
Import parsers ast.

(** [statusLookup], indexed by the rune [statusParser] has just read, one of
    " xX/bBaA". *)
Definition statusLookup (s : string) : Status :=
  if String.eqb s " " then Todo
  else if String.eqb s "x" || String.eqb s "X" then Done
  else if String.eqb s "/" then Doing
  else if String.eqb s "b" || String.eqb s "B" then Blocked
  else Abandoned.

Definition StatusRuneLookup (s : Status) : ascii :=
  match s with
  | Todo => " " | Blocked => "b" | Doing => "/" | Done => "x" | Abandoned => "a"
  end%char.

Definition statusParser : Parser Status :=
  (* Read the open bracket *)
  let! _ := Rune "[" in
  (* Read the status rune *)
  let! s := RuneIn " xX/bBaA" in
  (* Read the close bracket *)
  let! _ := Rune "]" in
  (* Eat the trailing space *)
  let! _ := Rune " " in
  ret (statusLookup s).

Definition listItemOpen : Parser string :=
  StringFrom (let! _ := RemainingInlineWhitespace in
              let! _ := Rune "-" in
              RemainingInlineWhitespace).

Definition dueKeyLong := String_ "due:".
Definition dueKeyShort := String_ "d:".
Definition dueKey := Any [dueKeyLong; dueKeyShort].

Definition scheduledKeyLong := String_ "scheduled:".
Definition scheduledKeyShort := String_ "s:".
Definition scheduledKey := Any [scheduledKeyLong; scheduledKeyShort].

Definition completedKey := Any [String_ "completed:"].

Definition everyKeyLong := String_ "every:".
Definition everyKeyShort := String_ "e:".
Definition everyKey := Any [everyKeyLong; everyKeyShort].

Definition priorityKeyLong := String_ "priority:".
Definition priorityKeyShort := String_ "p:".
Definition priorityKey := Any [priorityKeyLong; priorityKeyShort].

Definition anyFieldKey :=
  Any [dueKey; scheduledKey; everyKey; priorityKey; completedKey].

(** The block every field parser with a short key repeats:

    "Ensure short key is not the end of a longer key.  Basically it either
    must be the start of the input or preceeded by a space."

    A rejected key returns with the cursor left where [Seek(curr - 3)] put
    it. *)
Definition shortKeyGuard (shortOk : bool) : Parser unit := fun inp =>
  if shortOk then
    let curr := Index inp in
    let '(sought, inp1) := Seek (Z.of_nat curr - 3) inp in
    let isStart := negb sought in
    let start := fst (Peek 1 inp1) in
    if negb isStart && negb (String.eqb start " ") then (NoMatch, inp1)
    else (Match tt, snd (Seek (Z.of_nat curr) inp1))
  else (Match tt, inp).

Definition dueParser : Parser time.Time :=
  dump! InlineWhitespaceRunes in   (* dump any leading whitespace *)
  let? longOk := dueKeyLong in
  let? shortOk := dueKeyShort in
  let! _ := shortKeyGuard (isOk shortOk) in
  if negb (isOk longOk) && negb (isOk shortOk)
  then noMatch
  else YearMonthDay.

Definition scheduledParser : Parser time.Time :=
  dump! InlineWhitespaceRunes in   (* dump any leading whitespace *)
  let? longOk := scheduledKeyLong in
  let? shortOk := scheduledKeyShort in
  let! _ := shortKeyGuard (isOk shortOk) in
  if negb (isOk longOk) && negb (isOk shortOk)
  then noMatch
  else YearMonthDay.

Definition completedParser : Parser time.Time :=
  let! _ := completedKey in
  YearMonthDay.

Definition priorityParser : Parser Z :=
  dump! InlineWhitespaceRunes in   (* dump any leading whitespace *)
  let? longOk := priorityKeyLong in
  let? shortOk := priorityKeyShort in
  let! _ := shortKeyGuard (isOk shortOk) in
  if negb (isOk longOk) && negb (isOk shortOk)
  then noMatch
  else
    let! priority := StringFrom (AtLeast 1 ZeroToNine) in
    match Atoi priority with
    | (p, true) => ret p
    | (_, false) => fail InvalidPriority
    end.

Definition rruleDayOfWeek (d : time.Weekday) : rrule.Weekday :=
  match d with
  | time.Sunday => rrule.SU
  | time.Monday => rrule.MO
  | time.Tuesday => rrule.TU
  | time.Wednesday => rrule.WE
  | time.Thursday => rrule.TH
  | time.Friday => rrule.FR
  | time.Saturday => rrule.SA
  end.

(** The closure [buildResult], [start] being the index it captured when it
    was made; the calls that pass on an error are the [Error] branches of
    [let?]. *)
Definition buildResult (start : nat) (opts : rrule.ROption) : Parser Every :=
  fun inp =>
  match rrule.NewRRule opts with
  | None => (Error InvalidRRule, inp)
  | Some rr =>
      (* Get the text *)
      let end_ := Index inp in
      match Take (end_ - start) (snd (Seek (Z.of_nat start) inp)) with
      | ((text, true), inp') =>
          (Match {| RRule := rr; Text := TrimSpace text |}, inp')
      | (_, inp') => (Error TextNotStored, inp')
      end
  end.

Definition setFreq (f : rrule.Frequency) (o : rrule.ROption) : rrule.ROption :=
  {| rrule.Freq := f; rrule.Dtstart := rrule.Dtstart o;
     rrule.Interval := rrule.Interval o; rrule.Byweekday := rrule.Byweekday o;
     rrule.Bymonthday := rrule.Bymonthday o; rrule.Bymonth := rrule.Bymonth o |}.

Definition setInterval (n : Z) (o : rrule.ROption) : rrule.ROption :=
  {| rrule.Freq := rrule.Freq o; rrule.Dtstart := rrule.Dtstart o;
     rrule.Interval := n; rrule.Byweekday := rrule.Byweekday o;
     rrule.Bymonthday := rrule.Bymonthday o; rrule.Bymonth := rrule.Bymonth o |}.

Definition setByweekday (l : list rrule.Weekday) (o : rrule.ROption) : rrule.ROption :=
  {| rrule.Freq := rrule.Freq o; rrule.Dtstart := rrule.Dtstart o;
     rrule.Interval := rrule.Interval o; rrule.Byweekday := l;
     rrule.Bymonthday := rrule.Bymonthday o; rrule.Bymonth := rrule.Bymonth o |}.

Definition setBymonthday (l : list Z) (o : rrule.ROption) : rrule.ROption :=
  {| rrule.Freq := rrule.Freq o; rrule.Dtstart := rrule.Dtstart o;
     rrule.Interval := rrule.Interval o; rrule.Byweekday := rrule.Byweekday o;
     rrule.Bymonthday := l; rrule.Bymonth := rrule.Bymonth o |}.

Definition setBymonth (l : list Z) (o : rrule.ROption) : rrule.ROption :=
  {| rrule.Freq := rrule.Freq o; rrule.Dtstart := rrule.Dtstart o;
     rrule.Interval := rrule.Interval o; rrule.Byweekday := rrule.Byweekday o;
     rrule.Bymonthday := rrule.Bymonthday o; rrule.Bymonth := l |}.

(** The [switch single] of the single words; a word without a case leaves
    the options as they were. *)
Definition singleOpts (single : string) (o : rrule.ROption) : rrule.ROption :=
  if String.eqb single "day" then setFreq rrule.DAILY o
  else if String.eqb single "week" then setFreq rrule.WEEKLY o
  else if String.eqb single "month" then setFreq rrule.MONTHLY o
  else if String.eqb single "year" then setFreq rrule.YEARLY o
  else if String.eqb single "weekday" then
    setFreq rrule.WEEKLY
      (setByweekday [rrule.MO; rrule.TU; rrule.WE; rrule.TH; rrule.FR] o)
  else if String.eqb single "weekend" then
    setFreq rrule.WEEKLY (setByweekday [rrule.SA] o)
  else o.

(** The [switch unit] of "<number> <unit>". *)
Definition unitOpts (unit : string) (o : rrule.ROption) : rrule.ROption :=
  if String.eqb unit "day" || String.eqb unit "days" then setFreq rrule.DAILY o
  else if String.eqb unit "week" || String.eqb unit "weeks" then setFreq rrule.WEEKLY o
  else if String.eqb unit "month" || String.eqb unit "months" then setFreq rrule.MONTHLY o
  else if String.eqb unit "year" || String.eqb unit "years" then setFreq rrule.YEARLY o
  else o.

Definition optionalDelimiter : Parser (option string) := Optional (Rune " ").

(** "Keep reading input until we can't parse a month day or month." *)
Fixpoint monthScan (fuel : nat) (rruleOpts : rrule.ROption) (inp : Input)
  : result rrule.ROption * Input :=
  match fuel with
  | 0 => (Error OutOfFuel, inp)
  | S fuel' =>
      let inp1 := snd (optionalDelimiter inp) in
      match MonthDay inp1 with
      | (Error e, inp2) => (Error e, inp2)
      | (monthDay, inp2) =>
          let opts1 :=
            match monthDay with
            | Match d => setBymonthday (rrule.Bymonthday rruleOpts ++ [d]) rruleOpts
            | _ => rruleOpts
            end in
          let inp3 := snd (optionalDelimiter inp2) in
          match MonthOfYear inp3 with
          | (Error e, inp4) => (Error e, inp4)
          | (month, inp4) =>
              let opts2 :=
                match month with
                | Match m => setBymonth (rrule.Bymonth opts1 ++ [m]) opts1
                | _ => opts1
                end in
              match monthDay, month with
              | NoMatch, NoMatch => (Match opts2, inp4)
              | _, _ => monthScan fuel' opts2 inp4
              end
          end
      end
  end.

(** What [everyParser] does once it has read its key. *)
Definition everyRule (relativeTo : time.Time) : Parser Every := fun inp =>
  let rruleOpts :=
    {| rrule.Freq := rrule.YEARLY; rrule.Dtstart := relativeTo;
       rrule.Interval := 0; rrule.Byweekday := []; rrule.Bymonthday := [];
       rrule.Bymonth := [] |} in
  (* This closure keeps track of where we started so we can store the original text. *)
  let start := Index inp in
  (* There are a limited number of single words that can be used to describe
     the frequency.  Note that the order of these is important, as "week" is
     a prefix of "weekday" and "weekend". *)
  (let? single := Any [Day; String_ "weekend"; String_ "weekday"; Month; Year; Week] in
   match single with
   | Some single => buildResult start (singleOpts single rruleOpts)
   | None =>
   (* Every <day of week> or list of <day of week> *)
   let? daysOfWeek := DaysOfWeek in
   match daysOfWeek with
   | Some daysOfWeek =>
       buildResult start
         (setFreq rrule.WEEKLY
            (setByweekday (rrule.Byweekday rruleOpts ++ map rruleDayOfWeek daysOfWeek)
               rruleOpts))
   | None =>
   (* Every <number> <day/week/month/year> *)
   let? tuple := SequenceOf3 (StringFrom (AtLeast 1 ZeroToNine)) (String_ " ")
                   (Any [Day; Week; Month; Year]) in
   match tuple with
   | Some (n, _, unit) =>
       buildResult start (setInterval (fst (Atoi n)) (unitOpts unit rruleOpts))
   | None =>
   (* Some combination of month days and/or months *)
   let! rruleOpts := (fun inp => monthScan (budget inp) rruleOpts inp) in
   if (0 <? length (rrule.Bymonthday rruleOpts))%nat
      || (0 <? length (rrule.Bymonth rruleOpts))%nat
   then
     (* If there are no days set, default to the first of the month. *)
     if (length (rrule.Bymonthday rruleOpts) =? 0)%nat
     then buildResult start
            (setBymonthday (rrule.Bymonthday rruleOpts ++ [1%Z]) rruleOpts)
     else buildResult start rruleOpts
   else noMatch
   end end end) inp.

Definition everyParser (relativeTo : time.Time) : Parser Every :=
  dump! InlineWhitespaceRunes in   (* dump any leading inlineWhitespace *)
  let? longOk := everyKeyLong in
  let? shortOk := everyKeyShort in
  let! _ := shortKeyGuard (isOk shortOk) in
  if negb (isOk longOk) && negb (isOk shortOk)
  then noMatch
  else everyRule relativeTo.

(** The block [ParseTask] repeats for each field: scan from the cursor to
    the field's key or the end of the line, run the field's parser there if
    the scan stopped, and [in.Seek(start)]. *)
Definition field {T} (key : Parser string) (p : Parser T) (start : nat)
  : Parser (option T) :=
  let? ok := StringUntil (Any [key; NewLineOrEOF]) in
  let? value := (if isOk ok then p else noMatch) in
  fun inp => (Match value, snd (Seek (Z.of_nat start) inp)).

Definition opt {T} (f : T -> TaskOption) (v : option T) : list TaskOption :=
  match v with Some x => [f x] | None => [] end.

Definition ParseTask (path checksum : string) (relativeTo : time.Time)
  : Parser Task := fun inp =>
  (* Line is 1-indexed not 0-indexed *)
  let line := (Z.of_nat (PositionLine inp) + 1)%Z in
  ((* Read and dump the list item open *)
   let! _ := listItemOpen in
   (* Read the task status *)
   let! status := statusParser in
   (* Read until we hit a key, newline or eof to get the name. *)
   let! name := StringUntil (Any [anyFieldKey; NewLineOrEOF]) in
   let name := TrimSpace name in
   (* Parse the fields *)
   fun inp =>
   let start := Index inp in
   (let! due := field dueKey dueParser start in
    let! scheduled := field scheduledKey scheduledParser start in
    let! completed := field completedKey completedParser start in
    let! priority := field priorityKey priorityParser start in
    let! every := field everyKey (everyParser relativeTo) start in
    let taskOpts := (opt WithDue due ++ opt WithScheduled scheduled
                     ++ opt WithCompleted completed ++ opt WithPriority priority
                     ++ opt WithEvery every)%list in
    (* Consume to the next line or eof. *)
    dump! StringUntil NewLineOrEOF in
    dump! NewLineOrEOF in
    ret (NewTask (NewIdentifier path checksum line) name status taskOpts)) inp)
  inp.

(** *** filters.go *)

(** Following Go's time package, after and before are inclusive (include
    equal to). *)
Definition FilterByDueDate (after before : option time.Time) (t : Task) : bool :=
  match Due t with
  | None => false
  | Some due =>
      if match after with Some a => time.Before due a | None => false end
      then false
      else if match before with Some b => time.After due b | None => false end
      then false
      else true
  end.

Definition FilterByCompletedDate (after before : option time.Time) (t : Task) : bool :=
  match Completed t with
  | None => false
  | Some completed =>
      if match after with Some a => time.Before completed a | None => false end
      then false
      else if match before with Some b => time.After completed b | None => false end
      then false
      else true
  end.

(** Priorities are OR'd together because a task can't have multiple
    priorities. *)
Definition FilterByPriority (priority : list Z) (task : Task) : bool :=
  existsb (fun p => match Priority task with
                    | Some taskPriority => (taskPriority =? p)%Z
                    | None => false
                    end) priority.

(** Statuses are OR'd together because a task can only have one status.
    [Status] is a Go string type, [==] compares the strings. *)
Definition FilterByStatus (status : list Status) (task : Task) : bool :=
  existsb (fun s => String.eqb (statusText (ast.status task)) (statusText s)) status.

(** *** client.go, fetchers.go

    The read/write lock serialises the accesses; the model is the
    sequential one, one access at a time. *)
Record Client := { tasks : gmap string (gmap Z Task) }.

Definition NewClient : Client := {| tasks := ∅ |}.

Definition Summary (c : Client) : nat :=
  map_fold (fun _ doc tasks => tasks + size doc) 0 (tasks c).

(** Go ranges over a map in no fixed order; the order of [map_to_list]
    stands for whichever one it takes. *)
Definition FetchAllTasks (c : Client) : list Task :=
  map_to_list (tasks c) ≫= fun document => snd <$> map_to_list (snd document).

Definition FetchTasksForDocument (document : string) (c : Client) : list Task :=
  snd <$> map_to_list (default ∅ (tasks c !! document)).

(** *** The event handlers *)

Inductive Operation := Load | Change | Delete.

(** Modelled from the spec: the [reader.Event] struct is not among the
    sources; "{operation, key: path, document: {content, checksum,
    metadata}}", the metadata reduced to whether it carries the expected
    document-type marker. *)
Record Event := {
  Op : Operation;
  Key : string;
  Contents : string;
  Checksum : string;
  inScope : bool
}.

Definition atEOF (inp : Input) : bool := negb (snd (Peek 1 inp)).

(** Modelled from the spec: the loop of the tasks handler over a document
    is not among the sources; "re-parse the full content top-to-bottom into
    zero-or-more tasks", "parsing proceeds line-by-line": a line that is
    not a task, or fails as one, is stepped over. *)
Fixpoint parseDocument (fuel : nat) (path checksum : string) (now : time.Time)
    (bucket : gmap Z Task) (inp : Input) : gmap Z Task :=
  match fuel with
  | 0 => bucket
  | S fuel' =>
      if atEOF inp then bucket
      else
        match ParseTask path checksum now inp with
        | (Match task, inp') =>
            parseDocument fuel' path checksum now (<[Line task := task]> bucket) inp'
        | (_, _) =>
            let inp' := snd (NewLineOrEOF (snd (StringUntil NewLineOrEOF inp))) in
            parseDocument fuel' path checksum now bucket inp'
        end
  end.

(** Modelled from the spec: [handleChanges] of the tasks provider is not
    among the sources (the daily-notes provider's is); "if the event's
    document does not carry the expected document-type marker, ignore;
    otherwise ... replace the entire bucket for that path". *)
Definition handleChanges (now : time.Time) (event : Event) (c : Client)
  : bool * Client :=
  if negb (inScope event) then (false, c)
  else
    let inp := NewInput (Contents event) in
    (true,
     {| tasks := <[Key event :=
                     parseDocument (budget inp) (Key event) (Checksum event)
                                   now ∅ inp]> (tasks c) |}).

(** Modelled from the spec: the handlers of the tasks provider are not
    among the sources; they follow the daily-notes provider's, which are.
    Each returns the client and the domain events it published. *)
Definition onLoad (now : time.Time) (event : Event) (c : Client)
  : Client * list Operation :=
  let '(changed, c') := handleChanges now event c in
  (c', if changed then [Load] else []).

(** Modelled from the spec: see [onLoad]. *)
Definition onChange (now : time.Time) (event : Event) (c : Client)
  : Client * list Operation :=
  let '(changed, c') := handleChanges now event c in
  (c', if changed then [Change] else []).

(** Modelled from the spec: see [onLoad]; "remove the path's entire
    bucket; publish a Delete event". *)
Definition onDelete (event : Event) (c : Client) : Client * list Operation :=
  ({| tasks := delete (Key event) (tasks c) |}, [Delete]).

(** The watcher hands each event of the feed to the handler of its
    operation, in arrival order. *)
Definition handle (now : time.Time) (c : Client) (event : Event) : Client :=
  match Op event with
  | Load => fst (onLoad now event c)
  | Change => fst (onChange now event c)
  | Delete => fst (onDelete event c)
  end.

Definition feed (now : time.Time) (events : list Event) : Client :=
  fold_left (handle now) events NewClient.

End tasks.

(** ** The daily-notes provider: handlers and summary

    The [onLoad], [onChange], [onDelete] and [handleChanges] of the
    daily-notes provider and its [DailyNoteSummary].  The note type, its
    constructor and the document-type marker are declared elsewhere and are
    parameters here; the channel of the publisher is the list of the events
    sent on it, oldest first. *)
Module daily.

Inductive Operation := Load | Change | Delete.

(** What the handlers read of a [reader.Event]: [event.Key],
    [event.Document.Metadata.Type()] and [event.Document.Checksum]. *)
Record Event := { Key : string; Type_ : string; Checksum : string }.

Section Provider.

Variable Daily : Type.
(** [NewDaily(NewIdentifier(key, checksum))]. *)
Variable NewDaily : string -> string -> Daily.
Variable MetadataKey : string.

Record DailyClient := { notes : gmap string Daily; Events : list Operation }.

Definition publish (op : Operation) (c : DailyClient) : DailyClient :=
  {| notes := notes c; Events := Events c ++ [op] |}.

Definition handleChanges (event : Event) (c : DailyClient) : bool * DailyClient :=
  if negb (String.eqb (Type_ event) MetadataKey) then (false, c)
  else (true, {| notes := <[Key event := NewDaily (Key event) (Checksum event)]> (notes c);
                 Events := Events c |}).

Definition onLoad (event : Event) (c : DailyClient) : DailyClient :=
  let '(changed, c') := handleChanges event c in
  if changed then publish Load c' else c'.

Definition onChange (event : Event) (c : DailyClient) : DailyClient :=
  let '(changed, c') := handleChanges event c in
  if changed then publish Change c' else c'.

Definition onDelete (event : Event) (c : DailyClient) : DailyClient :=
  publish Delete {| notes := delete (Key event) (notes c); Events := Events c |}.

Definition DailyNoteSummary (c : DailyClient) : nat := size (notes c).

(** The watcher hands each event of the feed to the handler of its
    operation, in arrival order, starting from the empty client. *)
Definition handle (c : DailyClient) (event : Operation * Event) : DailyClient :=
  match fst event with
  | Load => onLoad (snd event) c
  | Change => onChange (snd event) c
  | Delete => onDelete (snd event) c
  end.

Definition run (feed : list (Operation * Event)) : DailyClient :=
  fold_left handle feed {| notes := ∅; Events := [] |}.

End Provider.

End daily.

(** ** The line-addressed mutation layer

    Only the tests of the writer ([TestLines_Basic], [TestLines_Empty],
    [TestLines_Frontmatter], [TestLines_StaleWrites]) are among the sources.
    Line numbers count from the top of the file, as the tests use them: the
    lines of the front matter have numbers, and addressing one is refused. *)
Module writer.

Inductive Position := AT_BEGINNING | AT_END | Line (number : Z).

Inductive Mutation := Add | Update | Remove.

Inductive Failure :=
| StaleVersion
| OutOfRange
| FrontmatterProtected
| NotALineNumber.   (* "Must provide an absolute line number" *)

(** Modelled from the spec: the file the writer rewrites is not among the
    sources; a "non-addressable structural preamble (front matter)"
    followed by the addressable lines. *)
Record File := { preamble : list string; body : list string }.

Definition isSentinel (position : Position) : bool :=
  match position with Line _ => false | _ => true end.

Section Mutation.

(** The content fingerprint of the document layer: "an opaque content
    fingerprint (e.g., a checksum)". *)
Variable checksum : File -> string.

(** Modelled from the spec: the version check of the writer is not among
    the sources; "compare to expectedVersion; mismatch -> fails";
    "supplying an empty/unset expectedVersion skips this check but only
    for BEGINNING/END operations; any operation addressed to a specific
    line number always requires a valid, matching version even if an
    empty version is supplied (fail closed)". *)
Definition versionOk (expectedVersion : string) (position : Position)
    (current : File) : bool :=
  if String.eqb expectedVersion ""
  then isSentinel position
  else String.eqb expectedVersion (checksum current).

Definition first (f : File) : Z := Z.of_nat (length (preamble f)) + 1.
Definition last (f : File) : Z :=
  Z.of_nat (length (preamble f)) + Z.of_nat (length (body f)).

(** Where a line number falls: before the file, in the front matter, in
    the addressable range (with its index into the body), or past it. *)
Inductive Place := Before | Frontmatter | Addressable (index : nat) | Past.

Definition place (f : File) (number : Z) : Place :=
  if (number <? 1)%Z then Before
  else if (number <? first f)%Z then Frontmatter
  else if (number <=? last f)%Z then Addressable (Z.to_nat (number - first f))
  else Past.

Definition withBody (f : File) (lines : list string) : File :=
  {| preamble := preamble f; body := lines |}.

(** Modelled from the spec: the rewriting of the lines is not among the
    sources; "BEGINNING always resolves to first line after the
    preamble"; "Update/Remove on a line number outside the current
    addressable range -> out-of-range error"; "Add on a line number past
    the end of the addressable range does not error; it clamps to append
    at the end (same effect as END)"; "any line-numbered operation
    targeting preamble lines fails regardless of op type". *)
Definition rewrite (op : Mutation) (position : Position) (payload : string)
    (f : File) : Failure + File :=
  match op, position with
  | Add, AT_BEGINNING => inr (withBody f (payload :: body f))
  | Add, AT_END => inr (withBody f (body f ++ [payload]))
  | Add, Line n =>
      match place f n with
      | Before => inl OutOfRange
      | Frontmatter => inl FrontmatterProtected
      | Addressable i => inr (withBody f (take i (body f) ++ payload :: drop i (body f)))
      | Past => inr (withBody f (body f ++ [payload]))
      end
  | Update, Line n =>
      match place f n with
      | Addressable i => inr (withBody f (<[i := payload]> (body f)))
      | Frontmatter => inl FrontmatterProtected
      | _ => inl OutOfRange
      end
  | Remove, Line n =>
      match place f n with
      | Addressable i => inr (withBody f (delete i (body f)))
      | Frontmatter => inl FrontmatterProtected
      | _ => inl OutOfRange
      end
  | _, _ => inl NotALineNumber
  end.

(** Modelled from the spec: [Mutate] (the writer's [AddLine],
    [UpdateLine], [RemoveLine]) is not among the sources;
    "Mutate(documentRef{path, expectedVersion}, op, position, payload)
    -> error".  The result is the error, if any, and the file on disk
    afterwards. *)
Definition Mutate (expectedVersion : string) (op : Mutation) (position : Position)
    (payload : string) (disk : File) : option Failure * File :=
  if versionOk expectedVersion position disk then
    match rewrite op position payload disk with
    | inr f => (None, f)
    | inl e => (Some e, disk)
    end
  else (Some StaleVersion, disk).

End Mutation.

End writer.

(** * Vocabulary of the properties *)

(** A field of the canonical line: its key and value, or nothing when the
    field is unset. *)
Definition segment (key : string) (value : option string) : string :=
  match value with Some v => key ++ v | None => "" end.

(** The canonical line in the words of the specification: "status, name,
    due, scheduled, priority, every, completed". *)
Definition canonicalLine (t : ast.Task) : string :=
  "- [" ++ ast.statusText (ast.status t) ++ "] " ++ ast.name t
  ++ segment " due:" (option_map time.Format (ast.due t))
  ++ segment " scheduled:" (option_map time.Format (ast.scheduled t))
  ++ segment " priority:" (option_map ast.formatInt (ast.priority t))
  ++ segment " every:" (option_map ast.Text (ast.every t))
  ++ segment " completed:" (option_map time.Format (ast.completed t)).

(** The field an option assigns. *)
Definition kind (o : ast.TaskOption) : nat :=
  match o with
  | ast.WithLine _ => 0 | ast.WithName _ => 1 | ast.WithStatus _ => 2
  | ast.WithDue _ => 3 | ast.WithScheduled _ => 4 | ast.WithCompleted _ => 5
  | ast.WithPriority _ => 6 | ast.WithEvery _ => 7
  end.

(** The options of a recurrence anchored at [relativeTo]. *)
Definition rule (relativeTo : time.Time) (freq : rrule.Frequency) (interval : Z)
    (byweekday : list rrule.Weekday) (bymonthday bymonth : list Z)
  : rrule.ROption :=
  {| rrule.Freq := freq; rrule.Dtstart := relativeTo; rrule.Interval := interval;
     rrule.Byweekday := byweekday; rrule.Bymonthday := bymonthday;
     rrule.Bymonth := bymonth |}.

(** What [everyParser] reads from a whole input, cursor at its start. *)
Definition everyOf (relativeTo : time.Time) (text : string) : result ast.Every :=
  fst (tasks.everyParser relativeTo (NewInput text)).

(** [ParseTask] on a whole input, cursor at its start. *)
Definition parseLine (path checksum : string) (relativeTo : time.Time)
    (text : string) : result ast.Task :=
  fst (tasks.ParseTask path checksum relativeTo (NewInput text)).

(** The byte under the cursor, if the input has not ended. *)
Definition nextByte (inp : Input) : option ascii :=
  String.get (charIndex inp) (str inp).

(** The byte just before the cursor is a space, or the cursor is at the
    start of the input. *)
Definition afterSpaceOrStart (inp : Input) : bool :=
  match charIndex inp with
  | 0 => true
  | S i => match String.get i (str inp) with
           | Some c => Ascii.eqb c " "
           | None => false
           end
  end.

(** The result of a parser without its value. *)
Definition outcome {T} (r : result T * Input) : result unit :=
  match fst r with
  | Match _ => Match tt
  | NoMatch => NoMatch
  | Error e => Error e
  end.

(** The shape the four field parsers with a short key share. *)
Definition keyed {T} (long short : string) (value : Parser T) : Parser T :=
  dump! parsers.InlineWhitespaceRunes in
  let? longOk := String_ long in
  let? shortOk := String_ short in
  let! _ := tasks.shortKeyGuard (isOk shortOk) in
  if negb (isOk longOk) && negb (isOk shortOk) then noMatch else value.

(** The value clause of [priorityParser]. *)
Definition priorityValue : Parser Z :=
  let! priority := StringFrom (AtLeast 1 ZeroToNine) in
  match Atoi priority with
  | (p, true) => ret p
  | (_, false) => fail InvalidPriority
  end.

(** The fields that have a short key. *)
Inductive ShortField := DueField | ScheduledField | PriorityField | EveryField.

Definition longKey (f : ShortField) : string :=
  match f with
  | DueField => "due:" | ScheduledField => "scheduled:"
  | PriorityField => "priority:" | EveryField => "every:"
  end.

Definition shortKey (f : ShortField) : string :=
  match f with
  | DueField => "d:" | ScheduledField => "s:"
  | PriorityField => "p:" | EveryField => "e:"
  end.

Definition fieldOutcome (relativeTo : time.Time) (f : ShortField) (inp : Input)
  : result unit :=
  match f with
  | DueField => outcome (tasks.dueParser inp)
  | ScheduledField => outcome (tasks.scheduledParser inp)
  | PriorityField => outcome (tasks.priorityParser inp)
  | EveryField => outcome (tasks.everyParser relativeTo inp)
  end.

Definition valueOutcome (relativeTo : time.Time) (f : ShortField) (inp : Input)
  : result unit :=
  match f with
  | DueField | ScheduledField => outcome (parsers.YearMonthDay inp)
  | PriorityField => outcome (priorityValue inp)
  | EveryField => outcome (tasks.everyRule relativeTo inp)
  end.

(** Where a field parser looks for its short key: behind the leading
    whitespace and behind the long key, if that is there. *)
Definition keyCursor (long : string) (inp : Input) : Input :=
  snd (String_ long (snd (parsers.InlineWhitespaceRunes inp))).

(** The byte under the cursor is a decimal digit. *)
Definition nextIsDigit (inp : Input) : bool :=
  match nextByte inp with Some c => isDigit c | None => false end.

(** Where [priorityParser] looks for the digits: behind the leading
    whitespace and the key. *)
Definition priorityValueCursor (inp : Input) : Input :=
  snd (String_ "p:" (keyCursor "priority:" inp)).

(** The cursor lies within the input, as after [NewInput], [Seek], [Take]. *)
Definition within (inp : Input) : Prop :=
  charIndex inp <= String.length (str inp).

(** [inp'] is [inp] with the cursor moved on by at least [n] bytes. *)
Definition ahead (n : nat) (inp inp' : Input) : Prop :=
  str inp' = str inp /\ charIndex inp + n <= charIndex inp' /\ within inp'.

(** The options [everyRule] starts from. *)
Definition noOptions (relativeTo : time.Time) : rrule.ROption :=
  rule relativeTo rrule.YEARLY 0 [] [] [].

(** The text between two cursors, as [buildResult] stores it. *)
Definition textBetween (inp inp' : Input) : string :=
  TrimSpace (substring (charIndex inp) (charIndex inp' - charIndex inp) (str inp)).

(** "If there are no days set, default to the first of the month." *)
Definition firstOfMonthByDefault (o : rrule.ROption) : rrule.ROption :=
  match rrule.Bymonthday o with
  | [] => tasks.setBymonthday [1%Z] o
  | _ => o
  end.

(** [o'] is [o] with month days (1 to 31) and months (1 to 12) added at
    the end of its lists, and nothing else changed. *)
Definition scanned (o o' : rrule.ROption) : Prop :=
  rrule.Freq o' = rrule.Freq o /\ rrule.Dtstart o' = rrule.Dtstart o
  /\ rrule.Interval o' = rrule.Interval o
  /\ rrule.Byweekday o' = rrule.Byweekday o
  /\ (exists ds, rrule.Bymonthday o' = (rrule.Bymonthday o ++ ds)%list
                 /\ Forall (fun d => 1 <= d <= 31)%Z ds)
  /\ (exists ms, rrule.Bymonth o' = (rrule.Bymonth o ++ ms)%list
                 /\ Forall (fun m => 1 <= m <= 12)%Z ms).

(** The alternatives [everyRule] tries before the month scan. *)
Definition singleWord : Parser string :=
  Any [parsers.Day; String_ "weekend"; String_ "weekday"; parsers.Month;
       parsers.Year; parsers.Week].

Definition numberAndUnit : Parser (string * string * string) :=
  SequenceOf3 (StringFrom (AtLeast 1 ZeroToNine)) (String_ " ")
              (Any [parsers.Day; parsers.Week; parsers.Month; parsers.Year]).


(** A parser moves the cursor and nothing else. *)
Definition steady {T} (p : Parser T) : Prop :=
  forall inp, str (snd (p inp)) = str inp.

(** The address a task lists under. *)
Definition address (t : ast.Task) : string * Z := (ast.Path t, ast.Line t).

(** Every task of the index sits in the bucket of its own path, at its own
    line. *)
Definition indexed (c : tasks.Client) : Prop :=
  forall p b l t, tasks.tasks c !! p = Some b -> b !! l = Some t ->
                  ast.Path t = p /\ ast.Line t = l.

(** A fingerprint for the examples: the lines of the file, one after the
    other. *)
Definition linesChecksum (f : writer.File) : string :=
  String.concat (str1 LF) (writer.preamble f ++ writer.body f).

(** Every error a parser returns satisfies [P]. *)
Definition raises {T} (P : error -> Prop) (p : Parser T) : Prop :=
  forall inp e inp', p inp = (Error e, inp') -> P e.

(** Any error but the priority error. *)
Definition notPriority (e : error) : Prop := e <> InvalidPriority.

(** Two tasks agree on the field options of kind [k] assign. *)
Definition fieldEq (k : nat) (t t' : ast.Task) : Prop :=
  match k with
  | 0 => ast.line (ast.identifier t') = ast.line (ast.identifier t)
  | 1 => ast.name t' = ast.name t
  | 2 => ast.status t' = ast.status t
  | 3 => ast.due t' = ast.due t
  | 4 => ast.scheduled t' = ast.scheduled t
  | 5 => ast.completed t' = ast.completed t
  | 6 => ast.priority t' = ast.priority t
  | 7 => ast.every t' = ast.every t
  | _ => True
  end.

(** [t'] is [t] but for the fields of the kinds [ks]; path and version are
    the same in any case. *)
Definition sameExcept (ks : list nat) (t t' : ast.Task) : Prop :=
  ast.path (ast.identifier t') = ast.path (ast.identifier t)
  /\ ast.version (ast.identifier t') = ast.version (ast.identifier t)
  /\ forall k, k ∉ ks -> fieldEq k t t'.

(** [t] is not later than [u]: Go's [!u.Before(t)]. *)
Definition notAfter (t u : time.Time) : bool := negb (time.Before u t).

(** An event of the daily-notes feed carries the document-type marker. *)
Definition carriesMarker (MetadataKey : string) (event : daily.Event) : bool :=
  String.eqb (daily.Type_ event) MetadataKey.

(** The note a feed leaves for the path [k], told from the events for [k]
    alone: the last load or change of a document with the marker, unless a
    delete came after it. *)
Definition stored {Daily} (NewDaily : string -> string -> Daily)
    (MetadataKey k : string) (feed : list (daily.Operation * daily.Event))
  : option Daily :=
  fold_left (fun note event =>
               if String.eqb (daily.Key (snd event)) k then
                 match fst event with
                 | daily.Delete => None
                 | _ => if carriesMarker MetadataKey (snd event)
                        then Some (NewDaily k (daily.Checksum (snd event)))
                        else note
                 end
               else note) feed None.

(** The domain event a feed event is answered with, if any. *)
Definition announced (MetadataKey : string)
    (event : daily.Operation * daily.Event) : option daily.Operation :=
  match fst event with
  | daily.Delete => Some daily.Delete
  | op => if carriesMarker MetadataKey (snd event) then Some op else None
  end.

(** The two date filters and the dates they look at. *)
Inductive DateField := DueDate | CompletedDate.

Definition dateOf (f : DateField) (t : ast.Task) : option time.Time :=
  match f with DueDate => ast.Due t | CompletedDate => ast.Completed t end.

Definition dateFilter (f : DateField)
  : option time.Time -> option time.Time -> ast.Task -> bool :=
  match f with
  | DueDate => tasks.FilterByDueDate
  | CompletedDate => tasks.FilterByCompletedDate
  end.

(** A feed event stores a note: a load or change of a document with the
    marker. *)
Definition stores (MetadataKey : string)
    (event : daily.Operation * daily.Event) : bool :=
  match fst event with
  | daily.Delete => false
  | _ => carriesMarker MetadataKey (snd event)
  end.

(** 1 if the client holds a note for the path, else 0. *)
Definition held {Daily} (c : daily.DailyClient Daily) (k : string) : nat :=
  match daily.notes Daily c !! k with Some _ => 1 | None => 0 end.

(** The input from byte [n] on, and its first [k] bytes. *)
Fixpoint dropS (n : nat) (s : string) : string :=
  match n, s with
  | S n', String _ s' => dropS n' s'
  | _, _ => s
  end.

Fixpoint takeS (k : nat) (s : string) : string :=
  match k, s with
  | S k', String c s' => String c (takeS k' s')
  | _, _ => ""
  end.

(** What is left of the input at the cursor. *)
Definition remaining (inp : Input) : string := dropS (charIndex inp) (str inp).

(** One of the literals starts the text. *)
Definition literalAt (ms : list string) (r : string) : bool :=
  existsb (fun m => String.prefix m r) ms.

(** The text is at a line terminator or at its end. *)
Definition lineEnd (r : string) : bool :=
  String.prefix (String CR (String LF "")) r || String.prefix (str1 LF) r
  || String.eqb r "".

(** The bytes a scan goes over before [stop] holds of what is left. *)
Fixpoint scanWith (stop : string -> bool) (r : string) : nat :=
  if stop r then 0
  else match r with
       | "" => 0
       | String _ r' => S (scanWith stop r')
       end.

(** A delimiter that matches exactly where [stop] holds of what is left,
    and otherwise leaves the cursor alone. *)
Definition decides {T} (d : Parser T) (stop : string -> bool) : Prop :=
  forall inp, within inp ->
    if stop (remaining inp)
    then exists x inp', d inp = (Match x, inp') /\ str inp' = str inp
    else d inp = (NoMatch, inp).

(** The longest run of bytes satisfying [f] at the start of a text. *)
Fixpoint run (f : ascii -> bool) (r : string) : string :=
  match r with
  | String c r' => if f c then String c (run f r') else ""
  | "" => ""
  end.

(** A scan for a field stops where one of the spellings of its key starts,
    or where the line ends. *)
Definition keyStop (ms : list string) (r : string) : bool :=
  literalAt ms r || lineEnd r.

(** Where the scan from the cursor [c] stops. *)
Definition keyFound (ms : list string) (c : Input) : Input :=
  at_ (charIndex c + scanWith (keyStop ms) (remaining c)) c.

(** The value a parser matched, if it matched. *)
Definition valueOf {T} (r : result T) : option T :=
  match r with Match x => Some x | _ => None end.

(** Every spelling of every field key. *)
Definition fieldKeys : list string :=
  ["due:"; "d:"; "scheduled:"; "s:"; "every:"; "e:"; "priority:"; "p:";
   "completed:"].

(** Where [ParseTask] starts reading the name: behind the list marker and
    the status. *)
Definition nameCursor (inp : Input) : Input :=
  snd (tasks.statusParser (snd (tasks.listItemOpen inp))).

(** Where [ParseTask] reads the fields from: behind the name, at the first
    key of the line or at its end. *)
Definition fieldsCursor (inp : Input) : Input :=
  keyFound fieldKeys (nameCursor inp).

(** A parser that never fails: inside the input it matches, the cursor
    moving forward or staying, or it leaves the cursor alone. *)
Definition advances {T} (p : Parser T) : Prop :=
  forall inp, within inp ->
    (exists x inp', p inp = (Match x, inp') /\ ahead 0 inp inp')
    \/ p inp = (NoMatch, inp).

(** Every error of [p] inside the input satisfies [P]. *)
Definition fails {T} (P : error -> Prop) (p : Parser T) : Prop :=
  forall inp e inp', within inp -> p inp = (Error e, inp') -> P e.

(** No line ends within the first [n] bytes of the text. *)
Definition plain (n : nat) (r : string) : Prop :=
  forall j, j < n -> lineEnd (dropS j r) = false.

(** [inp'] is [inp] with the cursor moved on, inside the input and without
    crossing the end of a line. *)
Definition reach (inp inp' : Input) : Prop :=
  exists n, inp' = at_ (charIndex inp + n) inp /\ plain n (remaining inp)
            /\ within inp'.

(** The length of the line terminator the text starts with, if any. *)
Definition terminator (r : string) : nat :=
  if String.prefix (String CR (String LF "")) r then 2
  else if String.prefix (str1 LF) r then 1 else 0.

(** The length of the first line of the text, terminator included. *)
Definition lineLength (r : string) : nat :=
  scanWith lineEnd r + terminator (dropS (scanWith lineEnd r) r).

(** The line opens as a task: the list marker and the status marker are
    there. *)
Definition opensAsTask (inp : Input) : Prop :=
  (exists m, fst (tasks.listItemOpen inp) = Match m)
  /\ exists status,
       fst (tasks.statusParser (snd (tasks.listItemOpen inp))) = Match status.

(** Where [ParseTask] runs [priorityParser] on a line: where the scan for
    the priority key, from the end of the name, stops. *)
Definition priorityCursor (line : Input) : Input :=
  keyFound ["priority:"; "p:"] (fieldsCursor line).

(** * Properties *)

Import tasks ast.

(** ** Filters *)

(** C10: a task without a due date is rejected by [FilterByDueDate] whatever
    the bounds are, both bounds nil included, and a task without a completed
    date by [FilterByCompletedDate]; with both bounds nil the filters keep
    exactly the tasks that have the date, so they are no identity. *)
Theorem date_filters_drop_undated
    (after before : option time.Time) (id : Identifier) (n : string)
    (s : Status) (d1 d2 : option time.Time) (p : option Z) (e : option Every)
    (t : Task) :
  FilterByDueDate after before
    {| identifier := id; name := n; status := s; due := None; scheduled := d1;
       completed := d2; priority := p; every := e |} = false
  /\ FilterByCompletedDate after before
       {| identifier := id; name := n; status := s; due := d1; scheduled := d2;
          completed := None; priority := p; every := e |} = false
  /\ FilterByDueDate None None t = isOk (Due t)
  /\ FilterByCompletedDate None None t = isOk (Completed t).
Proof.
  unfold FilterByDueDate, FilterByCompletedDate.
  split; [reflexivity | split; [reflexivity | split]].
  - destruct (Due t); reflexivity.
  - destruct (Completed t); reflexivity.
Qed.

(** ** Strings *)

Lemma append_cons (x : ascii) (a b : string) :
  String x a ++ b = String x (a ++ b).
Proof. reflexivity. Qed.

Lemma append_nil_l (a : string) : "" ++ a = a.
Proof. reflexivity. Qed.

Lemma append_assoc (a b c : string) : (a ++ b) ++ c = a ++ (b ++ c).
Proof.
  induction a as [|x a IH]; [reflexivity|].
  now rewrite !append_cons, IH.
Qed.

Lemma append_nil_r (a : string) : a ++ "" = a.
Proof.
  induction a as [|x a IH]; [reflexivity|].
  now rewrite append_cons, IH.
Qed.

Lemma length_append (a b : string) :
  String.length (a ++ b) = String.length a + String.length b.
Proof.
  induction a as [|x a IH]; [reflexivity|].
  rewrite append_cons. simpl. now rewrite IH.
Qed.

(** ** The canonical line *)

Lemma apply_comm (a b : TaskOption) (t : Task) :
  kind a <> kind b -> apply a (apply b t) = apply b (apply a t).
Proof. destruct a, b; simpl; intros H; try reflexivity; now elim H. Qed.

Lemma options_order_irrelevant (opts opts' : list TaskOption) :
  Permutation opts opts' -> NoDup (map kind opts) ->
  forall t, fold_left (fun task option => apply option task) opts t
          = fold_left (fun task option => apply option task) opts' t.
Proof.
  induction 1 as [|x l l' HP IH|x y l|l l' l'' HP1 IH1 HP2 IH2];
    intros HN t; simpl.
  - reflexivity.
  - apply IH. now inversion HN.
  - rewrite apply_comm; [reflexivity|].
    inversion HN as [|? ? Hx _]; subst. intros E. apply Hx. rewrite E. left.
  - rewrite IH1 by assumption. apply IH2.
    now rewrite <- (Permutation_map kind HP1).
Qed.

(** C7: [Task.String] is the status, the name, then due, scheduled,
    priority, every and completed in that order, an unset field adding
    nothing; and the line does not depend on the order in which the fields
    were read, that is on the order of the options the task was built from. *)
Theorem task_string_fixed_order (t : Task) (id : Identifier) (n : string)
    (s : Status) (opts opts' : list TaskOption) :
  Permutation opts opts' -> NoDup (map kind opts) ->
  Task_String t = canonicalLine t
  /\ Task_String (NewTask id n s opts) = Task_String (NewTask id n s opts').
Proof.
  intros HP HN. split.
  - unfold Task_String, canonicalLine, segment.
    destruct (due t), (scheduled t), (priority t), (every t), (completed t);
      simpl; rewrite ?append_assoc, ?append_nil_r; reflexivity.
  - unfold NewTask. now rewrite (options_order_irrelevant opts opts' HP HN).
Qed.

Lemma task_string_fixed_order_witness :
  Task_String (NewTask (NewIdentifier "a.md" "v" 1) "water plants" Doing
                 [WithCompleted (time.Date 2024 3 1); WithPriority 2;
                  WithDue (time.Date 2024 2 29)])
  = "- [/] water plants due:2024-02-29 priority:2 completed:2024-03-01"
  /\ Task_String (NewTask (NewIdentifier "a.md" "v" 1) "water plants" Doing
                    [WithCompleted (time.Date 2024 3 1); WithPriority 2;
                     WithDue (time.Date 2024 2 29)])
     = Task_String (NewTask (NewIdentifier "a.md" "v" 1) "water plants" Doing
                      [WithDue (time.Date 2024 2 29); WithPriority 2;
                       WithCompleted (time.Date 2024 3 1)]).
Proof.
  split; [reflexivity|].
  refine (proj2 (task_string_fixed_order
            (NewTask (NewIdentifier "a.md" "v" 1) "water plants" Doing [])
            _ _ _ _ _ _ _)).
  - apply perm_trans with
      [WithPriority 2; WithCompleted (time.Date 2024 3 1); WithDue (time.Date 2024 2 29)].
    + apply perm_swap.
    + apply perm_trans with
        [WithPriority 2; WithDue (time.Date 2024 2 29); WithCompleted (time.Date 2024 3 1)].
      * apply perm_skip, perm_swap.
      * apply perm_swap.
  - simpl. repeat (apply NoDup_cons_2; [rewrite ?elem_of_cons, elem_of_nil; lia|]).
    apply NoDup_nil_2.
Defined.

(** ** Recurrences *)

(** C5: after either spelling of the key, the single word "weekend" gives a
    weekly recurrence on Saturday alone, "weekday" a weekly one on Monday to
    Friday, and "day", "week", "month", "year" the daily, weekly, monthly and
    yearly recurrence with no weekday set; the word itself is kept as the
    text. *)
Theorem single_word_recurrence (relativeTo : time.Time) :
  let every freq byweekday text :=
    Match {| RRule := rule relativeTo freq 0 byweekday [] []; Text := text |} in
  everyOf relativeTo "every:weekend" = every rrule.WEEKLY [rrule.SA] "weekend"
  /\ everyOf relativeTo "every:weekday"
     = every rrule.WEEKLY [rrule.MO; rrule.TU; rrule.WE; rrule.TH; rrule.FR] "weekday"
  /\ everyOf relativeTo "every:day" = every rrule.DAILY [] "day"
  /\ everyOf relativeTo "every:week" = every rrule.WEEKLY [] "week"
  /\ everyOf relativeTo "every:month" = every rrule.MONTHLY [] "month"
  /\ everyOf relativeTo "every:year" = every rrule.YEARLY [] "year"
  /\ everyOf relativeTo "e:weekend" = every rrule.WEEKLY [rrule.SA] "weekend"
  /\ everyOf relativeTo "e:weekday"
     = every rrule.WEEKLY [rrule.MO; rrule.TU; rrule.WE; rrule.TH; rrule.FR] "weekday"
  /\ everyOf relativeTo "e:day" = every rrule.DAILY [] "day"
  /\ everyOf relativeTo "e:week" = every rrule.WEEKLY [] "week"
  /\ everyOf relativeTo "e:month" = every rrule.MONTHLY [] "month"
  /\ everyOf relativeTo "e:year" = every rrule.YEARLY [] "year".
Proof. cbv zeta. repeat split; vm_compute; reflexivity. Qed.

(** ** The combinators *)

Lemma substring_one (s : string) (n : nat) :
  substring n 1 s = match String.get n s with Some c => str1 c | None => "" end.
Proof.
  revert n. induction s as [|x s IH]; intros [|n]; simpl; try reflexivity.
  - now destruct s.
  - apply IH.
Qed.

Lemma get_Some_lt (s : string) (n : nat) :
  n < String.length s <-> exists c, String.get n s = Some c.
Proof.
  revert n. induction s as [|x s IH]; intros [|n]; simpl.
  - split; [lia | intros [c H]; discriminate].
  - split; [lia | intros [c H]; discriminate].
  - split; [eauto | lia].
  - rewrite <- IH. lia.
Qed.

Lemma get_None_ge (s : string) (n : nat) :
  String.length s <= n <-> String.get n s = None.
Proof.
  destruct (String.get n s) as [c|] eqn:E.
  - assert (n < String.length s) by (apply get_Some_lt; eauto).
    split; [lia | discriminate].
  - split; [reflexivity | intros _].
    destruct (Nat.lt_ge_cases n (String.length s)) as [H|H]; [|exact H].
    apply get_Some_lt in H as [c H]. congruence.
Qed.

Lemma length_substring (s : string) (n m : nat) :
  n + m <= String.length s -> String.length (substring n m s) = m.
Proof.
  revert n m. induction s as [|x s IH]; intros [|n] [|m]; simpl; intros H;
    try reflexivity; try lia.
  - rewrite IH; [reflexivity | lia].
  - apply IH. lia.
  - apply IH. lia.
Qed.

(** [Peek] and [Take] read the same bytes; [Take] moves the cursor. *)
Lemma Take_Peek (n : nat) (inp : Input) :
  fst (Take n inp) = Peek n inp
  /\ snd (Take n inp)
     = if snd (Peek n inp) then at_ (charIndex inp + n) inp else inp.
Proof.
  unfold Take, Peek.
  destruct (String.length (str inp) <? charIndex inp + n)%nat; split; reflexivity.
Qed.

Lemma Peek_one (inp : Input) :
  Peek 1 inp = match nextByte inp with
               | Some c => (str1 c, true)
               | None => ("", false)
               end.
Proof.
  unfold Peek, nextByte. rewrite substring_one.
  destruct (String.get (charIndex inp) (str inp)) as [c|] eqn:E.
  - assert (charIndex inp < String.length (str inp)) as H
      by (apply get_Some_lt; eauto).
    destruct (Nat.ltb_spec (String.length (str inp)) (charIndex inp + 1));
      [lia | reflexivity].
  - apply get_None_ge in E.
    destruct (Nat.ltb_spec (String.length (str inp)) (charIndex inp + 1));
      [reflexivity | lia].
Qed.

Lemma RuneWhere_spec (f : ascii -> bool) (inp : Input) :
  RuneWhere f inp
  = match nextByte inp with
    | Some c => if f c then (Match (str1 c), at_ (charIndex inp + 1) inp)
                else (NoMatch, inp)
    | None => (NoMatch, inp)
    end.
Proof.
  unfold RuneWhere.
  pose proof (Take_Peek 1 inp) as [_ HT]. rewrite HT, Peek_one.
  destruct (nextByte inp) as [c|]; reflexivity.
Qed.

(** A literal either matches, the cursor moving over it, or leaves the
    cursor alone; it never fails. *)
Lemma String__spec (m : string) (inp : Input) :
  String_ m inp
  = if snd (Peek (String.length m) inp)
       && String.eqb m (fst (Peek (String.length m) inp))
    then (Match m, at_ (charIndex inp + String.length m) inp)
    else (NoMatch, inp).
Proof.
  unfold String_.
  pose proof (Take_Peek (String.length m) inp) as [_ HT]. rewrite HT.
  destruct (Peek (String.length m) inp) as [got [|]]; simpl; [|reflexivity].
  destruct (String.eqb_spec m got) as [->|]; reflexivity.
Qed.

(** ** Field keys *)

Lemma at_at (i j : nat) (inp : Input) : at_ i (at_ j inp) = at_ i inp.
Proof. reflexivity. Qed.

Lemma Seek_spec (i : nat) (inp : Input) :
  i <= String.length (str inp) -> Seek (Z.of_nat i) inp = (true, at_ i inp).
Proof.
  intros H. unfold Seek.
  destruct (Z.ltb_spec (Z.of_nat i) 0); [lia|].
  destruct (Z.ltb_spec (Z.of_nat (String.length (str inp))) (Z.of_nat i)); [lia|].
  simpl. now rewrite Nat2Z.id.
Qed.

Lemma Seek_neg (z : Z) (inp : Input) : (z < 0)%Z -> Seek z inp = (false, inp).
Proof.
  intros H. unfold Seek. now destruct (Z.ltb_spec z 0); [|lia].
Qed.

Lemma Peek_ok (n : nat) (inp : Input) (m : string) :
  fst (Peek n inp) = m -> m <> "" ->
  snd (Peek n inp) = true /\ charIndex inp + n <= String.length (str inp).
Proof.
  unfold Peek.
  destruct (Nat.ltb_spec (String.length (str inp)) (charIndex inp + n)); simpl.
  - intros <- E. now elim E.
  - intros _ _. split; [reflexivity | lia].
Qed.

(** The guard, once the short key has been read at cursor [c]. *)
Lemma shortKeyGuard_spec (c : Input) :
  charIndex c + 2 <= String.length (str c) ->
  fst (shortKeyGuard true (at_ (charIndex c + 2) c))
  = (if afterSpaceOrStart c then Match tt else NoMatch)
  /\ (afterSpaceOrStart c = true ->
      snd (shortKeyGuard true (at_ (charIndex c + 2) c)) = at_ (charIndex c + 2) c).
Proof.
  intros Hlen. unfold shortKeyGuard, afterSpaceOrStart, Index.
  cbn [charIndex at_].
  destruct (charIndex c) as [|i] eqn:Ei.
  - rewrite Seek_neg by lia.
    cbn [orb negb andb fst snd]. rewrite Seek_spec by (cbn; lia).
    split; reflexivity.
  - replace (Z.of_nat (S i + 2) - 3)%Z with (Z.of_nat i) by lia.
    rewrite Seek_spec by (cbn; lia). cbn [negb andb].
    rewrite Peek_one. unfold nextByte. cbn [charIndex str at_].
    destruct (String.get i (str c)) as [ch|]; cbn [fst].
    + change (str1 ch =? " ")%string with (String.eqb (String ch "") (String " " "")).
      cbn [String.eqb].
      destruct (Ascii.eqb ch " "); cbn [negb fst snd].
      * rewrite Seek_spec by (cbn; lia). split; reflexivity.
      * split; [reflexivity | discriminate].
    + cbn [negb fst snd]. split; [reflexivity | discriminate].
Qed.

Lemma keyed_spec {T} (long short : string) (value : Parser T) (inp : Input) :
  String.length short = 2 ->
  fst (Peek 2 (keyCursor long inp)) = short ->
  outcome (keyed long short value inp)
  = if afterSpaceOrStart (keyCursor long inp)
    then outcome (value (at_ (charIndex (keyCursor long inp) + 2) (keyCursor long inp)))
    else NoMatch.
Proof.
  intros Hlen Hpeek. unfold keyed, dump, attempt, keyCursor in *.
  set (inp1 := snd (parsers.InlineWhitespaceRunes inp)) in *.
  assert (short <> "") as Hne by (intros ->; discriminate).
  assert (exists r, String_ long inp1 = (r, snd (String_ long inp1))
                    /\ (r = Match long \/ r = NoMatch)) as (r & Er & Hr).
  { rewrite String__spec.
    destruct (_ && _); eexists; split; try reflexivity; auto. }
  set (c := snd (String_ long inp1)) in *.
  destruct (Peek_ok 2 c short Hpeek Hne) as [Hok Hbound].
  assert (String_ short c = (Match short, at_ (charIndex c + 2) c)) as Es.
  { rewrite String__spec, Hlen, Hok, Hpeek, String.eqb_refl. reflexivity. }
  destruct (shortKeyGuard_spec c Hbound) as [Hg Hg'].
  assert (outcome
            ((let! _ := shortKeyGuard true in
              if negb (isOk (Some long)) && negb (isOk (Some short))
              then noMatch else value) (at_ (charIndex c + 2) c))
          = outcome
              ((let! _ := shortKeyGuard true in
                if negb (isOk (@None string)) && negb (isOk (Some short))
                then noMatch else value) (at_ (charIndex c + 2) c))
          /\ outcome
               ((let! _ := shortKeyGuard true in
                 if negb (isOk (@None string)) && negb (isOk (Some short))
                 then noMatch else value) (at_ (charIndex c + 2) c))
             = if afterSpaceOrStart c
               then outcome (value (at_ (charIndex c + 2) c)) else NoMatch)
    as [E1 E2].
  { unfold bind. cbn [isOk negb andb].
    destruct (shortKeyGuard true (at_ (charIndex c + 2) c)) as [g c'] eqn:Eg.
    cbn [fst snd] in Hg, Hg'.
    destruct (afterSpaceOrStart c); subst g.
    - rewrite (Hg' eq_refl). split; reflexivity.
    - split; reflexivity. }
  rewrite Er. destruct Hr as [-> | ->]; cbv beta iota; rewrite Es.
  - exact (eq_trans E1 E2).
  - exact E2.
Qed.

(** C3: where a field parser finds its short key ([d:], [s:], [p:], [e:]),
    it goes on to the value exactly when the byte before the key is a space
    or the key opens the input; otherwise it reports no match, the field
    being unmatched there. *)
Theorem short_key_guard (relativeTo : time.Time) (f : ShortField) (inp : Input) :
  fst (Peek 2 (keyCursor (longKey f) inp)) = shortKey f ->
  fieldOutcome relativeTo f inp
  = if afterSpaceOrStart (keyCursor (longKey f) inp)
    then valueOutcome relativeTo f
           (at_ (charIndex (keyCursor (longKey f) inp) + 2)
                (keyCursor (longKey f) inp))
    else NoMatch.
Proof.
  intros H. destruct f; cbn [fieldOutcome valueOutcome longKey shortKey] in *.
  - exact (keyed_spec "due:" "d:" parsers.YearMonthDay inp eq_refl H).
  - exact (keyed_spec "scheduled:" "s:" parsers.YearMonthDay inp eq_refl H).
  - exact (keyed_spec "priority:" "p:" priorityValue inp eq_refl H).
  - exact (keyed_spec "every:" "e:" (everyRule relativeTo) inp eq_refl H).
Qed.

(** The [d:] of "food:" in a task line: the due field is unmatched there. *)
Lemma short_key_guard_witness :
  fst (Peek 2 (keyCursor "due:" (at_ 9 (NewInput "- [ ] food: 2024-01-01")))) = "d:"
  /\ fieldOutcome (time.Date 2024 1 1) DueField
       (at_ 9 (NewInput "- [ ] food: 2024-01-01")) = NoMatch.
Proof.
  split; [reflexivity|].
  exact (short_key_guard (time.Date 2024 1 1) DueField
           (at_ 9 (NewInput "- [ ] food: 2024-01-01")) eq_refl).
Defined.

Example food_is_not_due :
  parseLine "a.md" "v" (time.Date 2024 1 1) "- [ ] eat food: 2024-01-01"
  = Match (NewTask (NewIdentifier "a.md" "v" 1) "eat foo" Todo []).
Proof. vm_compute. reflexivity. Qed.

Example spaced_short_key_is_due :
  parseLine "a.md" "v" (time.Date 2024 1 1) "- [ ] eat d:2024-01-01"
  = Match (NewTask (NewIdentifier "a.md" "v" 1) "eat" Todo
             [WithDue (time.Date 2024 1 1)]).
Proof. vm_compute. reflexivity. Qed.

(** ** Priority *)

(** Every field parser with a short key either reports no match or does
    what its value parser does behind the key. *)
Lemma keyed_cases {T} (long short : string) (value : Parser T) (inp : Input) :
  String.length short = 2 ->
  outcome (keyed long short value inp) = NoMatch
  \/ outcome (keyed long short value inp)
     = outcome (value (snd (String_ short (keyCursor long inp)))).
Proof.
  intros Hlen.
  destruct (String.eqb_spec (fst (Peek 2 (keyCursor long inp))) short) as [E|E].
  - rewrite (keyed_spec long short value inp Hlen E).
    destruct (afterSpaceOrStart (keyCursor long inp)); [right | now left].
    assert (short <> "") as Hne by (intros ->; discriminate).
    destruct (Peek_ok 2 _ short E Hne) as [Hok _].
    now rewrite String__spec, Hlen, Hok, E, String.eqb_refl.
  - unfold keyed, dump, attempt, keyCursor in *.
    set (inp1 := snd (parsers.InlineWhitespaceRunes inp)) in *.
    assert (String_ short (snd (String_ long inp1))
            = (NoMatch, snd (String_ long inp1))) as Es.
    { rewrite String__spec, Hlen.
      destruct (snd (Peek 2 _)); [|reflexivity].
      destruct (String.eqb_spec short (fst (Peek 2 (snd (String_ long inp1)))));
        [congruence | reflexivity]. }
    rewrite Es.
    rewrite (String__spec long inp1) in *.
    destruct (_ && _); cbv beta iota; cbn [snd] in *; rewrite Es;
      [right | left]; reflexivity.
Qed.

Lemma digits_none (c : Input) :
  nextIsDigit c = false ->
  fst (StringFrom (AtLeast 1 ZeroToNine) c) = NoMatch.
Proof.
  unfold nextIsDigit, isDigit. intros H.
  unfold StringFrom, AtLeast, budget. cbn [timesLoop].
  unfold ZeroToNine, RuneIn. rewrite RuneWhere_spec.
  destruct (nextByte c) as [ch|]; [rewrite H|]; reflexivity.
Qed.

Lemma priorityValue_none (c : Input) :
  nextIsDigit c = false -> outcome (priorityValue c) = NoMatch.
Proof.
  intros H. unfold priorityValue, bind, outcome.
  pose proof (digits_none c H) as E.
  destruct (StringFrom (AtLeast 1 ZeroToNine) c) as [r c'].
  cbn [fst] in E. now subst r.
Qed.

Lemma priority_without_digits_absent (inp : Input) :
  nextIsDigit (priorityValueCursor inp) = false ->
  outcome (priorityParser inp) = NoMatch.
Proof.
  intros H.
  destruct (keyed_cases "priority:" "p:" priorityValue inp eq_refl) as [E|E].
  - exact E.
  - etransitivity; [exact E|]. now apply priorityValue_none.
Qed.

(** The lines of the claim parse, to a task without a priority. *)
Lemma malformed_priority_parses :
  parseLine "a.md" "v" (time.Date 2024 1 1) "- [ ] task priority:abc"
  = Match (NewTask (NewIdentifier "a.md" "v" 1) "task" Todo [])
  /\ parseLine "a.md" "v" (time.Date 2024 1 1) "- [ ] task priority:"
     = Match (NewTask (NewIdentifier "a.md" "v" 1) "task" Todo [])
  /\ parseLine "a.md" "v" (time.Date 2024 1 1) "- [ ] task p:high due:2024-01-01"
     = Match (NewTask (NewIdentifier "a.md" "v" 1) "task" Todo
                [WithDue (time.Date 2024 1 1)]).
Proof. repeat split; vm_compute; reflexivity. Qed.

(** A digit run that does not fit Go's [int] is what fails the line. *)
Example overflowing_priority_fails :
  parseLine "a.md" "v" (time.Date 2024 1 1)
    "- [ ] task priority:9223372036854775808"
  = Error InvalidPriority
  /\ parseLine "a.md" "v" (time.Date 2024 1 1)
       "- [ ] task priority:9223372036854775807"
     = Match (NewTask (NewIdentifier "a.md" "v" 1) "task" Todo
                [WithPriority 9223372036854775807]).
Proof. split; vm_compute; reflexivity. Qed.

(** ** The month scan *)

Lemma at_same (inp inp' : Input) :
  str inp' = str inp -> at_ (charIndex inp) inp' = inp.
Proof. destruct inp, inp'. cbn. now intros ->. Qed.

Lemma ahead_refl (inp : Input) : within inp -> ahead 0 inp inp.
Proof. unfold ahead. intros H. repeat split; [lia | exact H]. Qed.

Lemma ahead_trans (n m : nat) (a b c : Input) :
  ahead n a b -> ahead m b c -> ahead (n + m) a c.
Proof.
  unfold ahead. intros (E1 & L1 & _) (E2 & L2 & W).
  repeat split; [congruence | lia | exact W].
Qed.

Lemma ahead_weaken (n m : nat) (a b : Input) :
  m <= n -> ahead n a b -> ahead m a b.
Proof. unfold ahead. intros H (E & L & W). repeat split; [exact E | lia | exact W]. Qed.

Lemma Peek_true (n : nat) (inp : Input) :
  snd (Peek n inp) = true -> charIndex inp + n <= String.length (str inp).
Proof.
  unfold Peek.
  destruct (Nat.ltb_spec (String.length (str inp)) (charIndex inp + n));
    [discriminate | intros _; lia].
Qed.

(** A rune parser matches one byte and moves over it, or stays. *)
Lemma RuneWhere_cases (f : ascii -> bool) (inp : Input) :
  (exists c, RuneWhere f inp = (Match (str1 c), at_ (charIndex inp + 1) inp)
             /\ nextByte inp = Some c /\ f c = true
             /\ ahead 1 inp (at_ (charIndex inp + 1) inp))
  \/ RuneWhere f inp = (NoMatch, inp).
Proof.
  rewrite RuneWhere_spec. destruct (nextByte inp) as [c|] eqn:E; [|now right].
  destruct (f c) eqn:Ef; [left | now right].
  exists c. repeat split; cbn; try lia; try assumption.
  unfold nextByte in E. unfold within. cbn.
  assert (charIndex inp < String.length (str inp)) by (apply get_Some_lt; eauto).
  lia.
Qed.

Lemma String__cases (m : string) (inp : Input) :
  (String_ m inp = (Match m, at_ (charIndex inp + String.length m) inp)
   /\ ahead (String.length m) inp (at_ (charIndex inp + String.length m) inp))
  \/ String_ m inp = (NoMatch, inp).
Proof.
  rewrite String__spec.
  destruct (snd (Peek (String.length m) inp)) eqn:E; [|now right].
  destruct (String.eqb m _); [left | now right].
  split; [reflexivity|]. apply Peek_true in E.
  unfold ahead, within. cbn. repeat split; lia.
Qed.

(** An alternative of literals: one of them matches, or the cursor stays. *)
Lemma Any_literals (ms : list string) (inp : Input) :
  (exists m, In m ms /\ Any (map String_ ms) inp
                        = (Match m, at_ (charIndex inp + String.length m) inp)
             /\ ahead (String.length m) inp (at_ (charIndex inp + String.length m) inp))
  \/ Any (map String_ ms) inp = (NoMatch, inp).
Proof.
  induction ms as [|m ms IH]; [now right|]. cbn [map Any].
  destruct (String__cases m inp) as [[E H] | E]; rewrite E.
  - left. exists m. split; [now left | split; [reflexivity | exact H]].
  - destruct IH as [(m' & Hin & E' & H') | E']; [left | right; exact E'].
    exists m'. split; [now right | split; [exact E' | exact H']].
Qed.

Lemma word_cases {T} (table : list (string * T)) (inp : Input) :
  (exists w v, In (w, v) table
               /\ parsers.word table inp = (Match v, at_ (charIndex inp + String.length w) inp)
               /\ ahead (String.length w) inp (at_ (charIndex inp + String.length w) inp))
  \/ parsers.word table inp = (NoMatch, inp).
Proof.
  induction table as [|[w v] table IH]; [now right|]. cbn [parsers.word].
  destruct (String__cases w inp) as [[E H] | E]; rewrite E.
  - left. exists w, v. split; [now left | split; [reflexivity | exact H]].
  - destruct IH as [(w' & v' & Hin & E' & H') | E']; [left | right; exact E'].
    exists w', v'. split; [now right | split; [exact E' | exact H']].
Qed.

Lemma digits_cases (n : nat) (inp : Input) :
  (exists m, parsers.digits n inp = (Match m, at_ (charIndex inp + n) inp)
             /\ ahead n inp (at_ (charIndex inp + n) inp))
  \/ parsers.digits n inp = (NoMatch, inp).
Proof.
  unfold parsers.digits. pose proof (Take_Peek n inp) as [_ HT]. rewrite HT.
  destruct (Peek n inp) as [m [|]] eqn:E; [|now right].
  destruct (forallb isDigit _); [left | now right].
  exists m. split; [reflexivity|].
  assert (snd (Peek n inp) = true) as Hok by now rewrite E.
  apply Peek_true in Hok. unfold ahead, within. cbn. repeat split; lia.
Qed.

Lemma MonthDay_cases (inp : Input) :
  (exists v inp', parsers.MonthDay inp = (Match v, inp')
                  /\ (1 <= v <= 31)%Z /\ ahead 1 inp inp')
  \/ parsers.MonthDay inp = (NoMatch, inp).
Proof.
  unfold parsers.MonthDay. cbn [Any].
  destruct (digits_cases 2 inp) as [(m & E & H) | E]; rewrite E.
  - destruct (_ && _) eqn:Ev; [left | now right].
    exists (digitsValue 0 m), (at_ (charIndex inp + 2) inp).
    split; [reflexivity | split; [lia | apply (ahead_weaken 2); [lia | exact H]]].
  - destruct (digits_cases 1 inp) as [(m & E' & H) | E']; rewrite E'; [|now right].
    destruct (_ && _) eqn:Ev; [left | now right].
    exists (digitsValue 0 m), (at_ (charIndex inp + 1) inp).
    split; [reflexivity | split; [lia | exact H]].
Qed.

Lemma MonthOfYear_cases (inp : Input) :
  (exists v inp', parsers.MonthOfYear inp = (Match v, inp')
                  /\ (1 <= v <= 12)%Z /\ ahead 1 inp inp')
  \/ parsers.MonthOfYear inp = (NoMatch, inp).
Proof.
  unfold parsers.MonthOfYear.
  destruct (word_cases parsers.monthNames inp) as [(w & v & Hin & E & H) | E];
    [left | now right].
  exists v, (at_ (charIndex inp + String.length w) inp).
  split; [exact E|].
  assert (Forall (fun wv => (1 <= snd wv <= 12)%Z /\ 1 <= String.length (fst wv))
                 parsers.monthNames) as HF
    by (repeat constructor; cbn; lia).
  rewrite Forall_forall in HF.
  destruct (HF (w, v)) as [Hv Hw]; [now apply list_elem_of_In|].
  split; [exact Hv | apply (ahead_weaken (String.length w)); [exact Hw | exact H]].
Qed.

Lemma optionalDelimiter_ahead (inp : Input) :
  within inp -> ahead 0 inp (snd (optionalDelimiter inp)).
Proof.
  intros W. unfold optionalDelimiter, Optional, Rune.
  destruct (RuneWhere_cases (Ascii.eqb " ") inp) as [(c & E & _ & _ & H) | E];
    rewrite E; cbn [snd].
  - apply (ahead_weaken 1); [lia | exact H].
  - now apply ahead_refl.
Qed.

Lemma scanned_refl (o : rrule.ROption) : scanned o o.
Proof.
  unfold scanned. repeat split; try reflexivity.
  - exists []. split; [now rewrite app_nil_r | constructor].
  - exists []. split; [now rewrite app_nil_r | constructor].
Qed.

Lemma scanned_trans (a b c : rrule.ROption) :
  scanned a b -> scanned b c -> scanned a c.
Proof.
  unfold scanned.
  intros (F1 & D1 & I1 & W1 & (ds1 & Ed1 & Hd1) & (ms1 & Em1 & Hm1))
         (F2 & D2 & I2 & W2 & (ds2 & Ed2 & Hd2) & (ms2 & Em2 & Hm2)).
  repeat split; try congruence.
  - exists (ds1 ++ ds2)%list. split.
    + now rewrite Ed2, Ed1, app_assoc.
    + now apply Forall_app.
  - exists (ms1 ++ ms2)%list. split.
    + now rewrite Em2, Em1, app_assoc.
    + now apply Forall_app.
Qed.

Lemma scanned_day (o : rrule.ROption) (d : Z) :
  (1 <= d <= 31)%Z ->
  scanned o (setBymonthday (rrule.Bymonthday o ++ [d]) o).
Proof.
  intros H. unfold scanned. cbn. repeat split; try reflexivity.
  - exists [d]. split; [reflexivity | now repeat constructor].
  - exists []. split; [now rewrite app_nil_r | constructor].
Qed.

Lemma scanned_month (o : rrule.ROption) (m : Z) :
  (1 <= m <= 12)%Z ->
  scanned o (setBymonth (rrule.Bymonth o ++ [m]) o).
Proof.
  intros H. unfold scanned. cbn. repeat split; try reflexivity.
  - exists []. split; [now rewrite app_nil_r | constructor].
  - exists [m]. split; [reflexivity | now repeat constructor].
Qed.

(** The scan always ends, within its budget and without an error, on
    options that differ by month days and months only. *)
Lemma monthScan_total (fuel : nat) (o : rrule.ROption) (inp : Input) :
  within inp -> String.length (str inp) - charIndex inp < fuel ->
  exists o' inp', monthScan fuel o inp = (Match o', inp')
                  /\ ahead 0 inp inp' /\ scanned o o'.
Proof.
  revert o inp. induction fuel as [|fuel IH]; intros o inp W Hf; [lia|].
  cbn [monthScan].
  pose proof (optionalDelimiter_ahead inp W) as H1.
  set (inp1 := snd (optionalDelimiter inp)) in *.
  assert (forall o1 inp2 n,
            scanned o o1 -> ahead n inp inp2 ->
            (n = 0 -> o1 = o) ->
            exists o' inp',
              (let inp3 := snd (optionalDelimiter inp2) in
               match parsers.MonthOfYear inp3 with
               | (Error e, inp4) => (Error e, inp4)
               | (month, inp4) =>
                   let opts2 := match month with
                                | Match m => setBymonth (rrule.Bymonth o1 ++ [m]) o1
                                | _ => o1
                                end in
                   match (if Nat.eqb n 0 then @NoMatch Z else Match 0%Z), month with
                   | NoMatch, NoMatch => (Match opts2, inp4)
                   | _, _ => monthScan fuel opts2 inp4
                   end
               end) = (Match o', inp')
              /\ ahead 0 inp inp' /\ scanned o o') as Hmonth.
  { intros o1 inp2 n S1 A2 Hn.
    assert (within inp2) as W2 by apply A2.
    pose proof (optionalDelimiter_ahead inp2 W2) as H3.
    set (inp3 := snd (optionalDelimiter inp2)) in *.
    pose proof (ahead_trans _ _ _ _ _ A2 H3) as A3.
    cbv zeta.
    destruct (MonthOfYear_cases inp3) as [(m & inp4 & E & Hm & A4) | E];
      rewrite E; cbv zeta.
    - pose proof (ahead_trans _ _ _ _ _ A3 A4) as A.
      assert (within inp4) as W4 by apply A.
      destruct (IH (setBymonth (rrule.Bymonth o1 ++ [m]) o1) inp4 W4)
        as (o' & inp' & E' & A' & S').
      { destruct A as (Es & L & _). unfold within in *. rewrite Es in *. lia. }
      exists o', inp'.
      split; [destruct (Nat.eqb n 0); exact E'|].
      split.
      + apply (ahead_weaken (n + 0 + 1 + 0)); [lia|].
        exact (ahead_trans _ _ _ _ _ A A').
      + eapply scanned_trans; [exact S1|].
        eapply scanned_trans; [apply scanned_month; exact Hm | exact S'].
    - destruct n as [|n]; cbn [Nat.eqb].
      + exists o1, inp3. rewrite (Hn eq_refl).
        split; [reflexivity | split; [|apply scanned_refl]].
        apply (ahead_weaken (0 + 0)); [lia | exact A3].
      + assert (within inp3) as W3 by apply A3.
        destruct (IH o1 inp3 W3) as (o' & inp' & E' & A' & S').
        { destruct A3 as (Es & L & _). unfold within in *. rewrite Es in *. lia. }
        exists o', inp'. split; [exact E'|]. split.
        * apply (ahead_weaken (S n + 0 + 0)); [lia|].
          exact (ahead_trans _ _ _ _ _ A3 A').
        * eapply scanned_trans; [exact S1 | exact S']. }
  destruct (MonthDay_cases inp1) as [(d & inp2 & E & Hd & A2) | E];
    rewrite E.
  - apply (Hmonth _ inp2 1).
    + now apply scanned_day.
    + exact (ahead_trans _ _ _ _ _ H1 A2).
    + discriminate.
  - apply (Hmonth o inp1 0).
    + apply scanned_refl.
    + exact H1.
    + reflexivity.
Qed.

Lemma steady_RuneWhere (f : ascii -> bool) : steady (RuneWhere f).
Proof.
  intros inp. rewrite RuneWhere_spec.
  destruct (nextByte inp) as [c|]; [destruct (f c)|]; reflexivity.
Qed.

Lemma steady_String (m : string) : steady (String_ m).
Proof. intros inp. rewrite String__spec. destruct (_ && _); reflexivity. Qed.


Lemma steady_Any {T} (ps : list (Parser T)) :
  Forall steady ps -> steady (Any ps).
Proof.
  induction 1 as [|p ps Hp _ IH]; intros inp; [reflexivity|]. cbn [Any].
  specialize (Hp inp). destruct (p inp) as [[x| |e] inp']; cbn [snd] in *;
    try exact Hp.
  now rewrite IH.
Qed.


Lemma steady_timesLoop {T} (fuel : nat) (p : Parser T) (acc : list T) (inp : Input) :
  steady p -> str (snd (timesLoop fuel p acc inp)) = str inp.
Proof.
  intros Hp. revert acc inp. induction fuel as [|fuel IH]; intros acc inp;
    [reflexivity|]. cbn [timesLoop].
  specialize (Hp inp). destruct (p inp) as [[x| |e] inp']; cbn [snd] in *;
    try exact Hp.
  now rewrite IH.
Qed.

Lemma steady_Seek (z : Z) (inp : Input) : str (snd (Seek z inp)) = str inp.
Proof. unfold Seek. destruct (_ || _); reflexivity. Qed.

Lemma steady_Take (n : nat) (inp : Input) : str (snd (Take n inp)) = str inp.
Proof. unfold Take. destruct (_ <? _)%nat; reflexivity. Qed.

Lemma steady_AtLeast {T} (min : nat) (p : Parser T) :
  steady p -> steady (AtLeast min p).
Proof.
  intros Hp inp. unfold AtLeast.
  pose proof (steady_timesLoop (budget inp) p [] inp Hp) as H.
  destruct (timesLoop (budget inp) p [] inp) as [[ms| |e] inp']; cbn [snd] in *;
    try exact H.
  destruct (_ <=? _)%nat; cbn [snd]; [exact H | now rewrite steady_Seek].
Qed.

Lemma steady_StringFrom {T} (p : Parser T) : steady p -> steady (StringFrom p).
Proof.
  intros Hp inp. unfold StringFrom. specialize (Hp inp).
  destruct (p inp) as [[x| |e] inp']; cbn [snd] in *.
  - pose proof (steady_Take (Index inp' - Index inp)
                  (snd (Seek (Z.of_nat (Index inp)) inp'))) as H.
    rewrite steady_Seek in H.
    destruct (Take _ _) as [[m [|]] inp'']; cbn [snd] in *; congruence.
  - now rewrite steady_Seek.
  - exact Hp.
Qed.


Lemma steady_literals (ms : list string) : steady (Any (map String_ ms)).
Proof.
  apply steady_Any. induction ms; constructor; [apply steady_String | assumption].
Qed.







Lemma pair_eta {A B} (x : A * B) (a : A) : fst x = a -> x = (a, snd x).
Proof. destruct x. cbn. now intros ->. Qed.

Lemma buildResult_stores (inp inp' : Input) (o : rrule.ROption) :
  ahead 0 inp inp' -> rrule.validateBounds o = true ->
  buildResult (Index inp) o inp'
  = (Match {| RRule := o; Text := textBetween inp inp' |}, inp').
Proof.
  intros (Es & L & W) Hv. unfold buildResult, rrule.NewRRule, Index, textBetween.
  rewrite Hv. unfold within in W.
  rewrite Seek_spec by lia.
  pose proof (Take_Peek (charIndex inp' - charIndex inp) (at_ (charIndex inp) inp'))
    as [HT1 HT2].
  destruct (Take _ _) as [tk inp'']. cbn [fst snd] in HT1, HT2. subst tk inp''.
  unfold Peek. cbn [charIndex str at_].
  destruct (Nat.ltb_spec (String.length (str inp'))
              (charIndex inp + (charIndex inp' - charIndex inp))); [lia|].
  cbn [snd]. rewrite Es.
  replace (charIndex inp + (charIndex inp' - charIndex inp)) with (charIndex inp')
    by lia.
  now rewrite at_at, (at_same inp' inp' eq_refl).
Qed.

Lemma forallb_inBounds (lo hi : Z) (pm : bool) (l : list Z) :
  Forall (fun v => lo <= v <= hi)%Z l -> forallb (rrule.inBounds lo hi pm) l = true.
Proof.
  induction 1 as [|v l Hv _ IH]; [reflexivity|]. cbn [forallb].
  rewrite IH, andb_true_r. unfold rrule.inBounds.
  destruct (Z.leb_spec lo v), (Z.leb_spec v hi); try lia; reflexivity.
Qed.

Lemma scanned_valid (relativeTo : time.Time) (o : rrule.ROption) :
  scanned (noOptions relativeTo) o ->
  rrule.validateBounds o = true
  /\ rrule.validateBounds (firstOfMonthByDefault o) = true.
Proof.
  intros (_ & _ & HI & _ & (ds & Ed & Hd) & (ms & Em & Hm)).
  cbn in HI, Ed, Em.
  assert (rrule.validateBounds o = true) as Hv.
  { unfold rrule.validateBounds. rewrite HI, Ed, Em.
    now rewrite !forallb_inBounds. }
  split; [exact Hv|].
  unfold firstOfMonthByDefault.
  destruct (rrule.Bymonthday o) eqn:E0; [|exact Hv].
  unfold rrule.validateBounds in *. rewrite E0 in Hv. exact Hv.
Qed.



(** The recurrences of the specification that come from the month scan. *)
Example month_scan_examples (relativeTo : time.Time) :
  everyOf relativeTo "every:march"
  = Match {| RRule := rule relativeTo rrule.YEARLY 0 [] [1%Z] [3%Z]; Text := "march" |}
  /\ everyOf relativeTo "every:15 march"
     = Match {| RRule := rule relativeTo rrule.YEARLY 0 [] [15%Z] [3%Z];
                Text := "15 march" |}
  /\ everyOf relativeTo "every:1 15 june december"
     = Match {| RRule := rule relativeTo rrule.YEARLY 0 [] [1%Z; 15%Z] [6%Z; 12%Z];
                Text := "1 15 june december" |}
  /\ everyOf relativeTo "every:soon" = NoMatch.
Proof. repeat split; vm_compute; reflexivity. Qed.

(** ** The index *)

Lemma bind_Match {A B} (p : Parser A) (k : A -> Parser B) (inp inp' : Input) (y : B) :
  bind p k inp = (Match y, inp') ->
  exists x inp1, p inp = (Match x, inp1) /\ k x inp1 = (Match y, inp').
Proof.
  unfold bind. destruct (p inp) as [[x| |e] inp1]; try discriminate. eauto.
Qed.

Lemma apply_identifier (o : TaskOption) (t : Task) :
  kind o <> 0 -> identifier (apply o t) = identifier t.
Proof. destruct o; cbn; intros H; try reflexivity. now elim H. Qed.

Lemma NewTask_identifier (id : Identifier) (n : string) (s : Status)
    (opts : list TaskOption) :
  Forall (fun o => kind o <> 0) opts -> identifier (NewTask id n s opts) = id.
Proof.
  unfold NewTask.
  set (t := {| identifier := id; name := n; status := s; due := None;
               scheduled := None; completed := None; priority := None;
               every := None |}).
  change id with (identifier t). clearbody t. revert t.
  induction opts as [|o opts IH]; intros t H; [reflexivity|]. cbn [fold_left].
  inversion H; subst. rewrite IH by assumption. now apply apply_identifier.
Qed.

Lemma opt_kind {T} (f : T -> TaskOption) (v : option T) :
  (forall x, kind (f x) <> 0) -> Forall (fun o => kind o <> 0) (opt f v).
Proof. intros H. destruct v; cbn; repeat constructor. apply H. Qed.

(** A task read from a document carries the path and checksum it was read
    under and the number of the line the cursor was on. *)
Lemma ParseTask_identifier (path checksum : string) (relativeTo : time.Time)
    (inp inp' : Input) (t : Task) :
  ParseTask path checksum relativeTo inp = (Match t, inp') ->
  identifier t
  = NewIdentifier path checksum (Z.of_nat (PositionLine inp) + 1).
Proof.
  unfold ParseTask. intros H.
  apply bind_Match in H as (? & ? & _ & H).
  apply bind_Match in H as (status & ? & _ & H).
  apply bind_Match in H as (name & inp3 & _ & H). cbv zeta in H.
  apply bind_Match in H as (due & ? & _ & H).
  apply bind_Match in H as (scheduled & ? & _ & H).
  apply bind_Match in H as (completed & ? & _ & H).
  apply bind_Match in H as (priority & ? & _ & H).
  apply bind_Match in H as (every & ? & _ & H).
  unfold dump, ret in H. injection H as <- _.
  apply NewTask_identifier.
  repeat (apply Forall_app; split); apply opt_kind; discriminate.
Qed.

Lemma parseDocument_bucket (fuel : nat) (path checksum : string) (now : time.Time)
    (bucket : gmap Z Task) (inp : Input) :
  (forall l t, bucket !! l = Some t -> Path t = path /\ Line t = l) ->
  forall l t, parseDocument fuel path checksum now bucket inp !! l = Some t ->
              Path t = path /\ Line t = l.
Proof.
  revert bucket inp. induction fuel as [|fuel IH]; intros bucket inp Hb;
    [exact Hb|]. cbn [parseDocument].
  destruct (atEOF inp); [exact Hb|].
  destruct (ParseTask path checksum now inp) as [[task| |e] inp'] eqn:E;
    try (apply IH; exact Hb).
  apply IH. intros l t. rewrite lookup_insert.
  destruct (decide (Line task = l)) as [<-|_]; [|apply Hb].
  intros [= <-]. split; [|reflexivity].
  unfold Path. now rewrite (ParseTask_identifier _ _ _ _ _ _ E).
Qed.

Lemma handleChanges_indexed (now : time.Time) (event : Event) (c : Client) :
  indexed c -> indexed (snd (handleChanges now event c)).
Proof.
  intros Hc. unfold handleChanges. destruct (inScope event); [|exact Hc].
  set (bucket := parseDocument _ _ _ _ _ _).
  assert (forall l t, bucket !! l = Some t -> Path t = Key event /\ Line t = l)
    as Hbucket.
  { apply parseDocument_bucket. intros l t. now rewrite lookup_empty. }
  clearbody bucket.
  intros p b l t Hp Hl. cbv beta iota delta [negb snd tasks] in Hp.
  rewrite lookup_insert in Hp.
  destruct (decide (Key event = p)) as [<-|_]; [|exact (Hc _ _ _ _ Hp Hl)].
  injection Hp as <-. now apply Hbucket.
Qed.

Lemma handle_indexed (now : time.Time) (c : Client) (event : Event) :
  indexed c -> indexed (handle now c event).
Proof.
  intros Hc. unfold handle, onLoad, onChange, onDelete.
  pose proof (handleChanges_indexed now event c Hc) as H.
  destruct (Op event); destruct (handleChanges now event c) as [changed c'];
    cbn [fst snd] in *; try exact H.
  intros p b l t. cbn [tasks]. rewrite lookup_delete.
  destruct (decide (Key event = p)); [discriminate | apply Hc].
Qed.

Lemma feed_indexed (now : time.Time) (events : list Event) :
  indexed (feed now events).
Proof.
  unfold feed.
  assert (indexed NewClient) as H0.
  { intros p b l t. cbn. now rewrite lookup_empty. }
  revert H0. generalize NewClient.
  induction events as [|event events IH]; intros c Hc; [exact Hc|].
  cbn [fold_left]. apply IH. now apply handle_indexed.
Qed.

Lemma elem_of_FetchAllTasks (c : Client) (t : Task) :
  t ∈ FetchAllTasks c
  <-> exists p b l, tasks c !! p = Some b /\ b !! l = Some t.
Proof.
  unfold FetchAllTasks. rewrite list_elem_of_bind. split.
  - intros ([p b] & Ht & Hb). cbn [snd] in Ht.
    apply list_elem_of_fmap in Ht as ([l t'] & -> & Hl).
    exists p, b, l. split; now apply elem_of_map_to_list.
  - intros (p & b & l & Hb & Hl). exists (p, b). split.
    + cbn [snd]. apply list_elem_of_fmap. exists (l, t). split; [reflexivity|].
      now apply elem_of_map_to_list.
    + now apply elem_of_map_to_list.
Qed.

Lemma indexed_NoDup (c : Client) :
  indexed c -> NoDup (address <$> FetchAllTasks c).
Proof.
  intros Hc. apply NoDup_fmap_2_strong.
  - intros t1 t2 H1 H2 Ha.
    apply elem_of_FetchAllTasks in H1 as (p1 & b1 & l1 & Hb1 & Hl1).
    apply elem_of_FetchAllTasks in H2 as (p2 & b2 & l2 & Hb2 & Hl2).
    destruct (Hc _ _ _ _ Hb1 Hl1) as [<- <-].
    destruct (Hc _ _ _ _ Hb2 Hl2) as [<- <-].
    unfold address in Ha. injection Ha as Ep El.
    rewrite Ep in Hb1. rewrite El in Hl1. congruence.
  - unfold FetchAllTasks. apply NoDup_bind.
    + intros [p1 b1] [p2 b2] t H1 H2 Ht1 Ht2. cbn [snd] in *.
      apply elem_of_map_to_list in H1, H2.
      apply list_elem_of_fmap in Ht1 as ([l1 t1] & -> & Hl1).
      apply list_elem_of_fmap in Ht2 as ([l2 t2] & E & Hl2). cbn [snd] in E.
      subst t2. apply elem_of_map_to_list in Hl1, Hl2.
      destruct (Hc _ _ _ _ H1 Hl1) as [<- _].
      destruct (Hc _ _ _ _ H2 Hl2) as [E _]. congruence.
    + intros [p b] Hb. cbn [snd]. apply elem_of_map_to_list in Hb.
      apply NoDup_fmap_2_strong; [|apply NoDup_map_to_list].
      intros [l1 t1] [l2 t2] H1 H2 E. cbn [snd] in E. subst t2.
      apply elem_of_map_to_list in H1, H2.
      destruct (Hc _ _ _ _ Hb H1) as [_ <-].
      destruct (Hc _ _ _ _ Hb H2) as [_ <-]. reflexivity.
    + apply NoDup_map_to_list.
Qed.

Lemma Summary_length (c : Client) : Summary c = length (FetchAllTasks c).
Proof.
  unfold Summary, FetchAllTasks. rewrite map_fold_foldr.
  induction (map_to_list (tasks c)) as [|[p b] l IH]; [reflexivity|].
  cbn [foldr]. rewrite bind_cons, length_app, length_fmap, IH.
  cbn. rewrite length_map_to_list. lia.
Qed.

(** C9: whatever events the index has handled, starting empty, no two of
    the tasks it holds share a path and line, and [Summary] is the number of
    tasks it holds over all paths. *)
Theorem index_one_task_per_line (now : time.Time) (events : list Event) :
  NoDup (address <$> FetchAllTasks (feed now events))
  /\ Summary (feed now events) = length (FetchAllTasks (feed now events)).
Proof.
  split; [apply indexed_NoDup, feed_indexed | apply Summary_length].
Qed.

(** ** Line-addressed mutations *)

Import writer.

Lemma versionOk_empty (checksum : File -> string) (position : Position) (disk : File) :
  versionOk checksum "" position disk = isSentinel position.
Proof. reflexivity. Qed.

Lemma versionOk_stale (checksum : File -> string) (v : string)
    (position : Position) (disk : File) :
  v <> "" -> v <> checksum disk -> versionOk checksum v position disk = false.
Proof.
  intros H0 H1. unfold versionOk.
  destruct (String.eqb_spec v ""); [contradiction|].
  now destruct (String.eqb_spec v (checksum disk)).
Qed.

Lemma versionOk_match (checksum : File -> string) (position : Position) (disk : File) :
  checksum disk <> "" -> versionOk checksum (checksum disk) position disk = true.
Proof.
  intros H. unfold versionOk.
  destruct (String.eqb_spec (checksum disk) ""); [contradiction|].
  apply String.eqb_refl.
Qed.

(** C4: with an empty expected version an [Add] at [BEGINNING] or [END] is
    carried out whatever the file on disk has become, whereas an [Add],
    [Update] or [Remove] addressed to a line number is refused as stale, and
    the file left as it was, when the expected version is empty or differs
    from the file's; a non-empty version that differs is refused at the
    sentinels too. *)
Theorem stale_version_rules (checksum : File -> string) (disk : File)
    (v payload : string) (op : Mutation) (n : Z) (position : Position) :
  v = "" \/ v <> checksum disk ->
  Mutate checksum "" Add AT_END payload disk
  = (None, withBody disk (body disk ++ [payload]))
  /\ Mutate checksum "" Add AT_BEGINNING payload disk
     = (None, withBody disk (payload :: body disk))
  /\ Mutate checksum v op (Line n) payload disk = (Some StaleVersion, disk)
  /\ (v <> "" -> Mutate checksum v op position payload disk
                 = (Some StaleVersion, disk)).
Proof.
  intros Hv. split; [reflexivity | split; [reflexivity | split]].
  - unfold Mutate. destruct Hv as [-> | Hv].
    + now rewrite versionOk_empty.
    + destruct (String.eqb_spec v "") as [-> | H0].
      * now rewrite versionOk_empty.
      * now rewrite versionOk_stale.
  - intros H0. destruct Hv as [-> | Hv]; [contradiction|].
    unfold Mutate. now rewrite versionOk_stale.
Qed.

Lemma stale_version_rules_witness :
  let disk := {| preamble := ["---"; "type: tasks"; "---"];
                 body := ["- [ ] a"; "- [x] b"] |} in
  ("" = "" \/ "" <> linesChecksum disk)
  /\ Mutate linesChecksum "" Add AT_END "- [ ] c" disk
     = (None, withBody disk ["- [ ] a"; "- [x] b"; "- [ ] c"])
  /\ Mutate linesChecksum "" Update (Line 4) "- [ ] c" disk
     = (Some StaleVersion, disk).
Proof.
  intros disk. split; [now left|].
  destruct (stale_version_rules linesChecksum disk "" "- [ ] c" Update 4
              AT_END (or_introl eq_refl)) as (H1 & _ & H3 & _).
  split; [exact H1 | exact H3].
Defined.

Lemma place_past (f : File) (n : Z) : (last f < n)%Z -> place f n = Past.
Proof.
  intros H. unfold place, first, last in *.
  destruct (Z.ltb_spec n 1); [lia|].
  destruct (Z.ltb_spec n (Z.of_nat (length (preamble f)) + 1)); [lia|].
  destruct (Z.leb_spec n (Z.of_nat (length (preamble f)) + Z.of_nat (length (body f))));
    [lia | reflexivity].
Qed.

Lemma place_before (f : File) (n : Z) : (n < 1)%Z -> place f n = Before.
Proof. intros H. unfold place. now destruct (Z.ltb_spec n 1); [|lia]. Qed.

Lemma place_frontmatter (f : File) (n : Z) :
  (1 <= n < first f)%Z -> place f n = Frontmatter.
Proof.
  intros H. unfold place.
  destruct (Z.ltb_spec n 1); [lia|].
  now destruct (Z.ltb_spec n (first f)); [|lia].
Qed.

(** C8: under a matching version, an [Add] at a line number past the last
    line is carried out and does what an [Add] at [END] does: the file
    afterwards has the front matter it had and the lines it had followed by
    the new line, which is its last line, so that it is one line longer; an
    [Update] or [Remove] at a line number before the first line of the file
    or past its last is refused as out of range, and one at a line of the
    front matter as protected, the file left as it was. *)
Theorem add_past_end_appends (checksum : File -> string) (disk : File)
    (payload : string) (n : Z) :
  checksum disk <> "" ->
  ((last disk < n)%Z ->
   Mutate checksum (checksum disk) Add (Line n) payload disk
   = Mutate checksum (checksum disk) Add AT_END payload disk
   /\ Mutate checksum (checksum disk) Add (Line n) payload disk
      = (None, {| preamble := preamble disk; body := body disk ++ [payload] |})
   /\ (forall after,
         Mutate checksum (checksum disk) Add (Line n) payload disk = (None, after) ->
         preamble after = preamble disk
         /\ length (body after) = S (length (body disk))
         /\ (forall i, i < length (body disk) -> body after !! i = body disk !! i)
         /\ body after !! length (body disk) = Some payload
         /\ last after = (last disk + 1)%Z))
  /\ ((n < 1 \/ last disk < n)%Z ->
      Mutate checksum (checksum disk) Update (Line n) payload disk
      = (Some OutOfRange, disk)
      /\ Mutate checksum (checksum disk) Remove (Line n) payload disk
         = (Some OutOfRange, disk))
  /\ ((1 <= n < first disk)%Z ->
      Mutate checksum (checksum disk) Update (Line n) payload disk
      = (Some FrontmatterProtected, disk)
      /\ Mutate checksum (checksum disk) Remove (Line n) payload disk
         = (Some FrontmatterProtected, disk)).
Proof.
  intros Hc. unfold Mutate. rewrite !versionOk_match by exact Hc.
  cbn [rewrite]. split; [|split].
  - intros H. rewrite (place_past _ _ H). split; [reflexivity|].
    split; [reflexivity|]. intros after [= <-]. unfold last, withBody.
    cbn [preamble body]. split; [reflexivity|].
    split; [rewrite length_app; cbn; lia|].
    split; [intros i Hi; now apply lookup_app_l|].
    split.
    + rewrite lookup_app_r by lia. now rewrite Nat.sub_diag.
    + rewrite length_app. cbn. lia.
  - intros [H | H].
    + rewrite (place_before _ _ H). split; reflexivity.
    + rewrite (place_past _ _ H). split; reflexivity.
  - intros H. rewrite (place_frontmatter _ _ H). split; reflexivity.
Qed.

Lemma add_past_end_appends_witness :
  let disk := {| preamble := ["---"; "type: tasks"; "---"];
                 body := ["- [ ] a"; "- [x] b"] |} in
  linesChecksum disk <> ""
  /\ Mutate linesChecksum (linesChecksum disk) Add (Line 999) "- [ ] c" disk
     = (None, {| preamble := ["---"; "type: tasks"; "---"];
                 body := ["- [ ] a"; "- [x] b"; "- [ ] c"] |})
  /\ Mutate linesChecksum (linesChecksum disk) Update (Line 999) "- [ ] c" disk
     = (Some OutOfRange, disk).
Proof.
  intros disk.
  assert (linesChecksum disk <> "") as Hc by discriminate.
  split; [exact Hc|].
  destruct (add_past_end_appends linesChecksum disk "- [ ] c" 999 Hc)
    as (H1 & H2 & _).
  split.
  - apply H1. reflexivity.
  - apply H2. right. reflexivity.
Defined.

(** The model under the assertions of [TestLines_StaleWrites]: the file is
    changed behind a reader's back; the reader's old hash is then stale, an
    empty hash still adds at the end and at the beginning, and an empty hash
    with a line number is refused. *)
Lemma stale_writes_test (checksum : File -> string) (basic : File)
    (l1 l2 : string) :
  (forall f g, checksum f = checksum g -> f = g) ->
  let hash := checksum basic in
  let '(e1, disk1) := Mutate checksum hash Add AT_END l1 basic in
  let '(e2, disk2) := Mutate checksum hash Add (Line 20) l2 disk1 in
  let '(e3, disk3) := Mutate checksum "" Add AT_END l2 disk2 in
  let '(e4, disk4) := Mutate checksum "" Add AT_BEGINNING l2 disk3 in
  let '(e5, disk5) := Mutate checksum "" Add (Line 20) l2 disk4 in
  let '(e6, disk6) := Mutate checksum "" Update (Line 20) l2 disk5 in
  let '(e7, disk7) := Mutate checksum "" Remove (Line 20) l2 disk6 in
  e1 = None /\ e2 <> None /\ e3 = None /\ e4 = None
  /\ e5 <> None /\ e6 <> None /\ e7 <> None.
Proof.
  intros Hinj hash.
  assert (Mutate checksum hash Add AT_END l1 basic
          = (None, withBody basic (body basic ++ [l1]))) as ->.
  { unfold Mutate, versionOk, hash. cbn [isSentinel].
    destruct (String.eqb_spec (checksum basic) ""); [reflexivity|].
    now rewrite String.eqb_refl. }
  set (disk1 := withBody basic (body basic ++ [l1])).
  assert (Mutate checksum hash Add (Line 20) l2 disk1 = (Some StaleVersion, disk1))
    as ->.
  { destruct (stale_version_rules checksum disk1 hash l2 Add 20 AT_END)
      as (_ & _ & H & _); [|exact H].
    destruct (String.eqb_spec hash ""); [now left | right].
    intros E. apply Hinj in E. apply (f_equal body) in E.
    apply (f_equal (@length string)) in E. unfold disk1 in E. cbn in E.
    rewrite length_app in E. cbn in E. lia. }
  cbn. repeat split; discriminate.
Qed.

(** The model under the assertions of [TestLines_Basic] and
    [TestLines_Frontmatter] that do not depend on the text of the test
    files. *)
Lemma line_tests (checksum : File -> string) (disk : File) (l : string) :
  checksum disk <> "" ->
  let hash := checksum disk in
  fst (Mutate checksum hash Update (Line 0) l disk) <> None
  /\ fst (Mutate checksum hash Update AT_BEGINNING l disk) <> None
  /\ fst (Mutate checksum hash Update AT_END l disk) <> None
  /\ fst (Mutate checksum hash Remove (Line 0) l disk) <> None
  /\ fst (Mutate checksum hash Remove AT_BEGINNING l disk) <> None
  /\ fst (Mutate checksum hash Remove AT_END l disk) <> None
  /\ fst (Mutate checksum hash Add AT_BEGINNING l disk) = None
  /\ fst (Mutate checksum hash Add AT_END l disk) = None
  /\ (2 <= length (preamble disk) ->
      fst (Mutate checksum hash Add (Line 1) l disk) <> None
      /\ fst (Mutate checksum hash Add (Line 2) l disk) <> None
      /\ fst (Mutate checksum hash Update (Line 2) l disk) <> None
      /\ fst (Mutate checksum hash Remove (Line 2) l disk) <> None).
Proof.
  intros Hc hash. unfold Mutate, hash. rewrite !versionOk_match by exact Hc.
  cbn [rewrite]. rewrite (place_before disk 0) by lia. cbn [fst].
  repeat match goal with
         | |- _ /\ _ => split; [first [discriminate | reflexivity]|]
         end.
  intros Hp.
  rewrite (place_frontmatter disk 1), (place_frontmatter disk 2)
    by (unfold first; lia).
  cbn [fst]. repeat split; discriminate.
Qed.

(** ** Where the priority error comes from *)

Section Raises.

Variable P : error -> Prop.
Hypothesis P_fuel : P OutOfFuel.

Lemma raises_ret {T} (x : T) : raises P (ret x).
Proof. intros inp e inp'. discriminate. Qed.

Lemma raises_noMatch {T} : raises P (@noMatch T).
Proof. intros inp e inp'. discriminate. Qed.

Lemma raises_bind {A B} (p : Parser A) (k : A -> Parser B) :
  raises P p -> (forall x, raises P (k x)) -> raises P (bind p k).
Proof.
  intros Hp Hk inp e inp'. unfold bind. specialize (Hp inp).
  destruct (p inp) as [[x| |err] inp1]; intros H.
  - exact (Hk x _ _ _ H).
  - discriminate.
  - injection H as <- _. now apply (Hp err inp1).
Qed.

Lemma raises_attempt {A B} (p : Parser A) (k : option A -> Parser B) :
  raises P p -> (forall o, raises P (k o)) -> raises P (attempt p k).
Proof.
  intros Hp Hk inp e inp'. unfold attempt. specialize (Hp inp).
  destruct (p inp) as [[x| |err] inp1]; intros H.
  - exact (Hk _ _ _ _ H).
  - exact (Hk _ _ _ _ H).
  - injection H as <- _. now apply (Hp err inp1).
Qed.

Lemma raises_dump {A B} (p : Parser A) (k : Parser B) :
  raises P k -> raises P (dump p k).
Proof. intros Hk inp e inp'. unfold dump. apply Hk. Qed.

Lemma raises_RuneWhere (f : ascii -> bool) : raises P (RuneWhere f).
Proof.
  intros inp e inp'. rewrite RuneWhere_spec.
  destruct (nextByte inp) as [c|]; [destruct (f c)|]; discriminate.
Qed.

Lemma raises_String (m : string) : raises P (String_ m).
Proof. intros inp e inp'. rewrite String__spec. destruct (_ && _); discriminate. Qed.

Lemma raises_EOF {T} (zero : T) : raises P (EOF zero).
Proof. intros inp e inp'. unfold EOF. destruct (snd _); discriminate. Qed.

Lemma raises_Any {T} (ps : list (Parser T)) :
  Forall (raises P) ps -> raises P (Any ps).
Proof.
  induction 1 as [|p ps Hp _ IH]; intros inp e inp'; [discriminate|].
  cbn [Any]. specialize (Hp inp).
  destruct (p inp) as [[x| |err] inp1]; intros H.
  - discriminate.
  - exact (IH _ _ _ H).
  - injection H as <- _. now apply (Hp err inp1).
Qed.

Lemma raises_literals (ms : list string) : raises P (Any (map String_ ms)).
Proof.
  apply raises_Any. induction ms; constructor; [apply raises_String | assumption].
Qed.

Lemma raises_timesLoop {T} (fuel : nat) (p : Parser T) (acc : list T) :
  raises P p -> raises P (timesLoop fuel p acc).
Proof.
  intros Hp. revert acc. induction fuel as [|fuel IH]; intros acc inp e inp'.
  - intros [= <- _]. exact P_fuel.
  - cbn [timesLoop]. specialize (Hp inp).
    destruct (p inp) as [[x| |err] inp1]; intros H.
    + exact (IH _ _ _ _ H).
    + discriminate.
    + injection H as <- _. now apply (Hp err inp1).
Qed.

Lemma raises_AtLeast {T} (min : nat) (p : Parser T) :
  raises P p -> raises P (AtLeast min p).
Proof.
  intros Hp inp e inp'. unfold AtLeast.
  pose proof (raises_timesLoop (budget inp) p [] Hp inp) as H.
  destruct (timesLoop (budget inp) p [] inp) as [[ms| |err] inp1].
  - destruct (_ <=? _)%nat; discriminate.
  - discriminate.
  - intros [= <- _]. now apply (H err inp1).
Qed.

Lemma raises_StringFrom {T} (p : Parser T) : raises P p -> raises P (StringFrom p).
Proof.
  intros Hp inp e inp'. unfold StringFrom. specialize (Hp inp).
  destruct (p inp) as [[x| |err] inp1].
  - destruct (Take _ _) as [[m [|]] inp2]; discriminate.
  - discriminate.
  - intros [= <- _]. now apply (Hp err inp1).
Qed.

Lemma raises_untilLoop {T} (fuel : nat) (delimiter : Parser T) (start : nat) :
  raises P delimiter -> raises P (untilLoop fuel delimiter start).
Proof.
  intros Hd. induction fuel as [|fuel IH]; intros inp e inp'.
  - intros [= <- _]. exact P_fuel.
  - cbn [untilLoop]. specialize (Hd inp).
    destruct (delimiter inp) as [[x| |err] inp1]; intros H.
    + discriminate.
    + destruct (Take 1 inp1) as [[m [|]] inp2]; [exact (IH _ _ _ H) | discriminate].
    + injection H as <- _. now apply (Hd err inp1).
Qed.

Lemma raises_StringUntil {T} (delimiter : Parser T) :
  raises P delimiter -> raises P (StringUntil delimiter).
Proof.
  intros Hd inp e inp'. unfold StringUntil.
  pose proof (raises_untilLoop (budget inp) delimiter (Index inp) Hd inp) as H.
  destruct (untilLoop _ _ _ inp) as [[end_| |err] inp1].
  - destruct (Take _ _) as [[m [|]] inp2]; discriminate.
  - discriminate.
  - intros [= <- _]. now apply (H err inp1).
Qed.

Lemma raises_SequenceOf3 {A B C} (a : Parser A) (b : Parser B) (c : Parser C) :
  raises P a -> raises P b -> raises P c -> raises P (SequenceOf3 a b c).
Proof.
  intros Ha Hb Hc inp e inp'. unfold SequenceOf3.
  specialize (Ha inp). destruct (a inp) as [[x| |e1] inp1];
    [|discriminate | intros [= <- _]; now apply (Ha e1 inp1)].
  specialize (Hb inp1). destruct (b inp1) as [[y| |e2] inp2];
    [|discriminate | intros [= <- _]; now apply (Hb e2 inp2)].
  specialize (Hc inp2). destruct (c inp2) as [[z| |e3] inp3];
    [discriminate | discriminate | intros [= <- _]; now apply (Hc e3 inp3)].
Qed.

Lemma raises_word {T} (table : list (string * T)) : raises P (parsers.word table).
Proof.
  intros inp e inp'.
  destruct (word_cases table inp) as [(w & v & _ & E & _) | E]; rewrite E;
    discriminate.
Qed.

Lemma raises_digits (n : nat) : raises P (parsers.digits n).
Proof.
  intros inp e inp'.
  destruct (digits_cases n inp) as [(m & E & _) | E]; rewrite E; discriminate.
Qed.

Lemma raises_YearMonthDay : raises P parsers.YearMonthDay.
Proof.
  intros inp e inp'. unfold parsers.YearMonthDay.
  match goal with |- context [match ?p inp with _ => _ end] =>
    assert (raises P p) as H end.
  { repeat (apply raises_bind;
            [first [apply raises_digits | apply raises_RuneWhere] | intros ?]).
    destruct (time.validDate _ _ _); [apply raises_ret | apply raises_noMatch]. }
  specialize (H inp).
  match goal with |- context [match ?p inp with _ => _ end] =>
    destruct (p inp) as [[x| |err] inp1] end;
    [discriminate | discriminate | intros [= <- _]; now apply (H err inp1)].
Qed.

Lemma raises_shortKeyGuard (b : bool) : raises P (shortKeyGuard b).
Proof.
  intros inp e inp'. unfold shortKeyGuard. destruct b; [|discriminate].
  destruct (Seek _ inp) as [sought inp1]. destruct (_ && _); discriminate.
Qed.

Lemma raises_keyed {T} (long short : string) (value : Parser T) :
  raises P value -> raises P (keyed long short value).
Proof.
  intros Hv. unfold keyed. apply raises_dump.
  apply raises_attempt; [apply raises_String | intros longOk].
  apply raises_attempt; [apply raises_String | intros shortOk].
  apply raises_bind; [apply raises_shortKeyGuard | intros _].
  destruct (_ && _); [apply raises_noMatch | exact Hv].
Qed.

Lemma raises_NewLineOrEOF : raises P parsers.NewLineOrEOF.
Proof.
  apply raises_Any. repeat constructor; [|apply raises_EOF].
  apply (raises_literals [_; _]).
Qed.

Lemma raises_scan (ms : list string) :
  raises P (StringUntil (Any [Any (map String_ ms); parsers.NewLineOrEOF])).
Proof.
  apply raises_StringUntil, raises_Any.
  repeat constructor; [apply raises_literals | apply raises_NewLineOrEOF].
Qed.

Lemma raises_field {T} (ms : list string) (p : Parser T) (start : nat) :
  raises P p -> raises P (field (Any (map String_ ms)) p start).
Proof.
  intros Hp. unfold field.
  apply raises_attempt; [apply raises_scan | intros ok].
  apply raises_attempt; [destruct (isOk ok); [exact Hp | apply raises_noMatch]|].
  intros value inp e inp'. discriminate.
Qed.

Lemma raises_moreDays (fuel : nat) (acc : list time.Weekday) :
  raises P (parsers.moreDays fuel acc).
Proof.
  revert acc. induction fuel as [|fuel IH]; intros acc inp e inp'.
  - intros [= <- _]. exact P_fuel.
  - cbn [parsers.moreDays].
    destruct ((let! _ := parsers.listDelimiter in parsers.DayOfWeek) inp)
      as [[d| |err] inp1]; [apply IH | discriminate | discriminate].
Qed.

Lemma raises_DaysOfWeek : raises P parsers.DaysOfWeek.
Proof.
  unfold parsers.DaysOfWeek. apply raises_bind; [apply raises_word | intros d].
  intros inp. apply raises_moreDays.
Qed.

Lemma raises_buildResult (start : nat) (o : rrule.ROption) :
  P InvalidRRule -> P TextNotStored -> raises P (buildResult start o).
Proof.
  intros H1 H2 inp e inp'. unfold buildResult.
  destruct (rrule.NewRRule o); [|intros [= <- _]; exact H1].
  destruct (Take _ _) as [[m [|]] inp1]; [discriminate | intros [= <- _]; exact H2].
Qed.

Lemma raises_monthScan (fuel : nat) (o : rrule.ROption) :
  raises P (monthScan fuel o).
Proof.
  revert o. induction fuel as [|fuel IH]; intros o inp e inp'.
  - intros [= <- _]. exact P_fuel.
  - cbn [monthScan].
    set (inp1 := snd (optionalDelimiter inp)).
    destruct (MonthDay_cases inp1) as [(d & inp2 & E & _) | E]; rewrite E; cbv zeta.
    + set (inp3 := snd (optionalDelimiter inp2)).
      destruct (MonthOfYear_cases inp3) as [(m & inp4 & E' & _) | E']; rewrite E';
        apply IH.
    + set (inp3 := snd (optionalDelimiter inp1)).
      destruct (MonthOfYear_cases inp3) as [(m & inp4 & E' & _) | E']; rewrite E';
        [apply IH | discriminate].
Qed.

Lemma raises_everyParser (relativeTo : time.Time) :
  P InvalidRRule -> P TextNotStored -> raises P (everyParser relativeTo).
Proof.
  intros H1 H2. apply (raises_keyed "every:" "e:").
  intros inp. unfold everyRule.
  apply raises_attempt.
  { apply raises_Any. repeat constructor;
      first [apply raises_String | apply (raises_literals [_; _])]. }
  intros [single|]; [now apply raises_buildResult|].
  apply raises_attempt; [apply raises_DaysOfWeek|].
  intros [days|]; [now apply raises_buildResult|].
  apply raises_attempt.
  { apply raises_SequenceOf3.
    - apply raises_StringFrom, raises_AtLeast, raises_RuneWhere.
    - apply raises_String.
    - apply raises_Any. repeat constructor; apply (raises_literals [_; _]). }
  intros [[[n sp] unit]|]; [now apply raises_buildResult|].
  apply raises_bind; [intros inp0; apply raises_monthScan | intros o].
  destruct (_ || _); [|apply raises_noMatch].
  destruct (_ =? _)%nat; now apply raises_buildResult.
Qed.

End Raises.

Lemma bind_Error {A B} (p : Parser A) (k : A -> Parser B) (inp inp' : Input)
    (e : error) :
  bind p k inp = (Error e, inp') ->
  p inp = (Error e, inp')
  \/ exists x inp1, p inp = (Match x, inp1) /\ k x inp1 = (Error e, inp').
Proof.
  unfold bind. destruct (p inp) as [[x| |err] inp1]; intros H.
  - right. exists x, inp1. split; [reflexivity | exact H].
  - discriminate.
  - left. injection H as -> ->. reflexivity.
Qed.

(** ** Round trip *)

(** C1: a task with a due date and a recurrence does not survive
    [Task.String] followed by [ParseTask].  The task below is one the parser
    itself returns (from a line with [every:] in front of [due:]); its
    canonical line has [due:] first; on that line the scan for the key of
    [every] stops at the [e:] that ends [due:], the guard rejects it, and
    the task comes back without its recurrence. *)
Theorem due_hides_every (relativeTo : time.Time) :
  let id := NewIdentifier "a.md" "v" 1 in
  let daily := {| RRule := rule relativeTo rrule.DAILY 0 [] [] []; Text := "day" |} in
  let t := NewTask id "a" Todo [WithDue (time.Date 2024 1 1); WithEvery daily] in
  parseLine "a.md" "v" relativeTo "- [ ] a every:day due:2024-01-01" = Match t
  /\ Task_String t = "- [ ] a due:2024-01-01 every:day"
  /\ parseLine "a.md" "v" relativeTo (Task_String t)
     = Match (NewTask id "a" Todo [WithDue (time.Date 2024 1 1)])
  /\ parseLine "a.md" "v" relativeTo (Task_String t) <> Match t.
Proof.
  cbv zeta. split; [vm_compute; reflexivity|]. split; [vm_compute; reflexivity|].
  split; [vm_compute; reflexivity|]. vm_compute. discriminate.
Qed.

(** Without a due date the same task, and one with every other field set,
    come back as they were. *)
Example round_trip_without_due (relativeTo : time.Time) :
  let id := NewIdentifier "a.md" "v" 1 in
  let t1 := NewTask id "a" Todo
              [WithEvery {| RRule := rule relativeTo rrule.DAILY 0 [] [] [];
                            Text := "day" |}] in
  let t2 := NewTask id "water the plants" Blocked
              [WithScheduled (time.Date 2024 2 29); WithPriority 3;
               WithEvery {| RRule := rule relativeTo rrule.YEARLY 0 [] [15%Z] [3%Z];
                            Text := "15 march" |};
               WithCompleted (time.Date 2024 3 1)] in
  parseLine "a.md" "v" relativeTo (Task_String t1) = Match t1
  /\ parseLine "a.md" "v" relativeTo (Task_String t2) = Match t2.
Proof. cbv zeta. split; vm_compute; reflexivity. Qed.

(** * Further properties *)

(** ** The task entity *)

Lemma NewTaskFromTask_fold (t : Task) (opts : list TaskOption) :
  NewTaskFromTask t opts = fold_left (fun task option => apply option task) opts t.
Proof. destruct t. reflexivity. Qed.

(** X1: building from a task with no overrides gives the task back; two
    rounds of overrides are one round with the lists joined; and [NewTask] is
    the bare task with the options as overrides. *)
Theorem overrides_compose (t : Task) (id : Identifier) (n : string) (s : Status)
    (opts opts' : list TaskOption) :
  NewTaskFromTask t [] = t
  /\ NewTaskFromTask (NewTaskFromTask t opts) opts'
     = NewTaskFromTask t (opts ++ opts')
  /\ NewTask id n s opts = NewTaskFromTask (NewTask id n s []) opts.
Proof.
  rewrite !NewTaskFromTask_fold. split; [reflexivity | split].
  - now rewrite fold_left_app.
  - reflexivity.
Qed.

Lemma fieldEq_refl (k : nat) (t : Task) : fieldEq k t t.
Proof. do 8 (destruct k as [|k]; [reflexivity|]). exact I. Qed.

Lemma fieldEq_trans (k : nat) (a b c : Task) :
  fieldEq k a b -> fieldEq k b c -> fieldEq k a c.
Proof.
  do 8 (destruct k as [|k]; [cbn; congruence|]). intros _ _. exact I.
Qed.

Lemma apply_fieldEq (o : TaskOption) (k : nat) (t : Task) :
  k <> kind o -> fieldEq k t (apply o t).
Proof.
  intros H. destruct o; cbn in H;
    do 8 (destruct k as [|k]; [first [reflexivity | now elim H]|]); exact I.
Qed.

Lemma apply_path_version (o : TaskOption) (t : Task) :
  path (identifier (apply o t)) = path (identifier t)
  /\ version (identifier (apply o t)) = version (identifier t).
Proof. destruct o; split; reflexivity. Qed.

Lemma fold_sameExcept (opts : list TaskOption) (t : Task) :
  sameExcept (kind <$> opts) t
    (fold_left (fun task option => apply option task) opts t).
Proof.
  revert t. induction opts as [|o opts IH]; intros t.
  - repeat split. intros k _. apply fieldEq_refl.
  - cbn [fold_left fmap list_fmap].
    destruct (IH (apply o t)) as (Hp & Hv & Hk).
    destruct (apply_path_version o t) as [Hp' Hv'].
    split; [congruence | split; [congruence|]].
    intros k Hn. apply not_elem_of_cons in Hn as [Hko Hn].
    apply (fieldEq_trans k t (apply o t));
      [apply apply_fieldEq; exact Hko | apply Hk; exact Hn].
Qed.

(** X2: whatever the overrides, the new task has the path and version of
    the old one, and every field that no override addresses (the line, name
    and status included) is the old task's. *)
Theorem overrides_keep_other_fields (t : Task) (opts : list TaskOption) :
  sameExcept (kind <$> opts) t (NewTaskFromTask t opts).
Proof. rewrite NewTaskFromTask_fold. apply fold_sameExcept. Qed.

Lemma apply_override (o o' : TaskOption) (t : Task) :
  kind o' = kind o -> apply o (apply o' t) = apply o t.
Proof. destruct o, o'; cbn; intros H; try discriminate; reflexivity. Qed.

Lemma fold_commute (o : TaskOption) (mid : list TaskOption) (t : Task) :
  Forall (fun x => kind x <> kind o) mid ->
  fold_left (fun task option => apply option task) mid (apply o t)
  = apply o (fold_left (fun task option => apply option task) mid t).
Proof.
  intros H. revert t. induction H as [|x mid Hx _ IH]; intros t; [reflexivity|].
  cbn [fold_left]. rewrite <- IH. f_equal. apply apply_comm. exact Hx.
Qed.

(** X3: the last override of a field wins: an earlier override of the same
    field, with overrides of other fields only in between, can be left out. *)
Theorem last_override_wins (t : Task) (pre mid post : list TaskOption)
    (o o' : TaskOption) :
  kind o' = kind o -> Forall (fun x => kind x <> kind o) mid ->
  NewTaskFromTask t (pre ++ o' :: mid ++ o :: post)
  = NewTaskFromTask t (pre ++ mid ++ o :: post).
Proof.
  intros Hk Hmid. rewrite !NewTaskFromTask_fold.
  rewrite !fold_left_app. cbn [fold_left]. rewrite !fold_left_app. cbn [fold_left].
  f_equal. rewrite fold_commute.
  - now apply apply_override.
  - eapply Forall_impl; [exact Hmid|]. cbn. intros x Hx. congruence.
Qed.

Lemma last_override_wins_witness :
  NewTaskFromTask (NewTask (NewIdentifier "a.md" "v" 3) "a" Todo [])
    [WithStatus Doing; WithPriority 1; WithStatus Done]
  = NewTaskFromTask (NewTask (NewIdentifier "a.md" "v" 3) "a" Todo [])
      [WithPriority 1; WithStatus Done].
Proof.
  apply (last_override_wins _ [] [WithPriority 1] [] (WithStatus Done)
           (WithStatus Doing)).
  - reflexivity.
  - repeat constructor. discriminate.
Defined.

(** ** Filters *)

Lemma lexLt_irrefl (l : list nat) : time.lexLt l l = false.
Proof.
  induction l as [|x l IH]; [reflexivity|]. cbn [time.lexLt].
  rewrite IH, Nat.ltb_irrefl. now rewrite andb_false_r.
Qed.

Lemma lexLt_cases (x y z : list nat) :
  length x = length y -> length y = length z ->
  time.lexLt x z = true -> time.lexLt x y = true \/ time.lexLt y z = true.
Proof.
  revert y z. induction x as [|a x IH]; intros [|b y] [|c z]; cbn [length];
    try discriminate. intros Hxy Hyz. cbn [time.lexLt].
  injection Hxy as Hxy. injection Hyz as Hyz.
  specialize (IH y z Hxy Hyz).
  destruct (Nat.ltb_spec a c), (Nat.ltb_spec a b), (Nat.ltb_spec b c),
    (Nat.eqb_spec a c), (Nat.eqb_spec a b), (Nat.eqb_spec b c);
    cbn [orb andb]; try lia; auto; discriminate.
Qed.

Lemma After_Before (t u : time.Time) : time.After t u = time.Before u t.
Proof. reflexivity. Qed.

Lemma Before_cases (t u v : time.Time) :
  time.Before t v = true -> time.Before t u = true \/ time.Before u v = true.
Proof. apply lexLt_cases; reflexivity. Qed.

(** X4: the bounds of the date filters are inclusive (a task dated exactly
    on a bound passes); a task that passes a window passes every wider one
    and the windows with a bound taken away; and no task passes a window
    whose upper bound lies before its lower bound.  This holds of the due
    date and of the completed date alike. *)
Theorem date_windows (f : DateField) (t : Task) (d a b a' b' : time.Time) :
  dateOf f t = Some d ->
  notAfter a' a = true -> notAfter b b' = true ->
  dateFilter f (Some d) (Some d) t = true
  /\ (dateFilter f (Some a) (Some b) t = true ->
      dateFilter f (Some a') (Some b') t = true
      /\ dateFilter f None (Some b) t = true
      /\ dateFilter f (Some a) None t = true)
  /\ (time.Before b a = true -> dateFilter f (Some a) (Some b) t = false).
Proof.
  intros Hd Ha Hb.
  assert (forall after before,
            dateFilter f after before t
            = if match after with Some a => time.Before d a | None => false end
              then false
              else if match before with Some b => time.After d b | None => false end
              then false
              else true) as Hpass.
  { intros after before.
    destruct f; cbn [dateOf dateFilter] in *;
      unfold FilterByDueDate, FilterByCompletedDate; now rewrite Hd. }
  unfold notAfter in *. apply negb_true_iff in Ha, Hb.
  split; [|split].
  - rewrite Hpass, After_Before. unfold time.Before. now rewrite lexLt_irrefl.
  - rewrite !Hpass, !After_Before.
    destruct (time.Before d a) eqn:E1; cbv iota; [discriminate|].
    destruct (time.Before b d) eqn:E2; cbv iota; [discriminate|]. intros _.
    destruct (time.Before d a') eqn:E3.
    { destruct (Before_cases d a a' E3); congruence. }
    destruct (time.Before b' d) eqn:E4.
    { destruct (Before_cases b' b d E4); congruence. }
    repeat split.
  - intros E. rewrite Hpass, After_Before.
    destruct (Before_cases b d a E) as [-> | ->]; [|reflexivity].
    now destruct (time.Before d a).
Qed.

Lemma date_windows_witness :
  FilterByDueDate (Some (time.Date 2024 2 29)) (Some (time.Date 2024 2 29))
    (NewTask (NewIdentifier "a.md" "v" 1) "a" Todo [WithDue (time.Date 2024 2 29)])
  = true
  /\ FilterByDueDate (Some (time.Date 2024 3 1)) (Some (time.Date 2024 2 1))
       (NewTask (NewIdentifier "a.md" "v" 1) "a" Todo [WithDue (time.Date 2024 2 29)])
     = false.
Proof.
  destruct (date_windows DueDate
              (NewTask (NewIdentifier "a.md" "v" 1) "a" Todo
                 [WithDue (time.Date 2024 2 29)])
              (time.Date 2024 2 29) (time.Date 2024 3 1)
              (time.Date 2024 2 1) (time.Date 2024 3 1) (time.Date 2024 2 1)
              eq_refl eq_refl eq_refl) as (H1 & _ & H3).
  split; [exact H1 | exact (H3 eq_refl)].
Defined.

Lemma statusText_inj (a b : Status) : statusText a = statusText b -> a = b.
Proof. destruct a, b; cbn; intros H; try reflexivity; discriminate. Qed.

(** X5: the status and priority filters test membership: a task passes
    [FilterByStatus] exactly when its status is one of those listed, and
    [FilterByPriority] exactly when it has a priority and that is one of
    those listed, so that neither the order of the list nor repetitions in
    it matter and a task without priority passes no priority filter. *)
Theorem filters_test_membership (priorities : list Z) (statuses : list Status)
    (t : Task) :
  (FilterByStatus statuses t = true <-> status t ∈ statuses)
  /\ (FilterByPriority priorities t = true
      <-> exists p, Priority t = Some p /\ p ∈ priorities).
Proof.
  unfold FilterByStatus, FilterByPriority. split.
  - rewrite existsb_exists. split.
    + intros (s & Hin & E). apply String.eqb_eq in E.
      apply statusText_inj in E. rewrite E. now apply list_elem_of_In.
    + intros H. exists (status t). split; [now apply list_elem_of_In|].
      apply String.eqb_refl.
  - rewrite existsb_exists. split.
    + intros (p & Hin & E). destruct (Priority t) as [q|]; [|discriminate].
      apply Z.eqb_eq in E. subst q. exists p.
      split; [reflexivity | now apply list_elem_of_In].
    + intros (p & -> & Hin). exists p.
      split; [now apply list_elem_of_In | apply Z.eqb_refl].
Qed.

(** ** Fetchers *)

Lemma Summary_bucket (c : Client) (d : string) (b : gmap Z Task) :
  tasks c !! d = Some b -> size b <= Summary c.
Proof.
  intros H. unfold Summary.
  rewrite <- (insert_delete_id (tasks c) d b H).
  rewrite map_fold_insert_L.
  - lia.
  - intros. lia.
  - apply lookup_delete_eq.
Qed.

(** X6: a task is among all tasks exactly when it is among those of some
    document; a document the index has no bucket for has no tasks; and no
    document has more tasks than [Summary] counts. *)
Theorem fetch_per_document (c : Client) (t : Task) (d : string) :
  (t ∈ FetchAllTasks c <-> exists document, t ∈ FetchTasksForDocument document c)
  /\ (tasks c !! d = None -> FetchTasksForDocument d c = [])
  /\ length (FetchTasksForDocument d c) <= Summary c.
Proof.
  split; [|split].
  - rewrite elem_of_FetchAllTasks. unfold FetchTasksForDocument. split.
    + intros (p & b & l & Hb & Hl). exists p. rewrite Hb. cbn.
      apply list_elem_of_fmap. exists (l, t). split; [reflexivity|].
      now apply elem_of_map_to_list.
    + intros (p & H). apply list_elem_of_fmap in H as ([l t'] & -> & Hl).
      destruct (tasks c !! p) as [b|] eqn:Hb; cbn in Hl.
      * exists p, b, l. split; [exact Hb | now apply elem_of_map_to_list].
      * rewrite map_to_list_empty in Hl. now apply elem_of_nil in Hl.
  - intros H. unfold FetchTasksForDocument. rewrite H. cbn.
    now rewrite map_to_list_empty.
  - unfold FetchTasksForDocument. rewrite length_fmap, length_map_to_list.
    destruct (tasks c !! d) as [b|] eqn:Hb; cbn.
    + now apply (Summary_bucket c d).
    + rewrite map_size_empty. lia.
Qed.

(** ** The daily-notes provider *)

Section Daily.

Variable Daily : Type.
Variable NewDaily : string -> string -> Daily.
Variable MetadataKey : string.

Local Abbreviation handle := (daily.handle Daily NewDaily MetadataKey).
Local Abbreviation run := (daily.run Daily NewDaily MetadataKey).
Local Abbreviation notes := (daily.notes Daily).
Local Abbreviation Events := (daily.Events Daily).
Local Abbreviation DailyNoteSummary := (daily.DailyNoteSummary Daily).

Lemma daily_handle_cases (c : daily.DailyClient Daily)
    (event : daily.Operation * daily.Event) :
  notes (handle c event)
  = match fst event with
    | daily.Delete => delete (daily.Key (snd event)) (notes c)
    | _ => if carriesMarker MetadataKey (snd event)
           then <[daily.Key (snd event) :=
                    NewDaily (daily.Key (snd event)) (daily.Checksum (snd event))]>
                  (notes c)
           else notes c
    end
  /\ Events (handle c event)
     = (Events c ++ match announced MetadataKey event with
                    | Some op => [op]
                    | None => []
                    end)%list.
Proof.
  destruct event as [op e]. unfold daily.handle, announced, carriesMarker.
  cbn [fst snd].
  destruct op; unfold daily.onLoad, daily.onChange, daily.onDelete,
    daily.handleChanges, daily.publish;
    try destruct (String.eqb (daily.Type_ e) MetadataKey); cbn;
    rewrite ?app_nil_r; split; reflexivity.
Qed.

Lemma daily_fold (feed : list (daily.Operation * daily.Event))
    (c : daily.DailyClient Daily) (k : string) :
  notes (fold_left handle feed c) !! k
  = fold_left (fun note event =>
                 if String.eqb (daily.Key (snd event)) k then
                   match fst event with
                   | daily.Delete => None
                   | _ => if carriesMarker MetadataKey (snd event)
                          then Some (NewDaily k (daily.Checksum (snd event)))
                          else note
                   end
                 else note) feed (notes c !! k)
  /\ Events (fold_left handle feed c)
     = (Events c ++ omap (announced MetadataKey) feed)%list.
Proof.
  revert c. induction feed as [|event feed IH]; intros c.
  - cbn. now rewrite app_nil_r.
  - cbn [fold_left]. destruct (IH (handle c event)) as [IH1 IH2].
    destruct (daily_handle_cases c event) as [Hn He].
    rewrite IH1, IH2, Hn, He. split.
    + f_equal. destruct (String.eqb_spec (daily.Key (snd event)) k) as [E|E].
      * destruct (fst event); try destruct (carriesMarker MetadataKey (snd event));
          rewrite ?E, ?lookup_insert_eq, ?lookup_delete_eq; reflexivity.
      * destruct (fst event); try destruct (carriesMarker MetadataKey (snd event));
          rewrite ?lookup_insert_ne, ?lookup_delete_ne by exact E; reflexivity.
    + cbn [omap list_omap]. rewrite <- app_assoc. f_equal.
      destruct (announced MetadataKey event); reflexivity.
Qed.

(** X7: what the daily-notes client holds for a path after a feed depends
    on the events for that path alone: it is the note of the last load or
    change of a document carrying the marker, unless a delete came later;
    loads and changes of documents without the marker change nothing, not
    even a note already held.  The events published are one per feed event,
    in order: a Delete for every delete, whether or not a note was held, and
    a Load or Change for those with the marker only. *)
Theorem daily_feed_per_path (feed : list (daily.Operation * daily.Event))
    (k : string) :
  notes (run feed) !! k = stored NewDaily MetadataKey k feed
  /\ Events (run feed) = omap (announced MetadataKey) feed.
Proof.
  unfold daily.run, stored.
  destruct (daily_fold feed {| daily.notes := ∅; daily.Events := [] |} k)
    as [H1 H2].
  rewrite H1, H2. cbn [daily.notes daily.Events]. now rewrite lookup_empty.
Qed.

Lemma daily_summary_step (c : daily.DailyClient Daily)
    (event : daily.Operation * daily.Event) :
  DailyNoteSummary (handle c event)
  = match fst event with
    | daily.Delete => DailyNoteSummary c - held c (daily.Key (snd event))
    | _ => if carriesMarker MetadataKey (snd event)
           then DailyNoteSummary c + (1 - held c (daily.Key (snd event)))
           else DailyNoteSummary c
    end.
Proof.
  unfold daily.DailyNoteSummary, held.
  destruct (daily_handle_cases c event) as [-> _].
  destruct (fst event); try destruct (carriesMarker MetadataKey (snd event));
    rewrite ?map_size_insert, ?map_size_delete;
    destruct (notes c !! daily.Key (snd event)); cbn; lia.
Qed.

Lemma daily_summary_fold (feed : list (daily.Operation * daily.Event))
    (c : daily.DailyClient Daily) :
  DailyNoteSummary (fold_left handle feed c)
  <= DailyNoteSummary c + length (List.filter (stores MetadataKey) feed).
Proof.
  revert c. induction feed as [|event feed IH]; intros c; [cbn; lia|].
  cbn [fold_left List.filter]. specialize (IH (handle c event)).
  rewrite daily_summary_step in IH. unfold stores, held in *.
  destruct (fst event); try destruct (carriesMarker MetadataKey (snd event));
    destruct (notes c !! daily.Key (snd event)); cbn [length] in *; lia.
Qed.

(** X8: [DailyNoteSummary] counts paths, not events: a load or change of a
    document with the marker adds one when no note was held for its path
    and nothing when one was; a delete takes one away when a note was held
    and nothing otherwise; and after a feed the summary is at most the
    number of loads and changes of documents with the marker. *)
Theorem daily_summary_counts_paths (c : daily.DailyClient Daily)
    (event : daily.Operation * daily.Event)
    (feed : list (daily.Operation * daily.Event)) :
  DailyNoteSummary (handle c event)
  = match fst event with
    | daily.Delete => DailyNoteSummary c - held c (daily.Key (snd event))
    | _ => if carriesMarker MetadataKey (snd event)
           then DailyNoteSummary c + (1 - held c (daily.Key (snd event)))
           else DailyNoteSummary c
    end
  /\ DailyNoteSummary (run feed) <= length (List.filter (stores MetadataKey) feed).
Proof.
  split; [apply daily_summary_step|].
  unfold daily.run.
  pose proof (daily_summary_fold feed {| daily.notes := ∅; daily.Events := [] |}) as H.
  unfold daily.DailyNoteSummary in *. cbn [daily.notes] in H.
  rewrite map_size_empty in H. exact H.
Qed.

End Daily.

(** ** Scans *)

Lemma dropS_nil (n : nat) : dropS n "" = "".
Proof. now destruct n. Qed.

Lemma get_dropS (n : nat) (s : string) :
  String.get n s = match dropS n s with String c _ => Some c | "" => None end.
Proof.
  revert s. induction n as [|n IH]; intros [|c s]; try reflexivity. apply IH.
Qed.

Lemma length_dropS (n : nat) (s : string) :
  String.length (dropS n s) = String.length s - n.
Proof.
  revert s. induction n as [|n IH]; intros [|c s]; cbn; try lia. apply IH.
Qed.

Lemma substring_dropS (n k : nat) (s : string) :
  substring n k s = takeS k (dropS n s).
Proof.
  revert k s. induction n as [|n IH]; intros k s.
  - cbn [dropS]. revert k. induction s as [|c s IHs]; intros [|k]; cbn;
      try reflexivity. now rewrite IHs.
  - destruct s as [|c s]; [now destruct k|]. cbn. apply IH.
Qed.

Lemma prefix_takeS (m r : string) :
  String.prefix m r = String.eqb m (takeS (String.length m) r)
                      && (String.length m <=? String.length r)%nat.
Proof.
  revert r. induction m as [|a m IH]; intros [|b r]; cbn; try reflexivity.
  rewrite IH. destruct (Ascii.eqb_spec a b) as [->|Hab].
  - destruct (ascii_dec b b); [|contradiction]. reflexivity.
  - destruct (ascii_dec a b); [contradiction|]. reflexivity.
Qed.

Lemma remaining_at (k : nat) (inp : Input) :
  remaining (at_ (charIndex inp + k) inp)
  = dropS k (remaining inp).
Proof.
  unfold remaining. cbn [charIndex str at_].
  generalize (str inp) as s. induction (charIndex inp) as [|n IH]; intros s.
  - reflexivity.
  - destruct s as [|c s]; [cbn; now rewrite !dropS_nil | apply IH].
Qed.

Lemma nextByte_remaining (inp : Input) :
  nextByte inp = match remaining inp with String c _ => Some c | "" => None end.
Proof. apply get_dropS. Qed.

(** A literal matches exactly when it starts what is left. *)
Lemma String__remaining (m : string) (inp : Input) :
  within inp ->
  String_ m inp
  = if String.prefix m (remaining inp)
    then (Match m, at_ (charIndex inp + String.length m) inp)
    else (NoMatch, inp).
Proof.
  unfold within. intros W.
  rewrite String__spec, prefix_takeS. unfold Peek, remaining.
  rewrite length_dropS, substring_dropS.
  destruct (Nat.ltb_spec (String.length (str inp))
              (charIndex inp + String.length m)) as [H|H]; cbn [fst snd andb].
  - destruct (Nat.leb_spec (String.length m)
                (String.length (str inp) - charIndex inp)); [lia|].
    now rewrite andb_false_r.
  - destruct (Nat.leb_spec (String.length m)
                (String.length (str inp) - charIndex inp)); [|lia].
    now rewrite andb_true_r.
Qed.

Lemma decides_ext {T} (d : Parser T) (stop stop' : string -> bool) :
  (forall r, stop r = stop' r) -> decides d stop -> decides d stop'.
Proof. intros E H inp W. rewrite <- E. now apply H. Qed.

Lemma decides_String (m : string) : decides (String_ m) (String.prefix m).
Proof.
  intros inp W. rewrite (String__remaining m inp W).
  destruct (String.prefix m (remaining inp)); [|reflexivity].
  eexists _, _. split; reflexivity.
Qed.

Lemma decides_none {T} : decides (Any (@nil (Parser T))) (fun _ => false).
Proof. intros inp W. reflexivity. Qed.

Lemma decides_Any_cons {T} (p : Parser T) (ps : list (Parser T))
    (s1 s2 : string -> bool) :
  decides p s1 -> decides (Any ps) s2 ->
  decides (Any (p :: ps)) (fun r => s1 r || s2 r).
Proof.
  intros H1 H2 inp W. specialize (H1 inp W). specialize (H2 inp W). cbn [Any].
  destruct (s1 (remaining inp)); cbn [orb].
  - destruct H1 as (x & inp' & -> & E). eauto.
  - rewrite H1. exact H2.
Qed.

Lemma decides_literals (ms : list string) :
  decides (Any (map String_ ms)) (literalAt ms).
Proof.
  induction ms as [|m ms IH]; [apply decides_none|].
  exact (decides_Any_cons _ _ _ _ (decides_String m) IH).
Qed.

Lemma decides_EOF : decides (EOF "") (fun r => String.eqb r "").
Proof.
  intros inp W. unfold EOF. rewrite Peek_one, nextByte_remaining.
  destruct (remaining inp); cbn; [|reflexivity]. eauto.
Qed.

Lemma decides_NewLineOrEOF : decides parsers.NewLineOrEOF lineEnd.
Proof.
  unfold parsers.NewLineOrEOF, lineEnd.
  eapply decides_ext; [|apply decides_Any_cons;
                         [apply (decides_literals [_; _])
                         |apply decides_Any_cons; [apply decides_EOF | apply decides_none]]].
  intros r. cbn. destruct (String.prefix _ r), (String.prefix _ r), (String.eqb r "");
    reflexivity.
Qed.

(** The scan of a field: up to the first spelling of its key or the end of
    the line. *)
Lemma decides_key_or_end (ms : list string) :
  decides (Any [Any (map String_ ms); parsers.NewLineOrEOF])
          (fun r => literalAt ms r || lineEnd r).
Proof.
  eapply decides_ext; [|apply decides_Any_cons;
                         [apply decides_literals
                         |apply decides_Any_cons;
                            [apply decides_NewLineOrEOF | apply decides_none]]].
  intros r. cbn. now rewrite orb_false_r.
Qed.

Lemma scanWith_le (stop : string -> bool) (r : string) :
  scanWith stop r <= String.length r.
Proof.
  induction r as [|c r IH]; cbn; destruct (stop _); cbn; lia.
Qed.

Lemma within_remaining (inp : Input) (c : ascii) (r : string) :
  within inp -> remaining inp = String c r ->
  within (at_ (charIndex inp + 1) inp)
  /\ remaining (at_ (charIndex inp + 1) inp) = r
  /\ snd (Take 1 inp) = at_ (charIndex inp + 1) inp
  /\ snd (fst (Take 1 inp)) = true.
Proof.
  intros W E. pose proof (length_dropS (charIndex inp) (str inp)) as L.
  fold (remaining inp) in L. rewrite E in L. cbn in L.
  split; [unfold within in *; cbn; lia|].
  split; [now rewrite remaining_at, E|].
  unfold Take. destruct (Nat.ltb_spec (String.length (str inp)) (charIndex inp + 1));
    [lia | split; reflexivity].
Qed.

Lemma untilLoop_scan {T} (d : Parser T) (stop : string -> bool) :
  decides d stop -> stop "" = true ->
  forall r fuel inp start,
    within inp -> remaining inp = r -> String.length r < fuel ->
    untilLoop fuel d start inp
    = (Match (charIndex inp + scanWith stop r),
       at_ (charIndex inp + scanWith stop r) inp).
Proof.
  intros Hd Hnil. induction r as [|c r IH]; intros fuel inp start W E Hf;
    (destruct fuel as [|fuel]; [cbn in Hf; lia|]); cbn [untilLoop];
    specialize (Hd inp W); rewrite E in Hd; cbn [scanWith].
  - rewrite Hnil in *. destruct Hd as (x & inp' & -> & Es).
    unfold Index. rewrite Nat.add_0_r. f_equal. unfold at_. now rewrite Es.
  - destruct (stop (String c r)).
    + destruct Hd as (x & inp' & -> & Es).
      unfold Index. rewrite Nat.add_0_r. f_equal. unfold at_. now rewrite Es.
    + rewrite Hd.
      destruct (within_remaining inp c r W E) as (W' & E' & HT & Hok).
      destruct (Take 1 inp) as [[m ok] inp1]. cbn [fst snd] in HT, Hok.
      subst ok inp1. rewrite (IH fuel _ start W' E') by (cbn in Hf; lia).
      cbn [charIndex at_ str]. rewrite at_at.
      replace (charIndex inp + 1 + scanWith stop r)
        with (charIndex inp + S (scanWith stop r)) by lia.
      reflexivity.
Qed.

(** [StringUntil] with a delimiter decided by [stop], which holds at the end
    of the input: it always matches, returning the bytes in front of the
    first place where [stop] holds and leaving the cursor there. *)
Lemma StringUntil_scan {T} (d : Parser T) (stop : string -> bool) (inp : Input) :
  decides d stop -> stop "" = true -> within inp ->
  StringUntil d inp
  = (Match (takeS (scanWith stop (remaining inp)) (remaining inp)),
     at_ (charIndex inp + scanWith stop (remaining inp)) inp).
Proof.
  intros Hd Hnil W. unfold StringUntil, Index.
  rewrite (untilLoop_scan d stop Hd Hnil (remaining inp) (budget inp) inp
             (charIndex inp) W eq_refl).
  2:{ unfold budget, remaining. rewrite length_dropS. lia. }
  set (k := scanWith stop (remaining inp)).
  assert (k <= String.length (str inp) - charIndex inp) as Hk.
  { unfold k. rewrite <- length_dropS. apply scanWith_le. }
  replace (charIndex inp + k - charIndex inp) with k by lia.
  rewrite at_at. unfold Take. cbn [charIndex str at_].
  unfold within in W.
  destruct (Nat.ltb_spec (String.length (str inp)) (charIndex inp + k)); [lia|].
  rewrite substring_dropS. reflexivity.
Qed.

(** ** The parsers move the cursor and nothing else *)

Lemma steady_ret {T} (x : T) : steady (ret x).
Proof. intros inp. reflexivity. Qed.

Lemma steady_noMatch {T} : steady (@noMatch T).
Proof. intros inp. reflexivity. Qed.

Lemma steady_fail {T} (e : error) : steady (@fail T e).
Proof. intros inp. reflexivity. Qed.

Lemma steady_bind {A B} (p : Parser A) (k : A -> Parser B) :
  steady p -> (forall x, steady (k x)) -> steady (bind p k).
Proof.
  intros Hp Hk inp. unfold bind. specialize (Hp inp).
  destruct (p inp) as [[x| |e] inp1]; cbn [snd] in *; [rewrite Hk|..]; exact Hp.
Qed.

Lemma steady_attempt {A B} (p : Parser A) (k : option A -> Parser B) :
  steady p -> (forall x, steady (k x)) -> steady (attempt p k).
Proof.
  intros Hp Hk inp. unfold attempt. specialize (Hp inp).
  destruct (p inp) as [[x| |e] inp1]; cbn [snd] in *;
    [rewrite Hk | rewrite Hk |]; exact Hp.
Qed.

Lemma steady_dump {A B} (p : Parser A) (k : Parser B) :
  steady p -> steady k -> steady (dump p k).
Proof. intros Hp Hk inp. unfold dump. now rewrite Hk. Qed.

Lemma steady_EOF {T} (zero : T) : steady (EOF zero).
Proof. intros inp. unfold EOF. now destruct (snd (Peek 1 inp)). Qed.

Lemma steady_NewLineOrEOF : steady parsers.NewLineOrEOF.
Proof.
  apply steady_Any. repeat constructor; [|apply steady_EOF].
  apply (steady_literals [_; _]).
Qed.

Lemma steady_digits (n : nat) : steady (parsers.digits n).
Proof.
  intros inp. destruct (digits_cases n inp) as [(m & -> & _) | ->]; reflexivity.
Qed.

Lemma steady_YearMonthDay : steady parsers.YearMonthDay.
Proof.
  intros inp. unfold parsers.YearMonthDay.
  match goal with |- context [match ?p inp with _ => _ end] =>
    assert (steady p) as Hp end.
  { repeat (apply steady_bind; [first [apply steady_digits | apply steady_RuneWhere]
                               |intros ?]).
    destruct (time.validDate _ _ _); [apply steady_ret | apply steady_noMatch]. }
  specialize (Hp inp).
  match goal with |- context [match ?p inp with _ => _ end] =>
    destruct (p inp) as [[t| |e] inp1] end; cbn [snd] in *; exact Hp.
Qed.

Lemma steady_shortKeyGuard (b : bool) : steady (shortKeyGuard b).
Proof.
  intros inp. unfold shortKeyGuard. destruct b; [|reflexivity].
  pose proof (steady_Seek (Z.of_nat (Index inp) - 3) inp) as H.
  destruct (Seek (Z.of_nat (Index inp) - 3) inp) as [sought inp1]. cbn [snd] in H.
  destruct (_ && _); cbn [snd]; [exact H | now rewrite steady_Seek].
Qed.

Lemma steady_keyed {T} (long short : string) (value : Parser T) :
  steady value -> steady (keyed long short value).
Proof.
  intros Hv. unfold keyed.
  apply steady_dump; [apply steady_AtLeast, steady_RuneWhere|].
  apply steady_attempt; [apply steady_String | intros longOk].
  apply steady_attempt; [apply steady_String | intros shortOk].
  apply steady_bind; [apply steady_shortKeyGuard | intros _].
  destruct (_ && _); [apply steady_noMatch | exact Hv].
Qed.

Lemma steady_word {T} (table : list (string * T)) : steady (parsers.word table).
Proof.
  intros inp. destruct (word_cases table inp) as [(w & v & _ & -> & _) | ->];
    reflexivity.
Qed.

Lemma steady_moreDays (fuel : nat) (acc : list time.Weekday) :
  steady (parsers.moreDays fuel acc).
Proof.
  revert acc. induction fuel as [|fuel IH]; intros acc inp; [reflexivity|].
  cbn [parsers.moreDays].
  assert (steady (let! _ := parsers.listDelimiter in parsers.DayOfWeek)) as Hp.
  { apply steady_bind; [apply (steady_literals [_; _; _]) | intros _].
    apply steady_word. }
  specialize (Hp inp).
  destruct ((let! _ := parsers.listDelimiter in parsers.DayOfWeek) inp)
    as [[d| |e] inp1]; cbn [snd] in *; try reflexivity.
  now rewrite IH.
Qed.

Lemma steady_DaysOfWeek : steady parsers.DaysOfWeek.
Proof.
  apply steady_bind; [apply steady_word | intros d inp]. apply steady_moreDays.
Qed.

Lemma steady_SequenceOf3 {A B C} (a : Parser A) (b : Parser B) (c : Parser C) :
  steady a -> steady b -> steady c -> steady (SequenceOf3 a b c).
Proof.
  intros Ha Hb Hc inp. unfold SequenceOf3.
  specialize (Ha inp). destruct (a inp) as [[x| |e] inp1]; cbn [snd str at_] in *;
    try exact Ha.
  specialize (Hb inp1). destruct (b inp1) as [[y| |e] inp2]; cbn [snd str at_] in *;
    try congruence.
  specialize (Hc inp2). destruct (c inp2) as [[z| |e] inp3]; cbn [snd str at_] in *;
    congruence.
Qed.

Lemma steady_buildResult (start : nat) (o : rrule.ROption) :
  steady (buildResult start o).
Proof.
  intros inp. unfold buildResult. destruct (rrule.NewRRule o); [|reflexivity].
  pose proof (steady_Take (Index inp - start) (snd (Seek (Z.of_nat start) inp)))
    as H.
  rewrite steady_Seek in H.
  destruct (Take _ _) as [[m [|]] inp1]; exact H.
Qed.

Lemma steady_optionalDelimiter : steady optionalDelimiter.
Proof.
  intros inp. unfold optionalDelimiter, Optional, Rune.
  pose proof (steady_RuneWhere (Ascii.eqb " ") inp) as H.
  destruct (RuneWhere _ inp) as [[x| |e] inp1]; exact H.
Qed.

Lemma steady_MonthDay : steady parsers.MonthDay.
Proof.
  intros inp. destruct (MonthDay_cases inp) as [(v & inp' & -> & _ & E & _) | ->];
    [exact E | reflexivity].
Qed.

Lemma steady_MonthOfYear : steady parsers.MonthOfYear.
Proof. apply steady_word. Qed.

Lemma steady_monthScan (fuel : nat) (o : rrule.ROption) : steady (monthScan fuel o).
Proof.
  revert o. induction fuel as [|fuel IH]; intros o inp; [reflexivity|].
  cbn [monthScan].
  pose proof (steady_optionalDelimiter inp) as H1.
  set (inp1 := snd (optionalDelimiter inp)) in *.
  pose proof (steady_MonthDay inp1) as H2.
  destruct (parsers.MonthDay inp1) as [md inp2]. cbn [snd] in H2.
  pose proof (steady_optionalDelimiter inp2) as H3.
  pose proof (steady_MonthOfYear (snd (optionalDelimiter inp2))) as H4.
  assert (str inp2 = str inp) as H12 by congruence.
  assert (str (snd (parsers.MonthOfYear (snd (optionalDelimiter inp2)))) = str inp)
    as H by congruence.
  clear H1 H2 H3 H4.
  destruct md as [d| |e]; cbv zeta; [| |exact H12];
    destruct (parsers.MonthOfYear _) as [[m| |e'] inp4]; cbn [snd] in *;
    try exact H; now rewrite IH.
Qed.

Lemma steady_everyRule (relativeTo : time.Time) : steady (everyRule relativeTo).
Proof.
  intros inp. unfold everyRule. generalize (Index inp) as start. intros start.
  revert inp. apply steady_attempt.
  { apply steady_Any. repeat constructor;
      first [apply steady_String | apply (steady_literals [_; _])]. }
  intros [single|]; [apply steady_buildResult|].
  apply steady_attempt; [apply steady_DaysOfWeek|].
  intros [days|]; [apply steady_buildResult|].
  apply steady_attempt.
  { apply steady_SequenceOf3.
    - apply steady_StringFrom, steady_AtLeast, steady_RuneWhere.
    - apply steady_String.
    - apply steady_Any. repeat constructor; apply (steady_literals [_; _]). }
  intros [[[n sp] unit]|]; [apply steady_buildResult|].
  apply steady_bind; [intros inp0; apply steady_monthScan | intros o].
  destruct (_ || _); [|apply steady_noMatch].
  destruct (_ =? _)%nat; apply steady_buildResult.
Qed.

Lemma steady_everyParser (relativeTo : time.Time) : steady (everyParser relativeTo).
Proof. apply (steady_keyed "every:" "e:"), steady_everyRule. Qed.

Lemma steady_dueParser : steady dueParser.
Proof. apply (steady_keyed "due:" "d:"), steady_YearMonthDay. Qed.

Lemma steady_scheduledParser : steady scheduledParser.
Proof. apply (steady_keyed "scheduled:" "s:"), steady_YearMonthDay. Qed.

Lemma steady_completedParser : steady completedParser.
Proof.
  apply steady_bind; [apply (steady_literals [_]) | intros _].
  apply steady_YearMonthDay.
Qed.

Lemma steady_priorityParser : steady priorityParser.
Proof.
  apply (steady_keyed "priority:" "p:").
  apply steady_bind; [apply steady_StringFrom, steady_AtLeast, steady_RuneWhere|].
  intros m. destruct (Atoi m) as [v [|]]; [apply steady_ret | apply steady_fail].
Qed.

(** ** The line as a whole *)

Lemma keyStop_nil (ms : list string) : keyStop ms "" = true.
Proof. unfold keyStop. apply orb_true_r. Qed.

Lemma scan_within (stop : string -> bool) (inp : Input) :
  within inp -> within (at_ (charIndex inp + scanWith stop (remaining inp)) inp).
Proof.
  unfold within. intros W. cbn [charIndex str at_].
  pose proof (scanWith_le stop (remaining inp)) as H.
  unfold remaining in H at 2. rewrite length_dropS in H. lia.
Qed.

(** The block of a field, at the cursor [c] it is entered with: the field's
    parser runs where the scan stops, a key or the end of the line, and the
    cursor is back at [c] afterwards. *)
Lemma field_Match {T} (ms : list string) (p : Parser T) (c c1 : Input)
    (v : option T) :
  within c -> steady p ->
  field (Any (map String_ ms)) p (Index c) c = (Match v, c1) ->
  c1 = c /\ v = valueOf (fst (p (keyFound ms c))).
Proof.
  intros W Hp. unfold field, attempt, Index.
  rewrite (StringUntil_scan _ (keyStop ms) c (decides_key_or_end ms)
             (keyStop_nil ms) W).
  cbn [isOk]. fold (keyFound ms c). specialize (Hp (keyFound ms c)).
  destruct (p (keyFound ms c)) as [[x| |e] c']; cbn [snd fst valueOf] in *;
    try discriminate.
  all: rewrite Seek_spec by (rewrite Hp; exact W); cbn [snd].
  all: intros [= <- <-]; split; [apply at_same; exact Hp | reflexivity].
Qed.

Lemma decides_fieldKeys :
  decides (Any [anyFieldKey; parsers.NewLineOrEOF]) (keyStop fieldKeys).
Proof.
  unfold anyFieldKey, keyStop.
  eapply decides_ext;
    [|apply decides_Any_cons;
       [apply decides_Any_cons; [apply (decides_literals [_; _])|];
        apply decides_Any_cons; [apply (decides_literals [_; _])|];
        apply decides_Any_cons; [apply (decides_literals [_; _])|];
        apply decides_Any_cons; [apply (decides_literals [_; _])|];
        apply decides_Any_cons; [apply (decides_literals [_]) | apply decides_none]
       |apply decides_Any_cons; [apply decides_NewLineOrEOF | apply decides_none]]].
  intros r. unfold literalAt, fieldKeys. cbn [existsb].
  rewrite ?orb_false_r, ?orb_assoc. reflexivity.
Qed.

Lemma StringFrom_within {T} (p : Parser T) (inp inp' : Input) (m : string) :
  StringFrom p inp = (Match m, inp') -> within inp'.
Proof.
  unfold StringFrom. destruct (p inp) as [[x| |e] inp1]; try discriminate.
  unfold Take.
  destruct (Nat.ltb_spec (String.length (str (snd (Seek (Z.of_nat (Index inp)) inp1))))
              (charIndex (snd (Seek (Z.of_nat (Index inp)) inp1))
               + (Index inp1 - Index inp))); [discriminate|].
  intros [= _ <-]. exact H.
Qed.

Lemma statusParser_ahead (inp inp' : Input) (s : Status) :
  statusParser inp = (Match s, inp') -> ahead 4 inp inp'.
Proof.
  unfold statusParser, Rune, RuneIn. intros H.
  apply bind_Match in H as (? & i1 & E1 & H).
  apply bind_Match in H as (? & i2 & E2 & H).
  apply bind_Match in H as (? & i3 & E3 & H).
  apply bind_Match in H as (? & i4 & E4 & H).
  injection H as _ <-.
  destruct (RuneWhere_cases (Ascii.eqb "[") inp) as [(? & Ea & _ & _ & A1) | Ea];
    rewrite Ea in E1; [injection E1 as _ <- | discriminate].
  destruct (RuneWhere_cases (fun c => inb c " xX/bBaA") (at_ (charIndex inp + 1) inp))
    as [(? & Eb & _ & _ & A2) | Eb];
    rewrite Eb in E2; [injection E2 as _ <- | discriminate].
  pose proof (ahead_trans _ _ _ _ _ A1 A2) as A12.
  match type of E3 with RuneWhere _ ?i = _ =>
    destruct (RuneWhere_cases (Ascii.eqb "]") i) as [(? & Ec & _ & _ & A3) | Ec];
      rewrite Ec in E3; [injection E3 as _ <- | discriminate] end.
  pose proof (ahead_trans _ _ _ _ _ A12 A3) as A123.
  match type of E4 with RuneWhere _ ?i = _ =>
    destruct (RuneWhere_cases (Ascii.eqb " ") i) as [(? & Ed & _ & _ & A4) | Ed];
      rewrite Ed in E4; [injection E4 as _ <- | discriminate] end.
  exact (ahead_trans _ _ _ _ _ A123 A4).
Qed.

(** What a line that parses as a task is made of. *)
Lemma ParseTask_Match (path checksum : string) (relativeTo : time.Time)
    (inp inp' : Input) (t : Task) :
  within inp ->
  ParseTask path checksum relativeTo inp = (Match t, inp') ->
  exists status,
    within (nameCursor inp)
    /\ within (fieldsCursor inp)
    /\ fst (statusParser (snd (listItemOpen inp))) = Match status
    /\ t = NewTask
             (NewIdentifier path checksum (Z.of_nat (PositionLine inp) + 1))
             (TrimSpace (takeS (scanWith (keyStop fieldKeys)
                                         (remaining (nameCursor inp)))
                               (remaining (nameCursor inp))))
             status
             (opt WithDue
                  (valueOf (fst (dueParser (keyFound ["due:"; "d:"]
                                                     (fieldsCursor inp))))) ++
              opt WithScheduled
                  (valueOf (fst (scheduledParser (keyFound ["scheduled:"; "s:"]
                                                           (fieldsCursor inp))))) ++
              opt WithCompleted
                  (valueOf (fst (completedParser (keyFound ["completed:"]
                                                           (fieldsCursor inp))))) ++
              opt WithPriority
                  (valueOf (fst (priorityParser (keyFound ["priority:"; "p:"]
                                                          (fieldsCursor inp))))) ++
              opt WithEvery
                  (valueOf (fst (everyParser relativeTo
                                   (keyFound ["every:"; "e:"]
                                             (fieldsCursor inp))))))%list
    /\ inp' = snd (parsers.NewLineOrEOF
                     (snd (StringUntil parsers.NewLineOrEOF (fieldsCursor inp))))
    /\ exists m, listItemOpen inp = (Match m, snd (listItemOpen inp)).
Proof.
  intros W H. unfold ParseTask in H.
  apply bind_Match in H as (m & i1 & E1 & H).
  apply bind_Match in H as (status & i2 & E2 & H).
  apply bind_Match in H as (name & i3 & E3 & H). cbv beta zeta in H.
  pose proof (StringFrom_within _ _ _ _ E1) as W1.
  pose proof (statusParser_ahead _ _ _ E2) as (_ & _ & W2).
  assert (nameCursor inp = i2) as En
    by (unfold nameCursor; rewrite E1; cbn [snd]; now rewrite E2).
  assert (fst (statusParser (snd (listItemOpen inp))) = Match status) as Est
    by (rewrite E1; cbn [snd]; now rewrite E2).
  rewrite (StringUntil_scan _ (keyStop fieldKeys) i2 decides_fieldKeys eq_refl W2)
    in E3.
  injection E3 as <- <-.
  unfold fieldsCursor. rewrite En. fold (keyFound fieldKeys i2) in *.
  pose proof (scan_within (keyStop fieldKeys) i2 W2) as W3.
  fold (keyFound fieldKeys i2) in W3.
  set (c := keyFound fieldKeys i2) in *.
  apply bind_Match in H as (due & c1 & F1 & H).
  apply (field_Match [_; _] dueParser c c1 due W3 steady_dueParser) in F1
    as [-> ->].
  apply bind_Match in H as (scheduled & c2 & F2 & H).
  apply (field_Match [_; _] scheduledParser c c2 scheduled W3
           steady_scheduledParser) in F2 as [-> ->].
  apply bind_Match in H as (completed & c3 & F3 & H).
  apply (field_Match [_] completedParser c c3 completed W3
           steady_completedParser) in F3 as [-> ->].
  apply bind_Match in H as (priority & c4 & F4 & H).
  apply (field_Match [_; _] priorityParser c c4 priority W3
           steady_priorityParser) in F4 as [-> ->].
  apply bind_Match in H as (every & c5 & F5 & H).
  apply (field_Match [_; _] (everyParser relativeTo) c c5 every W3
           (steady_everyParser relativeTo)) in F5 as [-> ->].
  unfold dump, ret in H. injection H as <- <-.
  exists status. repeat (split; [first [exact W2 | exact W3 | exact Est]|]).
  split; [reflexivity|]. split; [reflexivity|].
  exists m. now rewrite E1.
Qed.

(** ** Runs of bytes *)

Lemma at_here (inp : Input) : at_ (charIndex inp) inp = inp.
Proof. now destruct inp. Qed.

Lemma at_zero (inp : Input) : at_ (charIndex inp + 0) inp = inp.
Proof. rewrite Nat.add_0_r. apply at_here. Qed.

Lemma prefix_nil (r : string) : String.prefix "" r = true.
Proof. now destruct r. Qed.

Lemma prefix_split (m r : string) :
  String.prefix m r = true -> r = m ++ dropS (String.length m) r.
Proof.
  revert r. induction m as [|a m IH]; intros r.
  - intros _. now rewrite append_nil_l.
  - destruct r as [|b r]; cbn [String.prefix]; [discriminate|].
    destruct (ascii_dec a b) as [->|]; [|discriminate].
    intros H. rewrite append_cons. cbn [String.length dropS]. f_equal. now apply IH.
Qed.

Lemma length_run_le (f : ascii -> bool) (r : string) :
  String.length (run f r) <= String.length r.
Proof. induction r as [|c r IH]; cbn; [lia|]. destruct (f c); cbn; lia. Qed.

Lemma takeS_run (f : ascii -> bool) (r : string) :
  takeS (String.length (run f r)) r = run f r.
Proof.
  induction r as [|c r IH]; cbn; [reflexivity|].
  destruct (f c); cbn; [now rewrite IH | reflexivity].
Qed.

Lemma length_list_ascii (s : string) :
  length (list_ascii_of_string s) = String.length s.
Proof. induction s as [|c s IH]; cbn; [reflexivity | now rewrite IH]. Qed.

(** The loop of [Times] over a rune parser reads the longest run of bytes the
    parser accepts, and never uses up its budget. *)
Lemma timesLoop_run (f : ascii -> bool) :
  forall r fuel acc inp,
    within inp -> remaining inp = r -> String.length r < fuel ->
    timesLoop fuel (RuneWhere f) acc inp
    = (Match (acc ++ map str1 (list_ascii_of_string (run f r)))%list,
       at_ (charIndex inp + String.length (run f r)) inp).
Proof.
  induction r as [|c r IH]; intros fuel acc inp W E Hf;
    (destruct fuel as [|fuel]; [cbn in Hf; lia|]); cbn [timesLoop];
    rewrite RuneWhere_spec, nextByte_remaining, E.
  - cbn. now rewrite app_nil_r, at_zero.
  - cbn [run]. destruct (f c).
    + destruct (within_remaining inp c r W E) as (W' & E' & _ & _).
      rewrite (IH fuel _ _ W' E') by (cbn in Hf; lia).
      cbn [list_ascii_of_string map String.length charIndex at_ str].
      rewrite at_at, <- app_assoc. cbn [app].
      replace (charIndex inp + 1 + String.length (run f r))
        with (charIndex inp + S (String.length (run f r))) by lia.
      reflexivity.
    + cbn. now rewrite app_nil_r, at_zero.
Qed.

Lemma AtLeast_run (f : ascii -> bool) (min : nat) (inp : Input) :
  within inp ->
  AtLeast min (RuneWhere f) inp
  = if (min <=? String.length (run f (remaining inp)))%nat
    then (Match (map str1 (list_ascii_of_string (run f (remaining inp)))),
          at_ (charIndex inp + String.length (run f (remaining inp))) inp)
    else (NoMatch, inp).
Proof.
  intros W. unfold AtLeast.
  rewrite (timesLoop_run f (remaining inp) (budget inp) [] inp W eq_refl).
  2:{ unfold budget, remaining. rewrite length_dropS. lia. }
  cbn [app]. rewrite length_map, length_list_ascii.
  destruct (_ <=? _)%nat; [reflexivity|].
  unfold Index. rewrite Seek_spec by exact W. cbn [snd]. now rewrite at_at, at_here.
Qed.

(** The text of the longest run, through [StringFrom]. *)
Lemma StringFrom_run (f : ascii -> bool) (min : nat) (inp : Input) :
  within inp ->
  StringFrom (AtLeast min (RuneWhere f)) inp
  = if (min <=? String.length (run f (remaining inp)))%nat
    then (Match (run f (remaining inp)),
          at_ (charIndex inp + String.length (run f (remaining inp))) inp)
    else (NoMatch, inp).
Proof.
  intros W. unfold StringFrom. rewrite (AtLeast_run f min inp W).
  pose proof (length_run_le f (remaining inp)) as Hle.
  unfold remaining in Hle at 2. rewrite length_dropS in Hle.
  destruct (_ <=? _)%nat.
  - unfold Index. cbn [charIndex at_ str].
    rewrite Seek_spec by exact W. cbn [snd]. rewrite at_at, at_here.
    replace (charIndex inp + String.length (run f (remaining inp)) - charIndex inp)
      with (String.length (run f (remaining inp))) by lia.
    unfold Take. unfold within in W.
    destruct (Nat.ltb_spec (String.length (str inp))
                (charIndex inp + String.length (run f (remaining inp)))); [lia|].
    rewrite substring_dropS. fold (remaining inp). now rewrite takeS_run.
  - unfold Index. rewrite Seek_spec by exact W. cbn [snd]. now rewrite at_here.
Qed.

Lemma InlineWhitespaceRunes_run (inp : Input) :
  within inp ->
  snd (parsers.InlineWhitespaceRunes inp)
  = at_ (charIndex inp
         + String.length (run (fun c => inb c parsers.inlineWhitespace)
                              (remaining inp))) inp.
Proof.
  intros W. unfold parsers.InlineWhitespaceRunes, ZeroOrMore, RuneIn.
  now rewrite (AtLeast_run _ 0 inp W).
Qed.

(** ** Keys inside keys *)

Lemma dropS_add (n k : nat) (s : string) : dropS (n + k) s = dropS k (dropS n s).
Proof. exact (remaining_at k {| str := s; charIndex := n |}). Qed.

Lemma scanWith_skip (stop : string -> bool) (c : ascii) (r : string) :
  stop (String c r) = false -> scanWith stop (String c r) = S (scanWith stop r).
Proof. intros H. cbn [scanWith]. now rewrite H. Qed.

Lemma scanWith_stop (stop : string -> bool) (r : string) :
  stop r = true -> scanWith stop r = 0.
Proof. intros H. destruct r; cbn [scanWith]; now rewrite H. Qed.

Lemma prefix_append (m rest : string) : String.prefix m (m ++ rest) = true.
Proof.
  induction m as [|a m IH]; [rewrite append_nil_l; apply prefix_nil|].
  rewrite append_cons. cbn [String.prefix].
  destruct (ascii_dec a a); [exact IH | contradiction].
Qed.

Lemma keyStop_here (m : string) (ms : list string) (rest : string) :
  In m ms -> keyStop ms (m ++ rest) = true.
Proof.
  intros H. unfold keyStop, literalAt. apply orb_true_iff. left.
  apply existsb_exists. exists m. split; [exact H | apply prefix_append].
Qed.

(** A short key that closes a longer word: the field parser run on it
    reports no match. *)
Lemma embedded_short_key {T} (long : string) (a b pre : ascii) (value : Parser T)
    (kf : Input) (rest : string) (i : nat) :
  within kf ->
  remaining kf = String a (String b rest) ->
  inb a parsers.inlineWhitespace = false ->
  String.prefix long (String a (String b rest)) = false ->
  charIndex kf = S i -> String.get i (str kf) = Some pre ->
  Ascii.eqb pre " " = false ->
  fst (keyed long (String a (String b "")) value kf) = NoMatch.
Proof.
  intros W E Hws Hlong Hi Hget Hpre.
  assert (keyCursor long kf = kf) as Hkc.
  { unfold keyCursor. rewrite (InlineWhitespaceRunes_run kf W), E.
    cbn [run]. rewrite Hws. cbn [String.length]. rewrite at_zero.
    rewrite (String__remaining long kf W), E, Hlong. reflexivity. }
  pose proof (keyed_spec long (String a (String b "")) value kf eq_refl) as K.
  rewrite Hkc in K.
  assert (fst (Peek 2 kf) = String a (String b "")) as Hp.
  { unfold Peek. pose proof (length_dropS (charIndex kf) (str kf)) as L.
    fold (remaining kf) in L. rewrite E in L. cbn [String.length] in L.
    destruct (Nat.ltb_spec (String.length (str kf)) (charIndex kf + 2)); [lia|].
    cbn [fst]. rewrite substring_dropS. fold (remaining kf). now rewrite E. }
  specialize (K Hp).
  assert (afterSpaceOrStart kf = false) as Ha
    by (unfold afterSpaceOrStart; now rewrite Hi, Hget).
  rewrite Ha in K. unfold outcome in K.
  destruct (fst (keyed long _ value kf)); [discriminate | reflexivity | discriminate].
Qed.

(** Behind [due:], the scan for the key of [every] stops at the [e:] that
    ends it, where [everyParser] reports no match. *)
Lemma every_behind_due (relativeTo : time.Time) (c : Input) :
  within c -> String.prefix "due:" (remaining c) = true ->
  fst (everyParser relativeTo (keyFound ["every:"; "e:"] c)) = NoMatch.
Proof.
  intros W H. apply prefix_split in H. cbn [String.length] in H.
  set (rest := dropS 4 (remaining c)) in H. clearbody rest.
  change ("due:" ++ rest)
    with (String "d" (String "u" (String "e" (String ":" rest)))) in H.
  assert (scanWith (keyStop ["every:"; "e:"]) (remaining c) = 2) as Hk.
  { rewrite H. rewrite !scanWith_skip by reflexivity.
    f_equal. f_equal. apply scanWith_stop.
    apply (keyStop_here "e:" _ rest). right. now left. }
  unfold keyFound. rewrite Hk.
  apply (embedded_short_key "every:" "e" ":" "u" (everyRule relativeTo) _ rest
           (charIndex c + 1)).
  - rewrite <- Hk. now apply scan_within.
  - now rewrite remaining_at, H.
  - reflexivity.
  - reflexivity.
  - cbn. lia.
  - cbn [str at_]. rewrite get_dropS, dropS_add. fold (remaining c). now rewrite H.
  - reflexivity.
Qed.

(** Behind [scheduled:] or [completed:], the scan for the key of [due] stops
    at the [d:] that ends either, where [dueParser] reports no match. *)
Lemma due_behind_long_key (c : Input) :
  within c ->
  String.prefix "scheduled:" (remaining c) = true
  \/ String.prefix "completed:" (remaining c) = true ->
  fst (dueParser (keyFound ["due:"; "d:"] c)) = NoMatch.
Proof.
  intros W [H | H]; apply prefix_split in H; cbn [String.length] in H;
    set (rest := dropS 10 (remaining c)) in H; clearbody rest.
  - change ("scheduled:" ++ rest)
      with (String "s" (String "c" (String "h" (String "e" (String "d" (String "u"
             (String "l" (String "e" (String "d" (String ":" rest))))))))))
      in H.
    assert (scanWith (keyStop ["due:"; "d:"]) (remaining c) = 8) as Hk.
    { rewrite H. rewrite !scanWith_skip by reflexivity.
      do 8 f_equal. apply scanWith_stop.
      apply (keyStop_here "d:" _ rest). right. now left. }
    unfold keyFound. rewrite Hk.
    apply (embedded_short_key "due:" "d" ":" "e" parsers.YearMonthDay _ rest
             (charIndex c + 7)).
    + rewrite <- Hk. now apply scan_within.
    + now rewrite remaining_at, H.
    + reflexivity.
    + reflexivity.
    + cbn. lia.
    + cbn [str at_]. rewrite get_dropS, dropS_add. fold (remaining c). now rewrite H.
    + reflexivity.
  - change ("completed:" ++ rest)
      with (String "c" (String "o" (String "m" (String "p" (String "l" (String "e"
             (String "t" (String "e" (String "d" (String ":" rest))))))))))
      in H.
    assert (scanWith (keyStop ["due:"; "d:"]) (remaining c) = 8) as Hk.
    { rewrite H. rewrite !scanWith_skip by reflexivity.
      do 8 f_equal. apply scanWith_stop.
      apply (keyStop_here "d:" _ rest). right. now left. }
    unfold keyFound. rewrite Hk.
    apply (embedded_short_key "due:" "d" ":" "e" parsers.YearMonthDay _ rest
             (charIndex c + 7)).
    + rewrite <- Hk. now apply scan_within.
    + now rewrite remaining_at, H.
    + reflexivity.
    + reflexivity.
    + cbn. lia.
    + cbn [str at_]. rewrite get_dropS, dropS_add. fold (remaining c). now rewrite H.
    + reflexivity.
Qed.

(** ** What [ParseTask] reads *)

Lemma NewTask_fields (id : Identifier) (n : string) (s : Status)
    (d sc co : option time.Time) (p : option Z) (e : option Every) :
  NewTask id n s (opt WithDue d ++ opt WithScheduled sc ++ opt WithCompleted co
                  ++ opt WithPriority p ++ opt WithEvery e)%list
  = {| identifier := id; name := n; status := s; due := d; scheduled := sc;
       completed := co; priority := p; every := e |}.
Proof. destruct d, sc, co, p, e; reflexivity. Qed.

(** X9: the fields of a parsed task do not depend on one another or on
    their order on the line: each is what its own parser reads at the first
    place, from the end of the name on, where a spelling of its key starts
    or the line ends, and it is absent if the parser does not match there.
    A later occurrence of the key is never looked at. *)
Theorem fields_are_read_independently (path checksum : string)
    (relativeTo : time.Time) (inp inp' : Input) (t : Task) :
  within inp ->
  ParseTask path checksum relativeTo inp = (Match t, inp') ->
  Due t = valueOf (fst (dueParser (keyFound ["due:"; "d:"] (fieldsCursor inp))))
  /\ Scheduled t
     = valueOf (fst (scheduledParser (keyFound ["scheduled:"; "s:"]
                                               (fieldsCursor inp))))
  /\ Completed t
     = valueOf (fst (completedParser (keyFound ["completed:"] (fieldsCursor inp))))
  /\ Priority t
     = valueOf (fst (priorityParser (keyFound ["priority:"; "p:"]
                                              (fieldsCursor inp))))
  /\ every t
     = valueOf (fst (everyParser relativeTo (keyFound ["every:"; "e:"]
                                                      (fieldsCursor inp)))).
Proof.
  intros W H.
  destruct (ParseTask_Match _ _ _ _ _ _ W H) as (status & _ & _ & _ & -> & _).
  rewrite NewTask_fields. repeat split.
Qed.

Lemma fields_are_read_independently_witness :
  within (NewInput "- [ ] a d:x due:2024-01-01")
  /\ ParseTask "a.md" "v" (time.Date 2024 1 1)
       (NewInput "- [ ] a d:x due:2024-01-01")
     = (Match (NewTask (NewIdentifier "a.md" "v" 1) "a" Todo []),
        at_ 26 (NewInput "- [ ] a d:x due:2024-01-01"))
  /\ Due (NewTask (NewIdentifier "a.md" "v" 1) "a" Todo [])
     = valueOf (fst (dueParser
                       (keyFound ["due:"; "d:"]
                          (fieldsCursor (NewInput "- [ ] a d:x due:2024-01-01"))))).
Proof.
  assert (within (NewInput "- [ ] a d:x due:2024-01-01")) as W
    by (unfold within; cbn; lia).
  assert (ParseTask "a.md" "v" (time.Date 2024 1 1)
            (NewInput "- [ ] a d:x due:2024-01-01")
          = (Match (NewTask (NewIdentifier "a.md" "v" 1) "a" Todo []),
             at_ 26 (NewInput "- [ ] a d:x due:2024-01-01"))) as E
    by (vm_compute; reflexivity).
  split; [exact W | split; [exact E|]].
  exact (proj1 (fields_are_read_independently _ _ _ _ _ _ W E)).
Defined.

(** X10: a line whose first field key is [due:] never yields a recurrence,
    whatever follows: the scan for the key of [every] stops at the [e:] that
    ends [due:], which the short-key guard rejects.  This is the order
    [Task.String] writes the two fields in. *)
Theorem due_first_hides_every (path checksum : string) (relativeTo : time.Time)
    (inp inp' : Input) (t : Task) :
  within inp ->
  ParseTask path checksum relativeTo inp = (Match t, inp') ->
  String.prefix "due:" (remaining (fieldsCursor inp)) = true ->
  every t = None.
Proof.
  intros W H Hd.
  destruct (ParseTask_Match _ _ _ _ _ _ W H) as (status & _ & Wc & _ & -> & _).
  rewrite NewTask_fields. cbn [every].
  now rewrite (every_behind_due relativeTo _ Wc Hd).
Qed.

Lemma due_first_hides_every_witness :
  within (NewInput "- [ ] a due:2024-01-01 every:day")
  /\ String.prefix "due:"
       (remaining (fieldsCursor (NewInput "- [ ] a due:2024-01-01 every:day")))
     = true
  /\ every (NewTask (NewIdentifier "a.md" "v" 1) "a" Todo
              [WithDue (time.Date 2024 1 1)]) = None.
Proof.
  assert (within (NewInput "- [ ] a due:2024-01-01 every:day")) as W
    by (unfold within; cbn; lia).
  split; [exact W | split; [vm_compute; reflexivity|]].
  apply (due_first_hides_every "a.md" "v" (time.Date 2024 1 1)
           (NewInput "- [ ] a due:2024-01-01 every:day")
           (at_ 32 (NewInput "- [ ] a due:2024-01-01 every:day")) _ W).
  - vm_compute. reflexivity.
  - vm_compute. reflexivity.
Defined.

(** X11: a line whose first field key is [scheduled:] or [completed:] never
    yields a due date, whatever follows: the scan for the key of [due] stops
    at the [d:] that ends either word, which the short-key guard rejects. *)
Theorem long_key_first_hides_due (path checksum : string) (relativeTo : time.Time)
    (inp inp' : Input) (t : Task) :
  within inp ->
  ParseTask path checksum relativeTo inp = (Match t, inp') ->
  String.prefix "scheduled:" (remaining (fieldsCursor inp)) = true
  \/ String.prefix "completed:" (remaining (fieldsCursor inp)) = true ->
  Due t = None.
Proof.
  intros W H Hd.
  destruct (ParseTask_Match _ _ _ _ _ _ W H) as (status & _ & Wc & _ & -> & _).
  rewrite NewTask_fields. cbn [Due due].
  now rewrite (due_behind_long_key _ Wc Hd).
Qed.

Lemma long_key_first_hides_due_witness :
  within (NewInput "- [ ] a scheduled:2024-01-01 due:2024-02-01")
  /\ String.prefix "scheduled:"
       (remaining (fieldsCursor
                     (NewInput "- [ ] a scheduled:2024-01-01 due:2024-02-01")))
     = true
  /\ Due (NewTask (NewIdentifier "a.md" "v" 1) "a" Todo
            [WithScheduled (time.Date 2024 1 1)]) = None.
Proof.
  assert (within (NewInput "- [ ] a scheduled:2024-01-01 due:2024-02-01")) as W
    by (unfold within; cbn; lia).
  split; [exact W | split; [vm_compute; reflexivity|]].
  apply (long_key_first_hides_due "a.md" "v" (time.Date 2024 1 1)
           (NewInput "- [ ] a scheduled:2024-01-01 due:2024-02-01")
           (at_ 43 (NewInput "- [ ] a scheduled:2024-01-01 due:2024-02-01")) _ W).
  - vm_compute. reflexivity.
  - left. vm_compute. reflexivity.
Defined.

(** X12: the name of a parsed task is the text between the status marker
    and the first place where a spelling of any field key starts, long or
    short and whether or not a space precedes it, or where the line ends,
    with the white space around it trimmed. *)
Theorem name_ends_at_first_key (path checksum : string) (relativeTo : time.Time)
    (inp inp' : Input) (t : Task) :
  within inp ->
  ParseTask path checksum relativeTo inp = (Match t, inp') ->
  name t
  = TrimSpace (takeS (scanWith (keyStop fieldKeys) (remaining (nameCursor inp)))
                     (remaining (nameCursor inp))).
Proof.
  intros W H.
  destruct (ParseTask_Match _ _ _ _ _ _ W H) as (status & _ & _ & _ & -> & _).
  now rewrite NewTask_fields.
Qed.

Lemma name_ends_at_first_key_witness :
  within (NewInput "- [ ] eat food: 2024-01-01")
  /\ name (NewTask (NewIdentifier "a.md" "v" 1) "eat foo" Todo [])
     = TrimSpace
         (takeS (scanWith (keyStop fieldKeys)
                          (remaining (nameCursor
                                        (NewInput "- [ ] eat food: 2024-01-01"))))
                (remaining (nameCursor (NewInput "- [ ] eat food: 2024-01-01")))).
Proof.
  assert (within (NewInput "- [ ] eat food: 2024-01-01")) as W
    by (unfold within; cbn; lia).
  split; [exact W|].
  apply (name_ends_at_first_key "a.md" "v" (time.Date 2024 1 1)
           (NewInput "- [ ] eat food: 2024-01-01")
           (at_ 26 (NewInput "- [ ] eat food: 2024-01-01")) _ W).
  vm_compute. reflexivity.
Defined.

(** The white space [strings.TrimSpace] takes off a name is Unicode's: a
    no-break space (U+00A0, bytes 194 160) behind the name goes, and so does
    an ideographic space (U+3000, bytes 227 128 128) in front of it; a
    zero-width space (U+200B), which is no white space, stays. *)
Example name_without_unicode_space :
  let nbsp := String (ascii_of_nat 194) (String (ascii_of_nat 160) "") in
  let wide := String (ascii_of_nat 227) (String (ascii_of_nat 128)
                (String (ascii_of_nat 128) "")) in
  let zwsp := String (ascii_of_nat 226) (String (ascii_of_nat 128)
                (String (ascii_of_nat 139) "")) in
  parseLine "a.md" "v" (time.Date 2024 1 1) ("- [ ] a" ++ nbsp)
  = Match (NewTask (NewIdentifier "a.md" "v" 1) "a" Todo [])
  /\ parseLine "a.md" "v" (time.Date 2024 1 1) ("- [ ] " ++ wide ++ "a " ++ nbsp ++ " ")
     = Match (NewTask (NewIdentifier "a.md" "v" 1) "a" Todo [])
  /\ parseLine "a.md" "v" (time.Date 2024 1 1) ("- [ ] a" ++ zwsp)
     = Match (NewTask (NewIdentifier "a.md" "v" 1) ("a" ++ zwsp) Todo []).
Proof. cbv zeta. repeat split; vm_compute; reflexivity. Qed.

(** ** The status marker *)

Lemma RuneWhere_remaining (f : ascii -> bool) (inp : Input) :
  RuneWhere f inp
  = match remaining inp with
    | String c _ => if f c then (Match (str1 c), at_ (charIndex inp + 1) inp)
                    else (NoMatch, inp)
    | "" => (NoMatch, inp)
    end.
Proof.
  rewrite RuneWhere_spec, nextByte_remaining. now destruct (remaining inp).
Qed.

Lemma RuneWhere_Match (f : ascii -> bool) (inp inp' : Input) (x : string) :
  RuneWhere f inp = (Match x, inp') ->
  exists c r, remaining inp = String c r /\ f c = true
              /\ inp' = at_ (charIndex inp + 1) inp /\ remaining inp' = r.
Proof.
  rewrite RuneWhere_remaining. destruct (remaining inp) as [|c r] eqn:E;
    [discriminate|].
  destruct (f c) eqn:Hf; [|discriminate]. intros [= _ <-].
  exists c, r. repeat split; [exact Hf | now rewrite remaining_at, E].
Qed.

Lemma statusParser_spec (inp : Input) (c : ascii) (rest : string) :
  remaining inp = String "[" (String c (String "]" (String " " rest))) ->
  statusParser inp
  = if inb c " xX/bBaA"
    then (Match (statusLookup (str1 c)), at_ (charIndex inp + 4) inp)
    else (NoMatch, at_ (charIndex inp + 1) inp).
Proof.
  intros E. unfold statusParser, bind, Rune, RuneIn, ret.
  rewrite RuneWhere_remaining, E. cbn [Ascii.eqb Bool.eqb andb].
  set (i1 := at_ (charIndex inp + 1) inp).
  assert (remaining i1 = String c (String "]" (String " " rest))) as E1
    by (unfold i1; now rewrite remaining_at, E).
  rewrite RuneWhere_remaining, E1.
  destruct (inb c " xX/bBaA"); [|reflexivity].
  set (i2 := at_ (charIndex i1 + 1) i1).
  assert (remaining i2 = String "]" (String " " rest)) as E2
    by (unfold i2; now rewrite remaining_at, E1).
  rewrite RuneWhere_remaining, E2. cbn [Ascii.eqb Bool.eqb andb].
  set (i3 := at_ (charIndex i2 + 1) i2).
  assert (remaining i3 = String " " rest) as E3
    by (unfold i3; now rewrite remaining_at, E2).
  rewrite RuneWhere_remaining, E3. cbn [Ascii.eqb Bool.eqb andb].
  f_equal. unfold i3, i2, i1, at_. cbn [charIndex str]. f_equal. lia.
Qed.

(** X13: [statusParser] matches exactly on an opening bracket, one of the
    bytes of " xX/bBaA", a closing bracket and a space, in that order, and
    then moves four bytes on; the status it returns is that of the byte, in
    either case of the letter, and the marker [Task.String] writes for a
    status reads back as that status. *)
Theorem status_marker_round_trip :
  (forall inp inp' s,
      statusParser inp = (Match s, inp') <->
      exists c rest,
        remaining inp = String "[" (String c (String "]" (String " " rest)))
        /\ inb c " xX/bBaA" = true
        /\ s = statusLookup (str1 c)
        /\ inp' = at_ (charIndex inp + 4) inp)
  /\ (forall s inp rest,
         remaining inp = "[" ++ statusText s ++ "] " ++ rest ->
         statusParser inp = (Match s, at_ (charIndex inp + 4) inp))
  /\ (forall s, statusText s = str1 (StatusRuneLookup s))
  /\ statusLookup "X" = Done /\ statusLookup "B" = Blocked
  /\ statusLookup "A" = Abandoned.
Proof.
  split; [|split; [|split; [|repeat split]]].
  - intros inp inp' s. split.
    + intros H. pose proof H as H0. unfold statusParser, Rune, RuneIn in H.
      apply bind_Match in H as (? & i1 & E1 & H).
      apply bind_Match in H as (? & i2 & E2 & H).
      apply bind_Match in H as (? & i3 & E3 & H).
      apply bind_Match in H as (? & i4 & E4 & _).
      apply RuneWhere_Match in E1 as (c0 & r0 & R0 & F0 & _ & R1).
      apply RuneWhere_Match in E2 as (c & r1 & R1' & Hc & _ & R2).
      apply RuneWhere_Match in E3 as (c2 & r2 & R2' & F2 & _ & R3).
      apply RuneWhere_Match in E4 as (c3 & r3 & R3' & F3 & _ & _).
      apply Ascii.eqb_eq in F0, F2, F3. subst c0 c2 c3.
      assert (remaining inp
              = String "[" (String c (String "]" (String " " r3)))) as R
        by congruence.
      rewrite (statusParser_spec inp c r3 R), Hc in H0.
      injection H0 as <- <-. exists c, r3. repeat split; assumption.
    + intros (c & rest & E & Hc & -> & ->).
      now rewrite (statusParser_spec inp c rest E), Hc.
  - intros s inp rest E.
    assert (remaining inp
            = String "[" (String (StatusRuneLookup s) (String "]" (String " " rest))))
      as E' by (rewrite E; now destruct s).
    rewrite (statusParser_spec inp _ rest E'). now destruct s.
  - intros s. now destruct s.
Qed.

(** ** The value of a priority *)

Lemma remaining_within (inp : Input) (k : nat) :
  within inp -> k <= String.length (remaining inp) ->
  within (at_ (charIndex inp + k) inp).
Proof.
  unfold within, remaining. rewrite length_dropS. cbn [charIndex str at_]. lia.
Qed.

(** X14: where [priority:] is followed by decimal digits, the priority is
    the value of the whole run of digits, leading zeros included, as long as
    it fits a 64-bit integer; if it does not, the parser fails with the
    invalid-priority error. *)
Theorem priority_is_the_digit_run (c : Input) (r : string) :
  within c ->
  remaining c = "priority:" ++ r ->
  run isDigit r <> "" ->
  fst (priorityParser c)
  = if (digitsValue 0 (run isDigit r) <=? maxInt)%Z
    then Match (digitsValue 0 (run isDigit r))
    else Error InvalidPriority.
Proof.
  intros W E Hr.
  change ("priority:" ++ r)
    with (String "p" (String "r" (String "i" (String "o" (String "r" (String "i"
           (String "t" (String "y" (String ":" r))))))))) in E.
  destruct r as [|d r']; [now elim Hr|].
  cbn [run] in Hr. destruct (isDigit d) eqn:Hd; [|now elim Hr]. clear Hr.
  unfold priorityParser, dump, attempt.
  rewrite (InlineWhitespaceRunes_run c W), E. cbn [run inb parsers.inlineWhitespace].
  replace (inb "p" parsers.inlineWhitespace) with false by reflexivity.
  cbn [String.length]. rewrite at_zero.
  unfold priorityKeyLong, priorityKeyShort.
  rewrite (String__remaining "priority:" c W), E.
  change (String.prefix "priority:" _) with (String.prefix "" (String d r')).
  cbn [String.prefix String.length].
  set (c9 := at_ (charIndex c + 9) c).
  assert (within c9) as W9.
  { apply remaining_within; [exact W|]. rewrite E. cbn. lia. }
  assert (remaining c9 = String d r') as E9
    by (unfold c9; now rewrite remaining_at, E).
  rewrite (String__remaining "p:" c9 W9), E9. cbn [String.prefix].
  destruct (ascii_dec "p" d) as [<-|_]; [discriminate|].
  cbn [isOk negb andb]. unfold bind, shortKeyGuard.
  change (StringFrom (AtLeast 1 ZeroToNine) c9)
    with (StringFrom (AtLeast 1 (RuneWhere isDigit)) c9).
  rewrite (StringFrom_run isDigit 1 c9 W9), E9. cbn [run]. rewrite Hd.
  cbn [String.length Nat.leb]. unfold Atoi.
  destruct (_ <=? _)%Z; reflexivity.
Qed.

Lemma priority_is_the_digit_run_witness :
  within (at_ 11 (NewInput "- [ ] task priority:007 x"))
  /\ fst (priorityParser (at_ 11 (NewInput "- [ ] task priority:007 x")))
     = Match 7%Z.
Proof.
  assert (within (at_ 11 (NewInput "- [ ] task priority:007 x"))) as W
    by (unfold within; cbn; lia).
  split; [exact W|].
  exact (priority_is_the_digit_run (at_ 11 (NewInput "- [ ] task priority:007 x"))
           "007 x" W eq_refl ltac:(discriminate)).
Defined.

(** ** The errors of [ParseTask] *)

Lemma Seek_within (z : Z) (inp : Input) : within inp -> within (snd (Seek z inp)).
Proof.
  unfold Seek, within. intros W.
  destruct (Z.ltb_spec z 0); cbn [orb snd]; [exact W|].
  destruct (Z.ltb_spec (Z.of_nat (String.length (str inp))) z); cbn [snd];
    [exact W | cbn; lia].
Qed.

Lemma advances_String (m : string) : advances (String_ m).
Proof.
  intros inp W. destruct (String__cases m inp) as [[E A] | E]; [left | now right].
  eexists _, _. split; [exact E|]. apply (ahead_weaken (String.length m)); [lia|].
  exact A.
Qed.

Lemma advances_Any {T} (ps : list (Parser T)) :
  Forall advances ps -> advances (Any ps).
Proof.
  induction 1 as [|p ps Hp _ IH]; intros inp W; [now right|]. cbn [Any].
  destruct (Hp inp W) as [(x & inp' & E & A) | E]; rewrite E; [left; eauto|].
  now apply IH.
Qed.

Lemma advances_literals (ms : list string) : advances (Any (map String_ ms)).
Proof.
  apply advances_Any. induction ms as [|m ms IH]; cbn [map];
    [apply Forall_nil_2 | apply Forall_cons_2; [apply advances_String | exact IH]].
Qed.

Lemma advances_word {T} (table : list (string * T)) : advances (parsers.word table).
Proof.
  intros inp W.
  destruct (word_cases table inp) as [(w & v & _ & E & A) | E]; [left | now right].
  eexists _, _. split; [exact E|]. apply (ahead_weaken (String.length w)); [lia|].
  exact A.
Qed.

Lemma advances_singleWord : advances singleWord.
Proof.
  apply advances_Any.
  repeat (apply Forall_cons_2;
          [first [apply advances_String | apply (advances_literals [_; _])]|]).
  apply Forall_nil_2.
Qed.

Lemma advances_units :
  advances (Any [parsers.Day; parsers.Week; parsers.Month; parsers.Year]).
Proof.
  apply advances_Any.
  repeat (apply Forall_cons_2; [apply (advances_literals [_; _])|]).
  apply Forall_nil_2.
Qed.

(** The loop over the further weekdays ends within its budget. *)
Lemma moreDays_total (fuel : nat) (acc : list time.Weekday) (inp : Input) :
  within inp -> String.length (str inp) - charIndex inp < fuel ->
  exists ds inp', parsers.moreDays fuel acc inp = (Match ds, inp')
                  /\ ahead 0 inp inp'.
Proof.
  revert acc inp. induction fuel as [|fuel IH]; intros acc inp W Hf; [lia|].
  cbn [parsers.moreDays]. unfold bind.
  change parsers.listDelimiter with (Any (map String_ [", "; ","; " "])).
  destruct (Any_literals [", "; ","; " "] inp) as [(m & Hin & E & A) | E];
    rewrite E.
  - assert (1 <= String.length m) as Hm
      by (destruct Hin as [<-|[<-|[<-|[]]]]; cbn; lia).
    set (inp1 := at_ (charIndex inp + String.length m) inp) in *.
    unfold parsers.DayOfWeek.
    destruct (word_cases parsers.weekdayNames inp1) as [(w & d & _ & E' & A') | E'];
      rewrite E'.
    + pose proof (ahead_trans _ _ _ _ _ A A') as A2.
      set (inp2 := at_ (charIndex inp1 + String.length w) inp1) in *.
      destruct (IH (acc ++ [d])%list inp2) as (ds & inp' & E2 & A3).
      { apply A2. }
      { destruct A2 as (Es & L & W2). unfold within in *. rewrite Es in *. lia. }
      exists ds, inp'. split; [exact E2|].
      apply (ahead_weaken (String.length m + String.length w + 0)); [lia|].
      exact (ahead_trans _ _ _ _ _ A2 A3).
    + exists acc, inp. split; [reflexivity | now apply ahead_refl].
  - exists acc, inp. split; [reflexivity | now apply ahead_refl].
Qed.

Lemma advances_DaysOfWeek : advances parsers.DaysOfWeek.
Proof.
  intros inp W. unfold parsers.DaysOfWeek, bind, parsers.DayOfWeek.
  destruct (word_cases parsers.weekdayNames inp) as [(w & d & _ & E & A) | E];
    rewrite E; [left | now right].
  set (inp1 := at_ (charIndex inp + String.length w) inp) in *.
  destruct (moreDays_total (budget inp1) [d] inp1) as (ds & inp' & E' & A').
  { apply A. }
  { unfold budget. lia. }
  exists ds, inp'. split; [exact E'|].
  apply (ahead_weaken (String.length w + 0)); [lia|].
  exact (ahead_trans _ _ _ _ _ A A').
Qed.

Lemma isDigit_value (c : ascii) :
  isDigit c = true -> (0 <= Z.of_nat (nat_of_ascii c) - 48)%Z.
Proof.
  unfold isDigit. cbn [inb].
  repeat (match goal with
          | |- context [Ascii.eqb c ?d] =>
              destruct (Ascii.eqb_spec c d) as [->|_];
                [intros _; vm_compute; discriminate|]
          end).
  cbn [orb]. intros H. discriminate H.
Qed.

Lemma digitsValue_run (r : string) (acc : Z) :
  (0 <= acc)%Z -> (0 <= digitsValue acc (run isDigit r))%Z.
Proof.
  revert acc. induction r as [|c r IH]; intros acc Ha; cbn [run]; [exact Ha|].
  destruct (isDigit c) eqn:Hc; [|exact Ha]. cbn [digitsValue]. apply IH.
  pose proof (isDigit_value c Hc). lia.
Qed.

(** "<number> <unit>" matches as a whole, the number being a run of
    digits, or leaves the cursor alone. *)
Lemma numberAndUnit_cases (inp : Input) :
  within inp ->
  (exists n sp u inp', numberAndUnit inp = (Match (n, sp, u), inp')
                       /\ ahead 0 inp inp' /\ (0 <= digitsValue 0 n)%Z)
  \/ numberAndUnit inp = (NoMatch, inp).
Proof.
  intros W. unfold numberAndUnit, SequenceOf3, Index.
  change (StringFrom (AtLeast 1 ZeroToNine) inp)
    with (StringFrom (AtLeast 1 (RuneWhere isDigit)) inp).
  rewrite (StringFrom_run isDigit 1 inp W).
  destruct (1 <=? String.length (run isDigit (remaining inp)))%nat;
    [|right; now rewrite at_here].
  set (n := run isDigit (remaining inp)).
  assert (ahead 0 inp (at_ (charIndex inp + String.length n) inp)) as A1.
  { unfold ahead. split; [reflexivity|]. split; [cbn; lia|].
    apply remaining_within; [exact W | apply length_run_le]. }
  set (inp1 := at_ (charIndex inp + String.length n) inp) in *.
  destruct (String__cases " " inp1) as [[E A2] | E]; rewrite E.
  - pose proof (ahead_trans _ _ _ _ _ A1 A2) as A12.
    set (inp2 := at_ (charIndex inp1 + String.length " ") inp1) in *.
    destruct (advances_units inp2) as [(u & inp3 & E3 & A3) | E3];
      [apply A12 | |]; rewrite E3.
    + left. exists n, " ", u, inp3. split; [reflexivity|]. split.
      * apply (ahead_weaken (0 + String.length " " + 0)); [lia|].
        exact (ahead_trans _ _ _ _ _ A12 A3).
      * apply digitsValue_run. lia.
    + right. f_equal. apply at_same. apply A12.
  - right. f_equal. apply at_same. apply A1.
Qed.

Lemma singleOpts_valid (single : string) (relativeTo : time.Time) :
  rrule.validateBounds (singleOpts single (noOptions relativeTo)) = true.
Proof. unfold singleOpts. repeat destruct (String.eqb _ _); reflexivity. Qed.

Lemma unitOpts_valid (n : string) (unit : string) (relativeTo : time.Time) :
  (0 <= digitsValue 0 n)%Z ->
  rrule.validateBounds
    (setInterval (fst (Atoi n)) (unitOpts unit (noOptions relativeTo))) = true.
Proof.
  intros Hn.
  assert (0 <= fst (Atoi n))%Z as Hi.
  { unfold Atoi. destruct (_ <=? _)%Z; cbn [fst]; [exact Hn|]. unfold maxInt. lia. }
  unfold rrule.validateBounds, unitOpts.
  repeat destruct (_ || _); cbn;
    (destruct (Z.ltb_spec (fst (Atoi n)) 0); [lia | reflexivity]).
Qed.

(** Behind its key, [everyParser] never fails: the options it builds always
    pass the bounds check of [rrule.NewRRule], and the text it stores is
    always there to take. *)
Lemma everyRule_total (relativeTo : time.Time) (inp : Input) (e : error) :
  within inp -> fst (everyRule relativeTo inp) <> Error e.
Proof.
  intros W. unfold everyRule, attempt.
  fold (noOptions relativeTo).
  change {| rrule.Freq := rrule.YEARLY; rrule.Dtstart := relativeTo;
            rrule.Interval := 0; rrule.Byweekday := []; rrule.Bymonthday := [];
            rrule.Bymonth := [] |} with (noOptions relativeTo).
  pose proof (advances_singleWord inp W) as H1. unfold singleWord in H1.
  destruct H1 as [(m & i1 & E & A) | E]; rewrite E.
  { rewrite (buildResult_stores inp i1 _ A (singleOpts_valid m relativeTo)).
    discriminate. }
  destruct (advances_DaysOfWeek inp W) as [(ds & i1 & E2 & A) | E2]; rewrite E2.
  { rewrite (buildResult_stores inp i1 _ A) by reflexivity. discriminate. }
  pose proof (numberAndUnit_cases inp W) as H3. unfold numberAndUnit in H3.
  destruct H3 as [(n & sp & u & i1 & E3 & A & Hn) | E3]; rewrite E3.
  { rewrite (buildResult_stores inp i1 _ A (unitOpts_valid n u relativeTo Hn)).
    discriminate. }
  unfold bind.
  destruct (monthScan_total (budget inp) (noOptions relativeTo) inp W)
    as (o & inp' & E4 & A & S); [unfold budget; lia|].
  rewrite E4.
  destruct (scanned_valid relativeTo o S) as [Hv Hv'].
  unfold firstOfMonthByDefault in Hv'.
  destruct (rrule.Bymonthday o) as [|d ds] eqn:Ed;
    destruct (rrule.Bymonth o) as [|mo ms] eqn:Em;
    cbn [length Nat.ltb Nat.leb orb Nat.eqb app].
  - discriminate.
  - rewrite (buildResult_stores inp inp' _ A Hv'). discriminate.
  - rewrite (buildResult_stores inp inp' _ A Hv). discriminate.
  - rewrite (buildResult_stores inp inp' _ A Hv). discriminate.
Qed.

Lemma raises_fails {T} (P : error -> Prop) (p : Parser T) :
  raises P p -> fails P p.
Proof. intros H inp e inp' _. apply H. Qed.

Lemma InlineWhitespaceRunes_within (inp : Input) :
  within inp -> within (snd (parsers.InlineWhitespaceRunes inp)).
Proof.
  intros W. rewrite (InlineWhitespaceRunes_run inp W).
  apply remaining_within; [exact W | apply length_run_le].
Qed.

Lemma String__within (m : string) (inp : Input) :
  within inp -> within (snd (String_ m inp))
                /\ forall e, fst (String_ m inp) <> Error e.
Proof.
  intros W. destruct (String__cases m inp) as [[E A] | E]; rewrite E; cbn [fst snd].
  - split; [apply A | discriminate].
  - split; [exact W | discriminate].
Qed.

Lemma shortKeyGuard_within (b : bool) (inp : Input) :
  within inp -> within (snd (shortKeyGuard b inp)).
Proof.
  intros W. unfold shortKeyGuard. destruct b; [|exact W].
  pose proof (Seek_within (Z.of_nat (Index inp) - 3) inp W) as W1.
  destruct (Seek (Z.of_nat (Index inp) - 3) inp) as [sought inp1]. cbn [snd] in W1.
  destruct (_ && _); cbn [snd]; [exact W1 | now apply Seek_within].
Qed.

(** A field parser with a short key fails only where its value parser does,
    and runs it inside the input. *)
Lemma keyed_fails {T} (P : error -> Prop) (long short : string) (value : Parser T) :
  fails P value -> fails P (keyed long short value).
Proof.
  intros Hv inp e inp' W. unfold keyed, dump, attempt.
  pose proof (InlineWhitespaceRunes_within inp W) as W0.
  set (i0 := snd (parsers.InlineWhitespaceRunes inp)) in *.
  destruct (String__within long i0 W0) as [W1 N1].
  destruct (String_ long i0) as [[x| |e1] i1]; cbn [fst snd] in *;
    [| |now elim (N1 e1)].
  all: destruct (String__within short i1 W1) as [W2 N2].
  all: destruct (String_ short i1) as [[y| |e2] i2]; cbn [fst snd] in *;
    [| |now elim (N2 e2)].
  all: unfold bind.
  all: match goal with |- context [shortKeyGuard ?b ?i] =>
         pose proof (shortKeyGuard_within b i W2) as W3;
         pose proof (raises_shortKeyGuard P b i) as R3;
         destruct (shortKeyGuard b i) as [[u| |e3] i3]; cbn [snd] in W3
       end.
  all: try discriminate.
  all: try (intros [= <- <-]; now apply (R3 _ _ eq_refl)).
  all: cbn [isOk negb andb]; try discriminate.
  all: now apply Hv.
Qed.

Lemma fails_priorityValue :
  fails (eq InvalidPriority)
        (let! priority := StringFrom (AtLeast 1 ZeroToNine) in
         match Atoi priority with
         | (p, true) => ret p
         | (_, false) => fail InvalidPriority
         end).
Proof.
  intros inp e inp' W. unfold bind.
  change (StringFrom (AtLeast 1 ZeroToNine) inp)
    with (StringFrom (AtLeast 1 (RuneWhere isDigit)) inp).
  rewrite (StringFrom_run isDigit 1 inp W).
  destruct (_ <=? _)%nat; [|discriminate].
  destruct (Atoi _) as [v [|]]; [discriminate|]. now intros [= <- _].
Qed.

Lemma fails_everyRule (P : error -> Prop) (relativeTo : time.Time) :
  fails P (everyRule relativeTo).
Proof.
  intros inp e inp' W H. exfalso.
  apply (everyRule_total relativeTo inp e W). now rewrite H.
Qed.

(** The block of a field fails only where the field's parser does. *)
Lemma field_fails {T} (P : error -> Prop) (ms : list string) (p : Parser T)
    (c c' : Input) (e : error) :
  within c -> fails P p ->
  field (Any (map String_ ms)) p (Index c) c = (Error e, c') -> P e.
Proof.
  intros W Hp. unfold field, attempt, Index.
  rewrite (StringUntil_scan _ (keyStop ms) c (decides_key_or_end ms)
             (keyStop_nil ms) W).
  cbn [isOk]. fold (keyFound ms c).
  pose proof (Hp (keyFound ms c)) as Hk.
  destruct (p (keyFound ms c)) as [[x| |e'] c1]; try discriminate.
  intros [= <- _]. apply (Hk e' c1); [|reflexivity].
  now apply scan_within.
Qed.

Lemma listItemOpen_total (inp : Input) (e : error) :
  within inp -> fst (listItemOpen inp) <> Error e.
Proof.
  intros W. unfold listItemOpen, StringFrom at 1.
  match goal with |- context [match ?p inp with _ => _ end] =>
    assert (forall e', fst (p inp) <> Error e') as N end.
  { intros e'. unfold bind, parsers.RemainingInlineWhitespace, ZeroOrMore, RuneIn.
    rewrite (StringFrom_run _ 0 inp W). cbn [Nat.leb].
    match goal with |- context [Rune "-" ?i] =>
      set (i1 := i);
      assert (within i1) as W1
        by (apply remaining_within; [exact W | apply length_run_le])
    end.
    unfold Rune.
    destruct (RuneWhere_cases (Ascii.eqb "-") i1) as [(c & E & _ & _ & A) | E];
      rewrite E; [|discriminate].
    rewrite StringFrom_run by apply A. discriminate. }
  match goal with |- context [match ?p inp with _ => _ end] =>
    destruct (p inp) as [[x| |e'] i1] end; cbn [fst] in *.
  - destruct (Take _ _) as [[m [|]] i2]; discriminate.
  - discriminate.
  - now elim (N e').
Qed.

(** X15: inside its input, [ParseTask] fails with no error but the
    invalid-priority one.  The two error returns of [buildResult] are never
    taken: the options [everyParser] builds always pass the bounds check of
    [rrule.NewRRule], and the text of the recurrence is always there to
    take; and no loop of the parser runs on without reading input. *)
Theorem invalid_priority_is_the_only_error (path checksum : string)
    (relativeTo : time.Time) (inp inp' : Input) (e : error) :
  within inp ->
  ParseTask path checksum relativeTo inp = (Error e, inp') ->
  e = InvalidPriority.
Proof.
  intros W H. symmetry. unfold ParseTask in H.
  apply bind_Error in H as [H | (m & i1 & E1 & H)].
  { exfalso. apply (listItemOpen_total inp e W). now rewrite H. }
  pose proof (StringFrom_within _ _ _ _ E1) as W1.
  apply bind_Error in H as [H | (status & i2 & E2 & H)].
  { revert H. unfold statusParser.
    repeat (intros H; apply bind_Error in H as [H | (? & ? & _ & H)];
            [now apply (raises_RuneWhere (eq InvalidPriority)) in H | revert H]).
    discriminate. }
  pose proof (statusParser_ahead _ _ _ E2) as (_ & _ & W2).
  apply bind_Error in H as [H | (name & i3 & E3 & H)].
  { rewrite (StringUntil_scan _ (keyStop fieldKeys) i2 decides_fieldKeys eq_refl W2)
      in H. discriminate. }
  rewrite (StringUntil_scan _ (keyStop fieldKeys) i2 decides_fieldKeys eq_refl W2)
    in E3.
  injection E3 as _ <-.
  pose proof (scan_within (keyStop fieldKeys) i2 W2) as W3.
  set (c := at_ _ i2) in *. cbv beta zeta in H.
  apply bind_Error in H as [H | (due & c1 & F1 & H)].
  { apply (field_fails (eq InvalidPriority) [_; _] dueParser c _ e W3) in H;
      [exact H|].
    apply (keyed_fails _ "due:" "d:"), raises_fails, raises_YearMonthDay. }
  apply (field_Match [_; _] dueParser c c1 due W3 steady_dueParser) in F1
    as [-> _].
  apply bind_Error in H as [H | (scheduled & c2 & F2 & H)].
  { apply (field_fails (eq InvalidPriority) [_; _] scheduledParser c _ e W3) in H;
      [exact H|].
    apply (keyed_fails _ "scheduled:" "s:"), raises_fails, raises_YearMonthDay. }
  apply (field_Match [_; _] scheduledParser c c2 scheduled W3
           steady_scheduledParser) in F2 as [-> _].
  apply bind_Error in H as [H | (completed & c3 & F3 & H)].
  { apply (field_fails (eq InvalidPriority) [_] completedParser c _ e W3) in H;
      [exact H|].
    apply raises_fails, raises_bind;
      [apply (raises_literals _ [_]) | intros ?; apply raises_YearMonthDay]. }
  apply (field_Match [_] completedParser c c3 completed W3
           steady_completedParser) in F3 as [-> _].
  apply bind_Error in H as [H | (priority & c4 & F4 & H)].
  { apply (field_fails (eq InvalidPriority) [_; _] priorityParser c _ e W3) in H;
      [exact H|].
    apply (keyed_fails _ "priority:" "p:"), fails_priorityValue. }
  apply (field_Match [_; _] priorityParser c c4 priority W3
           steady_priorityParser) in F4 as [-> _].
  apply bind_Error in H as [H | (every & c5 & F5 & H)].
  { apply (field_fails (eq InvalidPriority) [_; _] (everyParser relativeTo) c _ e W3)
      in H; [exact H|].
    apply (keyed_fails _ "every:" "e:"), fails_everyRule. }
  discriminate.
Qed.

Lemma invalid_priority_is_the_only_error_witness :
  within (NewInput "- [ ] task priority:9223372036854775808")
  /\ ParseTask "a.md" "v" (time.Date 2024 1 1)
       (NewInput "- [ ] task priority:9223372036854775808")
     = (Error InvalidPriority,
        at_ 39 (NewInput "- [ ] task priority:9223372036854775808")).
Proof.
  assert (within (NewInput "- [ ] task priority:9223372036854775808")) as W
    by (unfold within; cbn; lia).
  assert (exists e inp',
             ParseTask "a.md" "v" (time.Date 2024 1 1)
               (NewInput "- [ ] task priority:9223372036854775808")
             = (Error e, inp')
             /\ inp' = at_ 39 (NewInput "- [ ] task priority:9223372036854775808"))
    as (e & inp' & E & ->).
  { eexists _, _. split; vm_compute; reflexivity. }
  split; [exact W|].
  rewrite E. f_equal. f_equal.
  exact (invalid_priority_is_the_only_error _ _ _ _ _ _ W E).
Defined.

(** ** What a recurrence carries *)

Lemma singleOpts_Dtstart (single : string) (o : rrule.ROption) :
  rrule.Dtstart (singleOpts single o) = rrule.Dtstart o.
Proof. unfold singleOpts. repeat destruct (String.eqb _ _); reflexivity. Qed.

Lemma unitOpts_Dtstart (unit : string) (o : rrule.ROption) :
  rrule.Dtstart (unitOpts unit o) = rrule.Dtstart o.
Proof. unfold unitOpts. repeat destruct (_ || _); reflexivity. Qed.

(** X16: behind its key, [everyParser] either reports no match or returns a
    recurrence that starts at [relativeTo], that passes the bounds check of
    [rrule.NewRRule] (month days within 1..31, months within 1..12, no
    negative interval), and whose text is the input it read, from the cursor
    it started at to the one it stopped at, trimmed: the text written back
    by [Task.String] is the text of the source. *)
Theorem recurrence_keeps_anchor_and_text (relativeTo : time.Time) (inp : Input) :
  within inp ->
  (exists o inp',
      everyRule relativeTo inp
      = (Match {| RRule := o; Text := textBetween inp inp' |}, inp')
      /\ ahead 0 inp inp'
      /\ rrule.Dtstart o = relativeTo
      /\ rrule.validateBounds o = true)
  \/ exists inp', everyRule relativeTo inp = (NoMatch, inp').
Proof.
  intros W. unfold everyRule, attempt.
  change {| rrule.Freq := rrule.YEARLY; rrule.Dtstart := relativeTo;
            rrule.Interval := 0; rrule.Byweekday := []; rrule.Bymonthday := [];
            rrule.Bymonth := [] |} with (noOptions relativeTo).
  pose proof (advances_singleWord inp W) as H1. unfold singleWord in H1.
  destruct H1 as [(m & i1 & E & A) | E]; rewrite E.
  { left. rewrite (buildResult_stores inp i1 _ A (singleOpts_valid m relativeTo)).
    eexists _, i1. split; [reflexivity|].
    split; [exact A|]. split; [apply singleOpts_Dtstart | apply singleOpts_valid]. }
  destruct (advances_DaysOfWeek inp W) as [(ds & i1 & E2 & A) | E2]; rewrite E2.
  { left. rewrite (buildResult_stores inp i1 _ A) by reflexivity.
    eexists _, i1. split; [reflexivity|].
    split; [exact A | split; reflexivity]. }
  pose proof (numberAndUnit_cases inp W) as H3. unfold numberAndUnit in H3.
  destruct H3 as [(n & sp & u & i1 & E3 & A & Hn) | E3]; rewrite E3.
  { left. rewrite (buildResult_stores inp i1 _ A (unitOpts_valid n u relativeTo Hn)).
    eexists _, i1. split; [reflexivity|].
    split; [exact A|]. split; [|apply unitOpts_valid; exact Hn].
    cbn [setInterval rrule.Dtstart]. apply unitOpts_Dtstart. }
  unfold bind.
  destruct (monthScan_total (budget inp) (noOptions relativeTo) inp W)
    as (o & inp' & E4 & A & S); [unfold budget; lia|].
  rewrite E4.
  destruct (scanned_valid relativeTo o S) as [Hv Hv'].
  assert (rrule.Dtstart o = relativeTo) as Hd by apply S.
  unfold firstOfMonthByDefault in Hv'.
  destruct (rrule.Bymonthday o) as [|d ds] eqn:Ed;
    destruct (rrule.Bymonth o) as [|mo ms] eqn:Em;
    cbn [length Nat.ltb Nat.leb orb Nat.eqb app].
  - right. now exists inp'.
  - left. rewrite (buildResult_stores inp inp' _ A Hv').
    eexists _, inp'. split; [reflexivity|].
    split; [exact A | split; [exact Hd | exact Hv']].
  - left. rewrite (buildResult_stores inp inp' _ A Hv).
    eexists _, inp'. split; [reflexivity|].
    split; [exact A | split; [exact Hd | exact Hv]].
  - left. rewrite (buildResult_stores inp inp' _ A Hv).
    eexists _, inp'. split; [reflexivity|].
    split; [exact A | split; [exact Hd | exact Hv]].
Qed.

Lemma recurrence_keeps_anchor_and_text_witness :
  within (at_ 6 (NewInput "every:2 weeks "))
  /\ ((exists o inp',
          everyRule (time.Date 2024 1 1) (at_ 6 (NewInput "every:2 weeks "))
          = (Match {| RRule := o;
                      Text := textBetween (at_ 6 (NewInput "every:2 weeks ")) inp' |},
             inp')
          /\ ahead 0 (at_ 6 (NewInput "every:2 weeks ")) inp'
          /\ rrule.Dtstart o = time.Date 2024 1 1
          /\ rrule.validateBounds o = true)
       \/ exists inp',
            everyRule (time.Date 2024 1 1) (at_ 6 (NewInput "every:2 weeks "))
            = (NoMatch, inp')).
Proof.
  assert (within (at_ 6 (NewInput "every:2 weeks "))) as W
    by (unfold within; cbn; lia).
  split; [exact W|].
  exact (recurrence_keeps_anchor_and_text (time.Date 2024 1 1)
           (at_ 6 (NewInput "every:2 weeks ")) W).
Defined.

(** ** The line a task takes *)

Lemma lineEnd_cons (c : ascii) (r : string) :
  c <> CR -> c <> LF -> lineEnd (String c r) = false.
Proof.
  intros H1 H2. unfold lineEnd, str1. cbn [String.prefix String.eqb].
  destruct (ascii_dec CR c) as [E|_]; [now elim H1|].
  destruct (ascii_dec LF c) as [E|_]; [now elim H2|]. reflexivity.
Qed.

Lemma inline_byte (f : ascii -> bool) (c : ascii) (r : string) :
  f CR = false -> f LF = false -> f c = true -> lineEnd (String c r) = false.
Proof. intros H1 H2 H. apply lineEnd_cons; intros ->; congruence. Qed.

Lemma plain_cons (n : nat) (c : ascii) (r : string) :
  lineEnd (String c r) = false -> plain n r -> plain (S n) (String c r).
Proof. intros H0 H [|j] Hj; [exact H0 | apply H; lia]. Qed.

Lemma plain_zero (r : string) : plain 0 r.
Proof. intros j Hj. lia. Qed.

Lemma plain_add (n m : nat) (r : string) :
  plain n r -> plain m (dropS n r) -> plain (n + m) r.
Proof.
  intros Hn Hm j Hj. destruct (Nat.lt_ge_cases j n) as [H|H]; [now apply Hn|].
  replace j with (n + (j - n)) by lia. rewrite dropS_add. apply Hm. lia.
Qed.

Lemma plain_run (f : ascii -> bool) (r : string) :
  f CR = false -> f LF = false -> plain (String.length (run f r)) r.
Proof.
  intros H1 H2. induction r as [|c r IH]; cbn [run]; [apply plain_zero|].
  destruct (f c) eqn:Hc; [|apply plain_zero].
  cbn [String.length]. apply plain_cons; [|exact IH].
  now apply (inline_byte f).
Qed.

Lemma scanWith_before (stop : string -> bool) (r : string) (j : nat) :
  j < scanWith stop r -> stop (dropS j r) = false.
Proof.
  revert j. induction r as [|c r IH]; intros j; cbn [scanWith].
  - destruct (stop ""); lia.
  - destruct (stop (String c r)) eqn:E; [lia|].
    destruct j as [|j]; [intros _; exact E | intros Hj; apply IH; lia].
Qed.

Lemma plain_scan (ms : list string) (r : string) :
  plain (scanWith (keyStop ms) r) r.
Proof.
  intros j Hj. apply scanWith_before in Hj. unfold keyStop in Hj.
  now apply orb_false_elim in Hj.
Qed.

Lemma scanWith_plain (n : nat) (r : string) :
  plain n r -> scanWith lineEnd r = n + scanWith lineEnd (dropS n r).
Proof.
  revert r. induction n as [|n IH]; intros r H; [reflexivity|].
  pose proof (H 0 ltac:(lia)) as H0. cbn [dropS] in H0.
  destruct r as [|c r]; [discriminate|].
  rewrite (scanWith_skip lineEnd c r H0). cbn [dropS Nat.add]. f_equal.
  apply IH. intros j Hj. apply (H (S j)). lia.
Qed.

Lemma scanWith_stops (stop : string -> bool) (r : string) :
  stop "" = true -> stop (dropS (scanWith stop r) r) = true.
Proof.
  intros Hnil. induction r as [|c r IH]; cbn [scanWith].
  - now rewrite Hnil.
  - destruct (stop (String c r)) eqn:E; [exact E | exact IH].
Qed.

Lemma reach_refl (inp : Input) : within inp -> reach inp inp.
Proof.
  intros W. exists 0. split; [now rewrite at_zero|].
  split; [apply plain_zero | exact W].
Qed.

Lemma reach_trans (a b c : Input) : reach a b -> reach b c -> reach a c.
Proof.
  intros (n & -> & Hn & _) (m & -> & Hm & W). exists (n + m).
  split; [unfold at_; cbn [charIndex str]; f_equal; lia|].
  split; [|exact W]. apply plain_add; [exact Hn|]. now rewrite <- remaining_at.
Qed.

Lemma reach_run (f : ascii -> bool) (inp : Input) :
  f CR = false -> f LF = false -> within inp ->
  reach inp (at_ (charIndex inp + String.length (run f (remaining inp))) inp).
Proof.
  intros H1 H2 W. exists (String.length (run f (remaining inp))).
  split; [reflexivity|]. split; [now apply plain_run|].
  apply remaining_within; [exact W | apply length_run_le].
Qed.

Lemma reach_rune (f : ascii -> bool) (inp inp' : Input) (x : string) :
  f CR = false -> f LF = false -> within inp ->
  RuneWhere f inp = (Match x, inp') -> reach inp inp'.
Proof.
  intros H1 H2 W H. apply RuneWhere_Match in H as (c & r & E & Hc & -> & _).
  exists 1. split; [reflexivity|]. split.
  - rewrite E. apply plain_cons; [now apply (inline_byte f) | apply plain_zero].
  - apply remaining_within; [exact W | rewrite E; cbn; lia].
Qed.

Lemma reach_scan (ms : list string) (inp : Input) :
  within inp -> reach inp (keyFound ms inp).
Proof.
  intros W. exists (scanWith (keyStop ms) (remaining inp)).
  split; [reflexivity|]. split; [apply plain_scan | now apply scan_within].
Qed.

Lemma reach_within (a b : Input) : reach a b -> within b.
Proof. now intros (n & _ & _ & W). Qed.

Lemma RemainingInlineWhitespace_reach (inp inp' : Input) (r : result string) :
  within inp ->
  parsers.RemainingInlineWhitespace inp = (r, inp') -> reach inp inp'.
Proof.
  intros W. unfold parsers.RemainingInlineWhitespace, ZeroOrMore, RuneIn.
  rewrite (StringFrom_run _ 0 inp W). cbn [Nat.leb]. intros [= _ <-].
  now apply reach_run.
Qed.

Lemma listItemOpen_reach (inp inp' : Input) (m : string) :
  within inp -> listItemOpen inp = (Match m, inp') -> reach inp inp'.
Proof.
  intros W. unfold listItemOpen, StringFrom at 1.
  match goal with |- context [match ?p inp with _ => _ end] =>
    destruct (p inp) as [[x| |e] iq] eqn:Eq end; try discriminate.
  apply bind_Match in Eq as (w1 & i1 & E1 & Eq).
  apply bind_Match in Eq as (d & i2 & E2 & E3).
  pose proof (RemainingInlineWhitespace_reach _ _ _ W E1) as R1.
  pose proof (reach_rune _ _ _ _ eq_refl eq_refl (reach_within _ _ R1) E2) as R2.
  pose proof (RemainingInlineWhitespace_reach _ _ _ (reach_within _ _ R2) E3) as R3.
  pose proof (reach_trans _ _ _ (reach_trans _ _ _ R1 R2) R3) as R.
  destruct R as (n & -> & Hn & Wq).
  unfold Index. cbn [charIndex at_ str].
  rewrite Seek_spec by (unfold within in W; exact W). cbn [snd].
  rewrite at_at, at_here.
  replace (charIndex inp + n - charIndex inp) with n by lia.
  unfold Take. unfold within in Wq. cbn [charIndex str at_] in Wq.
  destruct (Nat.ltb_spec (String.length (str inp)) (charIndex inp + n)); [lia|].
  intros [= _ <-]. exists n. repeat split; assumption.
Qed.

Lemma statusParser_reach (inp inp' : Input) (s : Status) :
  within inp -> statusParser inp = (Match s, inp') -> reach inp inp'.
Proof.
  intros W H. unfold statusParser, Rune, RuneIn in H.
  apply bind_Match in H as (? & i1 & E1 & H).
  apply bind_Match in H as (? & i2 & E2 & H).
  apply bind_Match in H as (? & i3 & E3 & H).
  apply bind_Match in H as (? & i4 & E4 & H).
  injection H as _ <-.
  pose proof (reach_rune _ _ _ _ eq_refl eq_refl W E1) as R1.
  pose proof (reach_rune _ _ _ _ eq_refl eq_refl (reach_within _ _ R1) E2) as R2.
  pose proof (reach_rune _ _ _ _ eq_refl eq_refl (reach_within _ _ R2) E3) as R3.
  pose proof (reach_rune _ _ _ _ eq_refl eq_refl (reach_within _ _ R3) E4) as R4.
  exact (reach_trans _ _ _ (reach_trans _ _ _ (reach_trans _ _ _ R1 R2) R3) R4).
Qed.

(** [NewLineOrEOF] goes over the terminator the text starts with. *)
Lemma NewLineOrEOF_spec (inp : Input) :
  within inp -> lineEnd (remaining inp) = true ->
  snd (parsers.NewLineOrEOF inp)
  = at_ (charIndex inp + terminator (remaining inp)) inp.
Proof.
  intros W H. unfold parsers.NewLineOrEOF, NewLine, terminator. cbn [Any].
  rewrite (String__remaining _ inp W).
  destruct (String.prefix (String CR (String LF "")) (remaining inp)) eqn:E1;
    [reflexivity|].
  rewrite (String__remaining _ inp W).
  destruct (String.prefix (str1 LF) (remaining inp)) eqn:E2; [reflexivity|].
  unfold lineEnd in H. rewrite E1, E2 in H. cbn [orb] in H.
  apply String.eqb_eq in H.
  unfold EOF. rewrite Peek_one, nextByte_remaining, H. cbn [snd].
  now rewrite at_zero.
Qed.

(** X17: a line that parses as a task is consumed whole and alone: the
    cursor ends just behind the first line terminator at or after the place
    it started from, or at the end of the input when there is none, whatever
    keys and values stand on later lines. *)
Theorem task_takes_its_line (path checksum : string) (relativeTo : time.Time)
    (inp inp' : Input) (t : Task) :
  within inp ->
  ParseTask path checksum relativeTo inp = (Match t, inp') ->
  inp' = at_ (charIndex inp + lineLength (remaining inp)) inp.
Proof.
  intros W H.
  destruct (ParseTask_Match _ _ _ _ _ _ W H)
    as (status & _ & Wc & Est & _ & -> & (m & E1)).
  pose proof (listItemOpen_reach _ _ _ W E1) as R1.
  apply pair_eta in Est. fold (nameCursor inp) in Est.
  pose proof (statusParser_reach _ _ _ (reach_within _ _ R1) Est) as R2.
  pose proof (reach_scan fieldKeys (nameCursor inp) (reach_within _ _ R2)) as R3.
  fold (fieldsCursor inp) in R3.
  destruct (reach_trans _ _ _ (reach_trans _ _ _ R1 R2) R3) as (n & Ec & Hn & _).
  rewrite (StringUntil_scan _ lineEnd (fieldsCursor inp) decides_NewLineOrEOF
             eq_refl Wc).
  cbn [snd].
  rewrite NewLineOrEOF_spec.
  2:{ now apply scan_within. }
  2:{ rewrite remaining_at. now apply scanWith_stops. }
  rewrite remaining_at. cbn [charIndex at_ str]. rewrite at_at.
  unfold lineLength. rewrite (scanWith_plain n (remaining inp) Hn).
  rewrite Ec at 1 2 3 4. rewrite remaining_at. cbn [charIndex at_ str].
  rewrite dropS_add. unfold at_. cbn [str]. rewrite Ec. cbn [str]. f_equal. lia.
Qed.

Lemma task_takes_its_line_witness :
  within (NewInput ("- [ ] a" ++ str1 LF ++ "- [x] b due:2024-01-01"))
  /\ snd (ParseTask "a.md" "v" (time.Date 2024 1 1)
            (NewInput ("- [ ] a" ++ str1 LF ++ "- [x] b due:2024-01-01")))
     = at_ (0 + lineLength
                  (remaining
                     (NewInput ("- [ ] a" ++ str1 LF ++ "- [x] b due:2024-01-01"))))
           (NewInput ("- [ ] a" ++ str1 LF ++ "- [x] b due:2024-01-01")).
Proof.
  assert (within (NewInput ("- [ ] a" ++ str1 LF ++ "- [x] b due:2024-01-01")))
    as W by (unfold within; vm_compute; lia).
  split; [exact W|].
  assert (ParseTask "a.md" "v" (time.Date 2024 1 1)
            (NewInput ("- [ ] a" ++ str1 LF ++ "- [x] b due:2024-01-01"))
          = (Match (NewTask (NewIdentifier "a.md" "v" 1) "a" Todo []),
             snd (ParseTask "a.md" "v" (time.Date 2024 1 1)
                    (NewInput ("- [ ] a" ++ str1 LF ++ "- [x] b due:2024-01-01")))))
    as E by (vm_compute; reflexivity).
  exact (task_takes_its_line _ _ _ _ _ _ W E).
Defined.

(** ** A priority without digits *)

Lemma bind_NoMatch {A B} (p : Parser A) (k : A -> Parser B) (inp inp' : Input) :
  bind p k inp = (NoMatch, inp') ->
  p inp = (NoMatch, inp')
  \/ exists x inp1, p inp = (Match x, inp1) /\ k x inp1 = (NoMatch, inp').
Proof.
  unfold bind. destruct (p inp) as [[x| |err] inp1]; intros H.
  - right. exists x, inp1. split; [reflexivity | exact H].
  - left. injection H as ->. reflexivity.
  - discriminate.
Qed.

(** The block of a field never reports no match: a field that is not there
    is an absent value. *)
Lemma field_not_NoMatch {T} (key : Parser string) (p : Parser T) (start : nat)
    (inp inp' : Input) :
  field key p start inp <> (NoMatch, inp').
Proof.
  unfold field, attempt.
  destruct (StringUntil _ inp) as [[m| |e] i1]; [| |discriminate].
  all: match goal with |- context [match ?q ?i with _ => _ end] =>
         destruct (q i) as [[v| |e] i2] end; discriminate.
Qed.

(** The block of a field fails exactly as the field's parser does where the
    scan stops. *)
Lemma field_Error {T} (ms : list string) (p : Parser T) (c c' : Input)
    (e : error) :
  within c ->
  field (Any (map String_ ms)) p (Index c) c = (Error e, c') ->
  p (keyFound ms c) = (Error e, c').
Proof.
  intros W. unfold field, attempt, Index.
  rewrite (StringUntil_scan _ (keyStop ms) c (decides_key_or_end ms)
             (keyStop_nil ms) W).
  cbn [isOk]. fold (keyFound ms c).
  destruct (p (keyFound ms c)) as [[x| |e'] c1]; try discriminate.
  now intros [= <- <-].
Qed.

(** A line fails only in its priority: the error of [ParseTask] is the one
    [priorityParser] returns where the scan for the priority key stops. *)
Lemma ParseTask_Error (path checksum : string) (relativeTo : time.Time)
    (inp inp' : Input) (e : error) :
  within inp ->
  ParseTask path checksum relativeTo inp = (Error e, inp') ->
  priorityParser (priorityCursor inp) = (Error e, inp').
Proof.
  intros W H. unfold ParseTask in H.
  apply bind_Error in H as [H | (m & i1 & E1 & H)].
  { exfalso. apply (listItemOpen_total inp e W). now rewrite H. }
  pose proof (StringFrom_within _ _ _ _ E1) as W1.
  apply bind_Error in H as [H | (status & i2 & E2 & H)].
  { exfalso. revert H. unfold statusParser.
    repeat (intros H; apply bind_Error in H as [H | (? & ? & _ & H)];
            [now apply (raises_RuneWhere (fun _ => False)) in H | revert H]).
    discriminate. }
  pose proof (statusParser_ahead _ _ _ E2) as (_ & _ & W2).
  assert (nameCursor inp = i2) as En
    by (unfold nameCursor; rewrite E1; cbn [snd]; now rewrite E2).
  apply bind_Error in H as [H | (name & i3 & E3 & H)].
  { rewrite (StringUntil_scan _ (keyStop fieldKeys) i2 decides_fieldKeys eq_refl W2)
      in H. discriminate. }
  rewrite (StringUntil_scan _ (keyStop fieldKeys) i2 decides_fieldKeys eq_refl W2)
    in E3.
  injection E3 as _ <-.
  pose proof (scan_within (keyStop fieldKeys) i2 W2) as W3.
  unfold priorityCursor, fieldsCursor. rewrite En. unfold keyFound at 2.
  set (c := at_ _ i2) in *. cbv beta zeta in H.
  apply bind_Error in H as [H | (due & c1 & F1 & H)].
  { exfalso.
    apply (field_fails (fun _ => False) [_; _] dueParser c _ e W3) in H; [exact H|].
    apply (keyed_fails _ "due:" "d:"), raises_fails, raises_YearMonthDay. }
  apply (field_Match [_; _] dueParser c c1 due W3 steady_dueParser) in F1
    as [-> _].
  apply bind_Error in H as [H | (scheduled & c2 & F2 & H)].
  { exfalso.
    apply (field_fails (fun _ => False) [_; _] scheduledParser c _ e W3) in H;
      [exact H|].
    apply (keyed_fails _ "scheduled:" "s:"), raises_fails, raises_YearMonthDay. }
  apply (field_Match [_; _] scheduledParser c c2 scheduled W3
           steady_scheduledParser) in F2 as [-> _].
  apply bind_Error in H as [H | (completed & c3 & F3 & H)].
  { exfalso.
    apply (field_fails (fun _ => False) [_] completedParser c _ e W3) in H;
      [exact H|].
    apply raises_fails, raises_bind;
      [apply (raises_literals _ [_]) | intros ?; apply raises_YearMonthDay]. }
  apply (field_Match [_] completedParser c c3 completed W3
           steady_completedParser) in F3 as [-> _].
  apply bind_Error in H as [H | (priority & c4 & F4 & H)].
  { exact (field_Error [_; _] priorityParser c _ e W3 H). }
  apply (field_Match [_; _] priorityParser c c4 priority W3
           steady_priorityParser) in F4 as [-> _].
  apply bind_Error in H as [H | (every & c5 & F5 & H)].
  { exfalso.
    apply (field_fails (fun _ => False) [_; _] (everyParser relativeTo) c _ e W3)
      in H; [exact H|].
    apply (keyed_fails _ "every:" "e:"), fails_everyRule. }
  discriminate.
Qed.

(** A line that opens as a task is never reported as no match: it gives a
    task, or fails. *)
Lemma ParseTask_opens (path checksum : string) (relativeTo : time.Time)
    (inp inp' : Input) :
  within inp -> opensAsTask inp ->
  ParseTask path checksum relativeTo inp <> (NoMatch, inp').
Proof.
  intros W ((m & E1) & (status & E2)) H.
  apply pair_eta in E1. apply pair_eta in E2.
  set (i1 := snd (listItemOpen inp)) in *.
  set (i2 := snd (statusParser i1)) in *.
  unfold ParseTask in H.
  apply bind_NoMatch in H as [H | (? & ? & E1' & H)]; [congruence|].
  assert (within i1) as W1 by (apply (StringFrom_within _ _ _ _ E1)).
  rewrite E1 in E1'. injection E1' as _ <-.
  apply bind_NoMatch in H as [H | (? & ? & E2' & H)]; [congruence|].
  pose proof (statusParser_ahead _ _ _ E2) as (_ & _ & W2).
  rewrite E2 in E2'. injection E2' as _ <-.
  apply bind_NoMatch in H as [H | (name & i3 & _ & H)].
  { rewrite (StringUntil_scan _ (keyStop fieldKeys) i2 decides_fieldKeys eq_refl W2)
      in H. discriminate. }
  cbv beta zeta in H.
  repeat (apply bind_NoMatch in H as [H | (? & ? & _ & H)];
          [now apply field_not_NoMatch in H|]).
  discriminate.
Qed.

(** C2, as the code has it: on a line where no decimal digit stands where
    [ParseTask] has [priorityParser] look for the value (behind [priority:]
    or [p:] where the scan for the key stops, whatever stands there instead,
    or where there is no key), the parser reports no match and no error, as
    it does at any cursor without a digit at the value; [ParseTask] does not
    fail on the line; the task it returns has no priority; and it does
    return a task if the line opens as one.  So a line fails with the
    priority error only where the value begins with a decimal digit. *)
Theorem priority_without_digits_is_absent (path checksum : string)
    (relativeTo : time.Time) (line : Input) :
  within line ->
  nextIsDigit (priorityValueCursor (priorityCursor line)) = false ->
  (forall inp, nextIsDigit (priorityValueCursor inp) = false ->
               outcome (priorityParser inp) = NoMatch)
  /\ (forall e, fst (ParseTask path checksum relativeTo line) <> Error e)
  /\ (forall t inp', ParseTask path checksum relativeTo line = (Match t, inp') ->
                     Priority t = None)
  /\ (opensAsTask line ->
      exists t inp', ParseTask path checksum relativeTo line = (Match t, inp')
                     /\ Priority t = None).
Proof.
  intros W Hd.
  pose proof (priority_without_digits_absent _ Hd) as Hp.
  assert (forall e, fst (ParseTask path checksum relativeTo line) <> Error e) as He.
  { intros e E. apply pair_eta in E. apply (ParseTask_Error _ _ _ _ _ _ W) in E.
    unfold outcome in Hp. now rewrite E in Hp. }
  assert (forall t inp', ParseTask path checksum relativeTo line = (Match t, inp') ->
                         Priority t = None) as Ht.
  { intros t inp' E.
    destruct (ParseTask_Match _ _ _ _ _ _ W E) as (status & _ & _ & _ & -> & _).
    rewrite NewTask_fields. cbn [Priority priority].
    fold (priorityCursor line). unfold outcome in Hp.
    now destruct (fst (priorityParser (priorityCursor line))). }
  split; [exact priority_without_digits_absent|].
  split; [exact He|]. split; [exact Ht|].
  intros Ho.
  destruct (ParseTask path checksum relativeTo line) as [[t| |e] inp'] eqn:E.
  - exists t, inp'. split; [reflexivity | now apply (Ht t inp')].
  - now elim (ParseTask_opens path checksum relativeTo line inp' W Ho).
  - now elim (He e).
Qed.

Lemma priority_without_digits_is_absent_witness :
  within (NewInput "- [ ] task priority:abc")
  /\ nextIsDigit (priorityValueCursor
                    (priorityCursor (NewInput "- [ ] task priority:abc"))) = false
  /\ opensAsTask (NewInput "- [ ] task priority:abc")
  /\ exists t inp',
       ParseTask "a.md" "v" (time.Date 2024 1 1) (NewInput "- [ ] task priority:abc")
       = (Match t, inp')
       /\ Priority t = None.
Proof.
  assert (within (NewInput "- [ ] task priority:abc")) as W
    by (unfold within; cbn; lia).
  assert (nextIsDigit (priorityValueCursor
                         (priorityCursor (NewInput "- [ ] task priority:abc")))
          = false) as Hd by (vm_compute; reflexivity).
  assert (opensAsTask (NewInput "- [ ] task priority:abc")) as Ho
    by (split; eexists; vm_compute; reflexivity).
  split; [exact W | split; [exact Hd | split; [exact Ho|]]].
  exact (proj2 (proj2 (proj2
           (priority_without_digits_is_absent "a.md" "v" (time.Date 2024 1 1)
              (NewInput "- [ ] task priority:abc") W Hd))) Ho).
Defined.
